(** * CodeTour AI: structural analysis, batch synthesis and step validation

    A shallow embedding of the generation pipeline of the extension:

    - [treesitter-analyzer.ts]: the grammar-driven element extraction, the
      regex fallback and file discovery/prioritisation;
    - [batch-generator.ts]: the batch orchestrator, the welcome synthesizer
      and the defensive response parser;
    - [tour-generator.ts]: the validator ([validateAndRefineSteps]).

    Conventions.  A JavaScript string is a [string], read as the sequence
    of its UTF-16 code units: the character numbered [n] stands for the code
    unit [n].  The texts covered are therefore those whose code units lie
    below 256 (ASCII and Latin-1), and on them [trim], [toLowerCase] and
    the character classes of the patterns are the host's: the no-break
    space U+00A0 is white space, the capital U+00C9 lower-cases to U+00E9.
    A character outside ASCII is written by its number (["160"%char] is
    U+00A0); typed as itself in a literal it would be read as its UTF-8
    bytes, which is another text ([Samples.text] turns such a literal into
    the text it shows).  Only the emoji of the welcome page, which
    lie beyond the range, are kept that way: they are constants the code
    carries along and never looks into.  A JavaScript [number] that holds a
    line, a count or a score is a [Z] or a [nat].  An optional property is an
    [option]; an exception is a [None] (or a dedicated constructor) threaded to
    the enclosing [try]/[catch]. *)

From Stdlib Require Import ZArith Ascii String DecimalString Sorted Permutation Lia.
From stdpp Require Import base tactics option list strings gmap.

Local Open Scope Z_scope.

(** ** Host string and array primitives *)

Module Js.

(** [s.startsWith(p)] *)
Fixpoint startsWith (s p : string) {struct p} : bool :=
  match p, s with
  | EmptyString, _ => true
  | String _ _, EmptyString => false
  | String a p', String b s' => if decide (a = b) then startsWith s' p' else false
  end.

(** [s.includes(search)] *)
Fixpoint includes (s search : string) : bool :=
  if startsWith s search then true
  else match s with
       | EmptyString => false
       | String _ s' => includes s' search
       end.

(** [s.split(sep)] for a one-character separator; never the empty array. *)
Fixpoint split (sep : ascii) (s : string) : list string :=
  match s with
  | EmptyString => [EmptyString]
  | String c s' =>
      if decide (c = sep) then EmptyString :: split sep s'
      else match split sep s' with
           | h :: t => String c h :: t
           | [] => [String c EmptyString]
           end
  end.

(** [a.pop()] as a value: the last element, [undefined] on the empty array. *)
Definition pop {A} (a : list A) : option A := last a.

(** [toLowerCase] on one code unit below 256: the letters [A] to [Z], and
    the capitals U+00C0 to U+00DE but for the multiplication sign U+00D7,
    move up by 32; everything else is its own lower case. *)
Definition lowerChar (c : ascii) : ascii :=
  let n := nat_of_ascii c in
  if ((65 <=? n) && (n <=? 90))%nat
     || ((192 <=? n) && (n <=? 222) && negb (n =? 215))%nat
  then ascii_of_nat (n + 32) else c.

(** [s.toLowerCase()] *)
Fixpoint toLowerCase (s : string) : string :=
  match s with
  | EmptyString => EmptyString
  | String c s' => String (lowerChar c) (toLowerCase s')
  end.

(** Truthiness of a string and of a number. *)
Definition truthyString (s : string) : bool := bool_decide (s ≠ EmptyString).
Definition truthyNumber (n : Z) : bool := bool_decide (n ≠ 0).

(** [a.slice(0, e)]: a negative end counts from the end of the array. *)
Definition slice0 {A} (e : Z) (a : list A) : list A :=
  let len := Z.of_nat (length a) in
  let stop := if e <? 0 then Z.max (len + e) 0 else Z.min e len in
  take (Z.to_nat stop) a.

(** [s.substring(a, b)]: both ends clamped to the length, swapped if needed. *)
Definition substring (a b : nat) (s : string) : string :=
  let len := String.length s in
  let a' := Nat.min a len in
  let b' := Nat.min b len in
  String.substring (Nat.min a' b') (Nat.max a' b' - Nat.min a' b') s.

(** White space as [trim] and the class [\s] know it, below 256: tab, line
    feed, vertical tab, form feed, carriage return, space and the no-break
    space U+00A0. *)
Definition isWhiteSpace (c : ascii) : bool :=
  Ascii.is_space c || bool_decide (c = "160"%char).

Fixpoint trimStart (s : string) : string :=
  match s with
  | EmptyString => EmptyString
  | String c s' => if isWhiteSpace c then trimStart s' else s
  end.

Fixpoint trimEnd (s : string) : string :=
  match s with
  | EmptyString => EmptyString
  | String c s' =>
    match trimEnd s' with
    | EmptyString => if isWhiteSpace c then EmptyString else String c EmptyString
    | r => String c r
    end
  end.

(** [s.trim()] *)
Definition trim (s : string) : string := trimEnd (trimStart s).

(** [s.search(/\S/)]: the position of the first character that is not
    white space, or -1. *)
Fixpoint search_nonspace (s : string) : Z :=
  match s with
  | EmptyString => -1
  | String c s' =>
    if isWhiteSpace c then
      let r := search_nonspace s' in if r <? 0 then -1 else r + 1
    else 0
  end.

(** [a.sort((x, y) => key(y) - key(x))]: descending by key, elements of
    equal key in their original order. *)
Fixpoint insertDescending {A} (key : A -> Z) (x : A) (sorted : list A) : list A :=
  match sorted with
  | [] => [x]
  | y :: rest =>
    if key x <? key y then y :: insertDescending key x rest
    else x :: y :: rest
  end.

Fixpoint sortDescending {A} (key : A -> Z) (a : list A) : list A :=
  match a with
  | [] => []
  | x :: rest => insertDescending key x (sortDescending key rest)
  end.

(** A line feed. *)
Definition nl : string := String "010"%char EmptyString.

(** [a.join(sep)] *)
Fixpoint join (sep : string) (a : list string) : string :=
  match a with
  | [] => EmptyString
  | [x] => x
  | x :: rest => x +:+ sep +:+ join sep rest
  end.

(** [[...new Set(a)]]: the distinct elements in order of first occurrence. *)
Fixpoint uniq_loop (seen a : list string) : list string :=
  match a with
  | [] => []
  | x :: rest =>
    if bool_decide (x ∈ seen) then uniq_loop seen rest
    else x :: uniq_loop (x :: seen) rest
  end.

Definition uniq (a : list string) : list string := uniq_loop [] a.

(** A count in decimal, as a template literal prints it. *)
Definition numberToString (n : nat) : string :=
  NilZero.string_of_uint (Nat.to_uint n).

End Js.

(** ** Regular expressions

    The patterns of the source are few and small; they are written as
    values of [Re] and run by a backtracking matcher that follows the
    order of the host's: a greedy star tries one more round before it goes
    on, a lazy one goes on first, an alternative tries its left side first,
    and a round of a star that consumes nothing is refused. *)

Module Regex.

Inductive Re :=
  | Eps
  | Chr (class : ascii -> bool)
  | Seq (r1 r2 : Re)
  | Alt (r1 r2 : Re)
  | Star (greedy : bool) (r : Re)
  | Group (n : nat) (r : Re)
  | Bol
  | WordBoundary.

(** A position in the input: the character before it, and what is left. *)
Record Pos := mkPos { prev : option ascii; rest : string }.

Definition Captures : Type := list (nat * string).

Definition Outcome : Type := option (Pos * Captures).

Definition wordChar (a : ascii) : bool :=
  let n := nat_of_ascii a in
  ((48 <=? n) && (n <=? 57))%nat || ((65 <=? n) && (n <=? 90))%nat
  || ((97 <=? n) && (n <=? 122))%nat || (n =? 95)%nat.

Definition atWord (a : option ascii) : bool :=
  match a with Some c => wordChar c | None => false end.

Definition next (p : Pos) : option ascii :=
  match rest p with String a _ => Some a | EmptyString => None end.

Fixpoint takeString (n : nat) (s : string) : string :=
  match n, s with
  | S n', String a s' => String a (takeString n' s')
  | _, _ => EmptyString
  end.

Fixpoint dropString (n : nat) (s : string) : string :=
  match n, s with
  | S n', String _ s' => dropString n' s'
  | _, _ => s
  end.

(** The text between two positions of the same input. *)
Definition consumed (from to : Pos) : string :=
  takeString (String.length (rest from) - String.length (rest to)) (rest from).

(** The rounds of a star over [body], then the continuation [k]; [n] bounds
    the rounds and is never exhausted, a round consuming a character. *)
Definition starLoop (body : Pos -> Captures -> (Pos -> Captures -> Outcome) -> Outcome)
           (greedy : bool) (k : Pos -> Captures -> Outcome)
  : nat -> Pos -> Captures -> Outcome :=
  fix loop (n : nat) (p : Pos) (c : Captures) {struct n} : Outcome :=
  match n with
  | O => k p c
  | S n' =>
      let again :=
        body p c (fun p' c' =>
                    if (String.length (rest p') <? String.length (rest p))%nat
                    then loop n' p' c' else None) in
      if greedy then
        match again with Some x => Some x | None => k p c end
      else
        match k p c with Some x => Some x | None => again end
  end.

(** Matching in continuation-passing style: [run r p c k] matches [r] at
    [p] and hands the position after it to [k]; a failure of [k] makes it
    try the next way of matching [r]. *)
Fixpoint run (r : Re) (p : Pos) (c : Captures)
         (k : Pos -> Captures -> Outcome) {struct r} : Outcome :=
  match r with
  | Eps => k p c
  | Chr class =>
    match rest p with
    | String a s => if class a then k (mkPos (Some a) s) c else None
    | EmptyString => None
    end
  | Seq r1 r2 => run r1 p c (fun p' c' => run r2 p' c' k)
  | Alt r1 r2 =>
    match run r1 p c k with
    | Some x => Some x
    | None => run r2 p c k
    end
  | Star greedy r => starLoop (run r) greedy k (S (String.length (rest p))) p c
  | Group n r => run r p c (fun p' c' => k p' ((n, consumed p p') :: c'))
  | Bol => match prev p with None => k p c | Some _ => None end
  | WordBoundary =>
    if xorb (atWord (prev p)) (atWord (next p)) then k p c else None
  end.

Record Match := mkMatch { matched : string; captures : Captures }.

Definition matchAt (r : Re) (p : Pos) : option Match :=
  match run r p [] (fun p' c' => Some (p', c')) with
  | Some (p', c') => Some (mkMatch (consumed p p') c')
  | None => None
  end.

(** The first position, from the left, at which the pattern matches. *)
Fixpoint exec_from (r : Re) (before : option ascii) (s : string) : option Match :=
  match matchAt r (mkPos before s) with
  | Some m => Some m
  | None =>
    match s with
    | String a s' => exec_from r (Some a) s'
    | EmptyString => None
    end
  end.

(** [s.match(r)] and [r.exec(s)] for a pattern without the [g] flag. *)
Definition exec (r : Re) (s : string) : option Match := exec_from r None s.

Definition test (r : Re) (s : string) : bool :=
  match exec r s with Some _ => true | None => false end.

(** [m[n]] *)
Definition group (n : nat) (m : Match) : option string :=
  snd <$> List.find (fun kv => (fst kv =? n)%nat) (captures m).

(** *** Building blocks *)

Definition chr (a : ascii) : Re := Chr (fun b => bool_decide (b = a)).

Definition any : Re := Chr (fun _ => true).

Definition oneOf (s : string) : Re :=
  Chr (fun b => bool_decide (b ∈ list_ascii_of_string s)).

Definition noneOf (s : string) : Re :=
  Chr (fun b => negb (bool_decide (b ∈ list_ascii_of_string s))).

Definition space : Re := Chr Js.isWhiteSpace.

Definition word : Re := Chr wordChar.

(** [.]: any character but a line terminator. *)
Definition dot : Re :=
  Chr (fun b => negb (bool_decide (b = "010"%char) || bool_decide (b = "013"%char))).

Fixpoint lit (s : string) : Re :=
  match s with
  | EmptyString => Eps
  | String a s' => Seq (chr a) (lit s')
  end.

(** A literal under the [i] flag. *)
Fixpoint litI (s : string) : Re :=
  match s with
  | EmptyString => Eps
  | String a s' =>
    Seq (Chr (fun b => bool_decide (Js.lowerChar b = Js.lowerChar a))) (litI s')
  end.

Definition plus (greedy : bool) (r : Re) : Re := Seq r (Star greedy r).

Definition opt (r : Re) : Re := Alt r Eps.

(** *** Replacement *)

Fixpoint lastChar (before : option ascii) (s : string) : option ascii :=
  match s with
  | EmptyString => before
  | String a s' => lastChar (Some a) s'
  end.

(** [s.replace(r, replacement)] for a pattern with the [g] flag and a
    replacement text without [$]: the matches are replaced from the left,
    each search starting where the last match ended; after an empty match
    the next character is copied.  The fuel bounds the number of searches
    and is never exhausted. *)
Fixpoint replaceAll_from (fuel : nat) (r : Re) (replacement : string)
         (before : option ascii) (s : string) : string :=
  match fuel with
  | O => s
  | S fuel' =>
    match matchAt r (mkPos before s) with
    | Some m =>
      match String.length (matched m) with
      | O =>
        match s with
        | EmptyString => replacement
        | String a s' =>
          replacement
          +:+ String a (replaceAll_from fuel' r replacement (Some a) s')
        end
      | S n =>
        replacement
        +:+ replaceAll_from fuel' r replacement (lastChar before (matched m))
              (dropString (S n) s)
      end
    | None =>
      match s with
      | EmptyString => EmptyString
      | String a s' => String a (replaceAll_from fuel' r replacement (Some a) s')
      end
    end
  end.

Definition replaceAll (r : Re) (replacement s : string) : string :=
  replaceAll_from (S (String.length s)) r replacement None s.

(** *** What a match is

    [Matches r p c p' c']: the pattern [r] can match the text between the
    positions [p] and [p'], turning the captures [c] into [c'].  The
    matcher only ever answers with such a match. *)
Inductive Matches : Re -> Pos -> Captures -> Pos -> Captures -> Prop :=
  | matches_eps p c : Matches Eps p c p c
  | matches_chr class before a s c :
    class a = true ->
    Matches (Chr class) (mkPos before (String a s)) c (mkPos (Some a) s) c
  | matches_seq r1 r2 p c p1 c1 p2 c2 :
    Matches r1 p c p1 c1 -> Matches r2 p1 c1 p2 c2 ->
    Matches (Seq r1 r2) p c p2 c2
  | matches_alt_l r1 r2 p c p' c' :
    Matches r1 p c p' c' -> Matches (Alt r1 r2) p c p' c'
  | matches_alt_r r1 r2 p c p' c' :
    Matches r2 p c p' c' -> Matches (Alt r1 r2) p c p' c'
  | matches_star_end greedy r p c : Matches (Star greedy r) p c p c
  | matches_star_round greedy r p c p1 c1 p2 c2 :
    Matches r p c p1 c1 ->
    (String.length (rest p1) < String.length (rest p))%nat ->
    Matches (Star greedy r) p1 c1 p2 c2 ->
    Matches (Star greedy r) p c p2 c2
  | matches_group n r p c p' c' :
    Matches r p c p' c' ->
    Matches (Group n r) p c p' ((n, consumed p p') :: c')
  | matches_bol p c : prev p = None -> Matches Bol p c p c
  | matches_boundary p c :
    xorb (atWord (prev p)) (atWord (next p)) = true ->
    Matches WordBoundary p c p c.

(** A pattern without groups. *)
Fixpoint captureFree (r : Re) : bool :=
  match r with
  | Seq r1 r2 | Alt r1 r2 => captureFree r1 && captureFree r2
  | Star _ r => captureFree r
  | Group _ _ => false
  | Eps | Chr _ | Bol | WordBoundary => true
  end.

(** Every character of the text is in the class. *)
Fixpoint everyChar (class : ascii -> bool) (s : string) : bool :=
  match s with
  | EmptyString => true
  | String a s' => class a && everyChar class s'
  end.

End Regex.

(** ** Glob patterns of the editor

    [vscode.workspace.findFiles] is given glob patterns.  The rules of the
    editor, for the constructs the source uses: [{a,b}] groups
    alternatives (the source does not nest groups), [/] separates the
    segments of a path, [**] as a whole segment stands for any number of
    segments, none included, and [*] inside a segment for any run of
    characters of that segment.  Every other character stands for
    itself. *)

Module Glob.

(** One segment of a path against one segment of a pattern. *)
Fixpoint matchSegment (pattern segment : string) {struct pattern} : bool :=
  match pattern with
  | EmptyString => bool_decide (segment = EmptyString)
  | String a pattern' =>
    if bool_decide (a = "*"%char) then
      (fix anyRun (segment : string) : bool :=
         matchSegment pattern' segment
         || match segment with
            | EmptyString => false
            | String _ segment' => anyRun segment'
            end) segment
    else
      match segment with
      | String b segment' => bool_decide (a = b) && matchSegment pattern' segment'
      | EmptyString => false
      end
  end.

(** The segments of a path against the segments of a pattern. *)
Fixpoint matchSegments (patterns segments : list string) {struct patterns} : bool :=
  match patterns with
  | [] => bool_decide (segments = [])
  | pattern :: patterns' =>
    if bool_decide (pattern = "**") then
      (fix anySegments (segments : list string) : bool :=
         matchSegments patterns' segments
         || match segments with
            | [] => false
            | _ :: segments' => anySegments segments'
            end) segments
    else
      match segments with
      | segment :: segments' =>
        matchSegment pattern segment && matchSegments patterns' segments'
      | [] => false
      end
  end.

(** The inside of a group, read from behind its opening brace: the
    alternatives between the commas, and the text after the closing
    brace. *)
Fixpoint alternatives (s : string) : list string * string :=
  match s with
  | EmptyString => ([EmptyString], EmptyString)
  | String a s' =>
    if bool_decide (a = "}"%char) then ([EmptyString], s')
    else
      let '(alts, after) := alternatives s' in
      if bool_decide (a = ","%char) then (EmptyString :: alts, after)
      else match alts with
           | alt :: alts' => (String a alt :: alts', after)
           | [] => ([String a EmptyString], after)
           end
  end.

(** The patterns without groups that a pattern stands for.  The fuel bounds
    the number of characters read and is never exhausted. *)
Fixpoint expand (fuel : nat) (pattern : string) : list string :=
  match fuel with
  | O => [pattern]
  | S fuel' =>
    match pattern with
    | EmptyString => [EmptyString]
    | String a pattern' =>
      if bool_decide (a = "{"%char) then
        let '(alts, after) := alternatives pattern' in
        alt ← alts; tail ← expand fuel' after; [alt +:+ tail]
      else String a <$> expand fuel' pattern'
    end
  end.

(** The path matches the pattern. *)
Definition matches (pattern path : string) : bool :=
  existsb (fun alternative =>
             matchSegments (Js.split "/" alternative) (Js.split "/" path))
          (expand (S (String.length pattern)) pattern).

End Glob.

(** ** Data model of [treesitter-analyzer.ts] *)

Inductive CodeElementType :=
  | TClass | TFunction | TAsyncFunction | TMethod
  | TInterface | TEnum | TVariable | TImport.

Global Instance CodeElementType_eq_dec : EqDecision CodeElementType.
Proof. solve_decision. Defined.

(** [children] absent and [children] empty are both the empty list: every
    reader of the field goes through [children || []] or a length test. *)
#[warnings="-register-all"]
Inductive CodeElement := mkCodeElement {
  el_type : CodeElementType;
  el_name : string;
  el_file : string;
  el_line : nat;
  el_endLine : nat;
  el_children : list CodeElement
}.

Record FileAnalysis := mkFileAnalysis {
  fa_file : string;
  fa_language : string;
  fa_elements : list CodeElement;
  fa_imports : list string;
  fa_exports : list string
}.

Record ProjectStructure := mkProjectStructure {
  ps_rootPath : string;
  ps_files : list FileAnalysis;
  ps_entryPoints : list string;
  ps_dependencies : gmap string (list string)
}.

(** ** Data model of [tour-generator.ts] *)

Record Position := mkPosition { pos_line : Z; pos_character : Z }.
Record Selection := mkSelection { sel_start : Position; sel_end : Position }.

(** A step as the generation service returned it.  [title] is read with
    [?.] by the validator, so it may be missing. *)
Record GeneratedTourStep := mkGeneratedTourStep {
  gs_title : option string;
  gs_file : string;
  gs_line : option Z;
  gs_description : string;
  gs_selection : option Selection
}.

Record CodeTourStep := mkCodeTourStep {
  ts_title : option string;
  ts_file : string;
  ts_description : string;
  ts_line : option Z;
  ts_selection : option Selection
}.

Record TourGenerationOptions := mkOptions {
  opt_maxSteps : option Z
}.

(** ** The structural analyzer of [treesitter-analyzer.ts] *)

(** A node of the syntax tree the grammar produced.  [nd_field] is the field
    name under which the node hangs in its parent, read by
    [childForFieldName]; rows are 0-based. *)
#[warnings="-register-all"]
Inductive SyntaxNode := mkNode {
  nd_type : string;
  nd_field : option string;
  nd_startIndex : nat;
  nd_endIndex : nat;
  nd_startRow : nat;
  nd_endRow : nat;
  nd_children : list SyntaxNode
}.

Module TreeSitterAnalyzer.

Definition childForFieldName (node : SyntaxNode) (field : string) : option SyntaxNode :=
  List.find (fun c => bool_decide (nd_field c = Some field)) (nd_children node).

Definition hasChildOfType (node : SyntaxNode) (t : string) : bool :=
  existsb (fun c => bool_decide (nd_type c = t)) (nd_children node).

Definition nodeText (content : string) (node : SyntaxNode) : string :=
  Js.substring (nd_startIndex node) (nd_endIndex node) content.

Definition typeMapTable : list (string * CodeElementType) :=
  [ ("class_declaration", TClass);
  ("class_definition", TClass);
  ("function_declaration", TFunction);
  ("function_definition", TFunction);
  ("method_definition", TMethod);
  ("method_declaration", TMethod);
  ("interface_declaration", TInterface);
  ("enum_declaration", TEnum);
  ("type_alias_declaration", TInterface) ].

Definition typeMap (t : string) : option CodeElementType :=
  snd <$> List.find (fun kv => bool_decide (fst kv = t)) typeMapTable.

Definition elementAt (ty : CodeElementType) (name filePath : string)
           (node : SyntaxNode) : CodeElement :=
  mkCodeElement ty name filePath (nd_startRow node + 1) (nd_endRow node + 1) [].

(** The loop over the declarators of a [const]/[let]/[var] declaration: the
    first declarator with both a name and a value decides. *)
Fixpoint declaratorElement (filePath content : string) (node : SyntaxNode)
         (children : list SyntaxNode) : option CodeElement :=
  match children with
  | [] => None
  | child :: rest =>
    if bool_decide (nd_type child = "variable_declarator") then
      match childForFieldName child "name", childForFieldName child "value" with
      | Some nameNode, Some valueNode =>
          let name := nodeText content nameNode in
          if bool_decide (nd_type valueNode = "arrow_function")
             || bool_decide (nd_type valueNode = "function")
             || bool_decide (nd_type valueNode = "function_expression")
          then
            let isAsync := hasChildOfType valueNode "async" in
            Some (elementAt (if isAsync then TAsyncFunction else TFunction)
                            name filePath node)
          else Some (elementAt TVariable name filePath node)
      | _, _ => declaratorElement filePath content node rest
      end
    else declaratorElement filePath content node rest
  end.

(** [nodeToElement] on a node that is not an export statement: the type
    table, then the lexical declarations. *)
Definition declarationElement (filePath content : string) (node : SyntaxNode)
  : option CodeElement :=
  match typeMap (nd_type node) with
  | Some elementType =>
    let name := match childForFieldName node "name" with
                | Some nameNode => nodeText content nameNode
                | None => "anonymous"
                end in
    let isAsync := hasChildOfType node "async" in
    let finalType :=
      if isAsync && bool_decide (elementType = TFunction)
      then TAsyncFunction else elementType in
    Some (elementAt finalType name filePath node)
  | None =>
    if bool_decide (nd_type node = "lexical_declaration")
       || bool_decide (nd_type node = "variable_declaration")
    then declaratorElement filePath content node (nd_children node)
    else None
  end.

Definition isExportedDeclaration (child : SyntaxNode) : bool :=
  bool_decide (nd_type child = "lexical_declaration")
  || bool_decide (nd_type child = "variable_declaration")
  || bool_decide (nd_type child = "function_declaration")
  || bool_decide (nd_type child = "class_declaration").

(** [nodeToElement].  The source recurses from an export statement into the
    first child that is a declaration; that child is never an export
    statement itself, so the recursive call is [declarationElement]. *)
Definition nodeToElement (filePath content : string) (node : SyntaxNode)
  : option CodeElement :=
  match declarationElement filePath content node with
  | Some element => Some element
  | None =>
    if bool_decide (nd_type node = "export_statement") then
      match List.find isExportedDeclaration (nd_children node) with
      | Some child => declarationElement filePath content child
      | None => None
      end
    else None
  end.

(** [isMethodNode]; [parentType] is [node.parent?.type]. *)
Definition isMethodNode (parentType : option string) (node : SyntaxNode) : bool :=
  bool_decide (nd_type node = "method_definition")
  || bool_decide (nd_type node = "function_definition")
  || (bool_decide (parentType = Some "class_body")
    && (bool_decide (nd_type node = "function_declaration")
        || bool_decide (nd_type node = "method_declaration"))).

Definition setChildren (element : CodeElement) (children : list CodeElement)
  : CodeElement :=
  mkCodeElement (el_type element) (el_name element) (el_file element)
              (el_line element) (el_endLine element) children.

(** The [for (const child of node.children) traverse(child, parent)] loops:
    the pushes of the calls, concatenated in call order. *)
Definition walkWith (visit : bool -> SyntaxNode -> list CodeElement * list CodeElement)
  : bool -> list SyntaxNode -> list CodeElement * list CodeElement :=
  fix walk (hasParent : bool) (children : list SyntaxNode) :=
  match children with
  | [] => ([], [])
  | child :: rest =>
      let r1 := visit hasParent child in
      let r2 := walk hasParent rest in
      (fst r1 ++ fst r2, snd r1 ++ snd r2)
  end.

(** The closure [traverse] of [extractElements].  [hasParent] tells whether
    the [parent] argument is defined; the result is the pair of what the
    call pushed on [elements] and what it pushed on [parent.children], both
    in push order.  A class element becomes the parent of the calls on its
    node's children, whose second component is then its [children]. *)
Fixpoint traverse (filePath content : string) (parentType : option string)
         (hasParent : bool) (node : SyntaxNode) {struct node}
  : list CodeElement * list CodeElement :=
  let walk := walkWith (traverse filePath content (Some (nd_type node))) in
  match nodeToElement filePath content node with
  | Some element =>
    if bool_decide (el_type element = TClass) then
      let r := walk true (nd_children node) in
      if hasParent && isMethodNode parentType node
      then (fst r, [setChildren element (snd r)])
      else (setChildren element (snd r) :: fst r, [])
    else
      let r := walk hasParent (nd_children node) in
      if hasParent && isMethodNode parentType node
      then (fst r, element :: snd r)
      else (element :: fst r, snd r)
  | None => walk hasParent (nd_children node)
  end.

Definition extractElements (node : SyntaxNode) (filePath content : string)
  : list CodeElement :=
  fst (traverse filePath content None false node).

(** [extractImports] and [extractExports]: the trimmed text of every node
    whose type contains the word, in pre-order. *)
Fixpoint collectText (word content : string) (node : SyntaxNode) {struct node}
  : list string :=
  (if Js.includes (nd_type node) word
 then [Js.trim (nodeText content node)] else [])
  ++ flat_map (collectText word content) (nd_children node).

Definition extractImports (node : SyntaxNode) (content : string) : list string :=
  collectText "import" content node.

Definition extractExports (node : SyntaxNode) (content : string) : list string :=
  collectText "export" content node.

(** *** The regex fallback *)

(** The state of the [forEach] over the lines.  [currentClass] is a second
    reference to an object already stored in [elements]; it is kept as the
    position of that object, and a push on its [children] updates the list
    in place. *)
Record RegexScan := mkRegexScan {
  sc_elements : list CodeElement;
  sc_currentClass : option nat;
  sc_currentIndent : Z;
  sc_imports : list string;
  sc_exports : list string
}.

Definition pushChild (method : CodeElement) (class : CodeElement) : CodeElement :=
  setChildren class (el_children class ++ [method]).

(** The class pattern: an optional [export] and an optional [abstract],
    each followed by white space, then [class], white space and the name. *)
Definition classPattern : Regex.Re :=
  Regex.Seq Regex.Bol
  (Regex.Seq (Regex.opt (Regex.Seq (Regex.lit "export") (Regex.plus true Regex.space)))
  (Regex.Seq (Regex.opt (Regex.Seq (Regex.lit "abstract") (Regex.plus true Regex.space)))
  (Regex.Seq (Regex.lit "class")
  (Regex.Seq (Regex.plus true Regex.space)
             (Regex.Group 1 (Regex.plus true Regex.word)))))).

(** The method pattern: any run of modifier words, optional white space, the
    name, a parenthesised parameter list without a closing parenthesis
    inside, and one of [:], [=], [>], [{]. *)
Definition methodPattern : Regex.Re :=
  Regex.Seq Regex.Bol
  (Regex.Seq (Regex.Star true
                (Regex.Alt (Regex.lit "public")
                (Regex.Alt (Regex.lit "private")
                (Regex.Alt (Regex.lit "protected")
                (Regex.Alt (Regex.lit "async") (Regex.lit "static"))))))
  (Regex.Seq (Regex.Star true Regex.space)
  (Regex.Seq (Regex.Group 1 (Regex.plus true Regex.word))
  (Regex.Seq (Regex.Star true Regex.space)
  (Regex.Seq (Regex.chr "(")
  (Regex.Seq (Regex.Star true (Regex.noneOf ")"))
  (Regex.Seq (Regex.chr ")")
  (Regex.Seq (Regex.Star true Regex.space) (Regex.oneOf ":=>{"))))))))).

(** [trimmed.match(pattern)], read at index 1. *)
Definition classMatch (trimmed : string) : option string :=
  Regex.exec classPattern trimmed ≫= Regex.group 1.

Definition methodMatch (trimmed : string) : option string :=
  Regex.exec methodPattern trimmed ≫= Regex.group 1.

(** The pattern of [buildDependencyGraph]: [from], white space, a quote,
    the shortest non-empty text up to the next quote. *)
Definition quoteChars : string :=
  String "039"%char (String "034"%char EmptyString).

Definition fromPattern : Regex.Re :=
  Regex.Seq (Regex.lit "from")
  (Regex.Seq (Regex.plus true Regex.space)
  (Regex.Seq (Regex.oneOf quoteChars)
  (Regex.Seq (Regex.Group 1 (Regex.plus false Regex.dot))
             (Regex.oneOf quoteChars)))).

Definition importSpecifier (importStmt : string) : option string :=
  Regex.exec fromPattern importStmt ≫= Regex.group 1.

Definition scanClass (filePath : string) (index : nat) (trimmed : string)
           (indent : Z) (st : RegexScan) : RegexScan :=
  match classMatch trimmed with
  | Some name =>
    let currentClass := mkCodeElement TClass name filePath (index + 1) (index + 1) [] in
    mkRegexScan (sc_elements st ++ [currentClass])
                (Some (length (sc_elements st)))
                indent (sc_imports st) (sc_exports st)
  | None => st
  end.

Definition scanMethod (filePath : string) (index : nat) (trimmed : string)
           (indent : Z) (st : RegexScan) : RegexScan :=
  match methodMatch trimmed with
  | Some name =>
    if negb (Js.startsWith trimmed "//") && negb (Js.startsWith trimmed "*") then
      let method :=
        mkCodeElement (if Js.includes trimmed "async" then TAsyncFunction else TFunction)
                      name filePath (index + 1) (index + 1) [] in
      match sc_currentClass st with
      | Some c =>
          if sc_currentIndent st <? indent then
            mkRegexScan (alter (pushChild method) c (sc_elements st))
                        (Some c) (sc_currentIndent st)
                        (sc_imports st) (sc_exports st)
          else
            mkRegexScan (sc_elements st ++ [method]) None (sc_currentIndent st)
                        (sc_imports st) (sc_exports st)
      | None =>
          mkRegexScan (sc_elements st ++ [method]) None (sc_currentIndent st)
                      (sc_imports st) (sc_exports st)
      end
    else st
  | None => st
  end.

Definition scanStatements (trimmed : string) (st : RegexScan) : RegexScan :=
  let imports :=
  if Js.includes trimmed "import " || Js.includes trimmed "from "
  then sc_imports st ++ [trimmed] else sc_imports st in
  let exports :=
  if Js.startsWith trimmed "export "
  then sc_exports st ++ [trimmed] else sc_exports st in
  mkRegexScan (sc_elements st) (sc_currentClass st) (sc_currentIndent st)
            imports exports.

(** The callback of [lines.forEach((line, index) => ...)]. *)
Definition scanLine (filePath languageId : string) (st : RegexScan)
           (index : nat) (line : string) : RegexScan :=
  let trimmed := Js.trim line in
  let indent := Js.search_nonspace line in
  let st1 :=
  if bool_decide (languageId = "typescript")
     || bool_decide (languageId = "javascript")
  then scanMethod filePath index trimmed indent
         (scanClass filePath index trimmed indent st)
  else st in
  scanStatements trimmed st1.

Fixpoint scanLines (filePath languageId : string) (lines : list string)
         (index : nat) (st : RegexScan) : RegexScan :=
  match lines with
  | [] => st
  | line :: rest =>
    scanLines filePath languageId rest (S index)
              (scanLine filePath languageId st index line)
  end.

Definition analyzeFileRegex (filePath content languageId : string) : FileAnalysis :=
  let st := scanLines filePath languageId (Js.split "010" content) 0
                    (mkRegexScan [] None 0 [] []) in
  mkFileAnalysis filePath languageId (sc_elements st) (sc_imports st) (sc_exports st).

(** *** [analyzeFile]: grammar first, regex as the fallback *)

Section Host.

(** [parserReady]: [initialize] left a parser behind.  [languages]: the
    grammars it loaded.  [parse grammar content]: the tree, or [None] when
    parsing (or the walk over the tree) throws. *)
Variable parserReady : bool.
Variable languages : list string.
Variable parse : string -> string -> option SyntaxNode.

Definition langMap (languageId : string) : option string :=
  if bool_decide (languageId = "typescript") then Some "typescript"
  else if bool_decide (languageId = "typescriptreact") then Some "tsx"
  else if bool_decide (languageId = "javascript") then Some "javascript"
  else if bool_decide (languageId = "javascriptreact") then Some "jsx"
  else if bool_decide (languageId = "python") then Some "python"
  else None.

Definition getLanguage (languageId : string) : option string :=
  match langMap languageId with
  | Some mappedLang =>
    if bool_decide (mappedLang ∈ languages) then Some mappedLang else None
  | None => None
  end.

(** The tree of the grammar path, when that path is taken to its end. *)
Definition grammarTree (content languageId : string) : option SyntaxNode :=
  if parserReady then
  match getLanguage languageId with
  | Some language => parse language content
  | None => None
  end
  else None.

Definition analyzeFile (filePath content languageId : string)
  : option FileAnalysis :=
  match grammarTree content languageId with
  | Some rootNode =>
    Some (mkFileAnalysis filePath languageId
            (extractElements rootNode filePath content)
            (extractImports rootNode content)
            (extractExports rootNode content))
  | None => Some (analyzeFileRegex filePath content languageId)
  end.

(** *** Discovery and prioritisation ([analyzeProject], [prioritizeFiles]) *)

(** [findFiles include exclude maxResults]: what
    [vscode.workspace.findFiles] returns for an include pattern, an
    exclude glob and a cap, as workspace-relative paths in enumeration
    order; [None] is an [undefined] cap.  [openTextDocument path]: the text
    and the language id of the file, or [None] when opening it throws. *)
Variable findFiles : string -> string -> option nat -> list string.
Variable openTextDocument : string -> option (string * string).

(** The include pattern, built from the configured file types. *)
Definition includePattern (includeFileTypes : list string) : string :=
  "**/*{" +:+ Js.join "," includeFileTypes +:+ "}".

Definition excludePatterns : list string :=
  ["**/node_modules/**";
   "**/dist/**";
   "**/build/**";
   "**/out/**";
   "**/.next/**";
   "**/coverage/**";
   "**/__tests__/**";
   "**/__mocks__/**";
   "**/*.test.*";
   "**/*.spec.*";
   "**/*.min.*";
   "**/*.d.ts";
   "**/.git/**";
   "**/.vscode/**";
   "**/.idea/**"].

(** The exclude glob handed to the editor: one group of all the patterns. *)
Definition excludeGlob : string :=
  "{" +:+ Js.join "," excludePatterns +:+ "}".

(** The second filter pass, on the lower-cased relative path. *)
Definition slippedThrough (uri : string) : bool :=
  let relativePath := Js.toLowerCase uri in
  Js.includes relativePath ".test."
  || Js.includes relativePath ".spec."
  || Js.includes relativePath "test/"
  || Js.includes relativePath "tests/"
  || Js.includes relativePath "__test__"
  || Js.includes relativePath ".config."
  || Js.includes relativePath "config/"
  || Js.includes relativePath ".generated."
  || Js.includes relativePath ".min.".

Definition priorityScore (uri : string) : Z :=
  let relativePath := Js.toLowerCase uri in
  let s1 := if Js.includes relativePath "index" || Js.includes relativePath "main"
             || Js.includes relativePath "app" then 100 else 0 in
  let s2 := if Js.includes relativePath "src/" || Js.includes relativePath "lib/"
          then s1 + 50 else s1 in
  let s3 := if Js.includes relativePath "test" || Js.includes relativePath "spec"
          then s2 - 50 else s2 in
  let depth := Z.of_nat (length (Js.split "/" relativePath)) in
  let s4 := s3 - depth * 2 in
  let s5 := if Js.includes relativePath "config" || Js.includes relativePath "webpack"
          then s4 - 30 else s4 in
  if Js.includes relativePath "type" || Js.includes relativePath "interface"
  then s5 + 10 else s5.

Definition prioritizeFiles (files : list string) : list string :=
  snd <$> Js.sortDescending fst (map (fun uri => (priorityScore uri, uri)) files).

Definition searchLimit (maxFiles : nat) : option nat :=
  if (maxFiles =? 0)%nat then None else Some (maxFiles * 3)%nat.

(** What the editor is asked for. *)
Definition foundFiles (maxFiles : nat) (includeFileTypes : list string)
  : list string :=
  findFiles (includePattern includeFileTypes) excludeGlob (searchLimit maxFiles).

(** The files [analyzeProject] goes on to open: found, cleaned, ordered and
    cut to [maxFiles] unless that is 0. *)
Definition filesToAnalyze (maxFiles : nat) (includeFileTypes : list string)
  : list string :=
  let foundFiles := foundFiles maxFiles includeFileTypes in
  let cleanedFiles := filter (fun uri => slippedThrough uri = false) foundFiles in
  let prioritizedFiles := prioritizeFiles cleanedFiles in
  if (maxFiles =? 0)%nat then prioritizedFiles
  else Js.slice0 (Z.of_nat maxFiles) prioritizedFiles.

Definition isEntryPoint (relativePath : string) : bool :=
  let fileName := Js.toLowerCase relativePath in
  Js.includes fileName "index" || Js.includes fileName "main"
  || Js.includes fileName "app".

(** One round of the loop over [filesToAnalyze]: a file that cannot be
    opened is skipped. *)
Definition analyzeOne (fileUri : string) : option FileAnalysis :=
  match openTextDocument fileUri with
  | Some (text, languageId) => analyzeFile fileUri text languageId
  | None => None
  end.

Definition buildDependencyGraph (files : list FileAnalysis)
  : gmap string (list string) :=
  foldl (fun graph file =>
         <[fa_file file := omap importSpecifier (fa_imports file)]> graph)
      ∅ files.

(** [analyzeProject]; [maxFiles] and [includeFileTypes] are the two
    settings it reads from the configuration. *)
Definition analyzeProject (rootPath : string) (maxFiles : nat)
           (includeFileTypes : list string) : ProjectStructure :=
  let files := omap analyzeOne (filesToAnalyze maxFiles includeFileTypes) in
  mkProjectStructure rootPath files
                   (filter (fun p => isEntryPoint p = true) (fa_file <$> files))
                   (buildDependencyGraph files).

End Host.

(** *** [initialize] *)

(** How the start of the parser runtime ends ([await Parser.init], then
    [new Parser()]): both succeed; one of them throws into the [catch] of
    [initialize]; or the promise of [Parser.init] never settles, as it does
    when the runtime's wasm file is missing. *)
Inductive Start :=
  | Started
  | Threw
  | Pending.

(** What [initialize] meets in the folder of the extension: how the parser
    runtime starts, and whether each of the three grammar files loads (a
    load resolves or rejects). *)
Record Runtime := mkRuntime {
  rt_start : Start;
  rt_typescript : bool;
  rt_javascript : bool;
  rt_python : bool
}.

(** The parser runtime started. *)
Definition rt_parser (rt : Runtime) : bool :=
  match rt_start rt with
  | Started => true
  | Threw | Pending => false
  end.

(** The fields of the analyzer that [initialize] writes: whether [parser]
    is set, the keys of [languages], and the [initialized] flag. *)
Record AnalyzerState := mkAnalyzerState {
  as_parser : bool;
  as_languages : list string;
  as_initialized : bool
}.

(** The analyzer as its constructor leaves it. *)
Definition freshAnalyzer : AnalyzerState := mkAnalyzerState false [] false.

(** The three guarded loads; a grammar that fails to load is skipped. *)
Definition loadGrammars (rt : Runtime) (languages : list string) : list string :=
  let l1 := if rt_typescript rt then languages ++ ["typescript"; "tsx"] else languages in
  let l2 := if rt_javascript rt then l1 ++ ["javascript"; "jsx"] else l1 in
  if rt_python rt then l2 ++ ["python"] else l2.

(** [initialize], as the fields it leaves behind: nothing changes when the
    analyzer is already initialized; a start that throws is caught and
    still marks the analyzer initialized; a start that never settles
    leaves the call suspended at its first [await], before any write. *)
Definition initialize (rt : Runtime) (st : AnalyzerState) : AnalyzerState :=
  if as_initialized st then st
  else match rt_start rt with
       | Started => mkAnalyzerState true (loadGrammars rt (as_languages st)) true
       | Threw => mkAnalyzerState (as_parser st) (as_languages st) true
       | Pending => st
       end.

(** Whether the promise [initialize] returns settles. *)
Definition initializeSettles (rt : Runtime) (st : AnalyzerState) : bool :=
  as_initialized st
  || match rt_start rt with
     | Started | Threw => true
     | Pending => false
     end.

(** [analyzeFile] as a method of the analyzer: it awaits [initialize] first
    when that has not happened, then analyses with what the analyzer
    holds.  The answer is [None] when the call never settles, and
    otherwise what the method returns. *)
Definition analyzeFileIn (rt : Runtime) (parse : string -> string -> option SyntaxNode)
           (st : AnalyzerState) (filePath content languageId : string)
  : AnalyzerState * option (option FileAnalysis) :=
  let st' := if as_initialized st then st else initialize rt st in
  (st',
   if initializeSettles rt st
   then Some (analyzeFile (as_parser st') (as_languages st') parse
                          filePath content languageId)
   else None).

(** *** Vocabulary of the analyzer's specification *)

(** Every node of the tree spans rows in order. *)
Fixpoint rowsOrdered (node : SyntaxNode) : bool :=
  (nd_startRow node <=? nd_endRow node)%nat
  && forallb rowsOrdered (nd_children node).

(** A node whose element is a class: its descendants are walked with a
    parent. *)
Definition isClassNode (filePath content : string) (node : SyntaxNode) : bool :=
  match nodeToElement filePath content node with
  | Some element => bool_decide (el_type element = TClass)
  | None => false
  end.

(** The nodes of the tree in pre-order, each with the type of its parent
    and whether some proper ancestor is a class node. *)
Fixpoint nodesInContext (filePath content : string) (parentType : option string)
         (underClass : bool) (node : SyntaxNode) {struct node}
  : list (option string * bool * SyntaxNode) :=
  (parentType, underClass, node)
  :: flat_map (nodesInContext filePath content (Some (nd_type node))
               (underClass || isClassNode filePath content node))
            (nd_children node).

(** A method node under a class is attached to the class; every other node
    with an element is promoted to the top level. *)
Definition attached (ctx : option string * bool * SyntaxNode) : bool :=
  let '(parentType, underClass, node) := ctx in
  underClass && isMethodNode parentType node.

Definition topLevelOf (filePath content : string)
           (ctx : option string * bool * SyntaxNode) : option CodeElement :=
  if attached ctx then None else nodeToElement filePath content (snd ctx).

Definition nestedOf (filePath content : string)
           (ctx : option string * bool * SyntaxNode) : option CodeElement :=
  if attached ctx then nodeToElement filePath content (snd ctx) else None.

Definition withoutChildren (element : CodeElement) : CodeElement :=
  setChildren element [].

(** An element and its children span lines in order; children have no
    children of their own. *)
Definition linesOrdered (e : CodeElement) : Prop :=
  (el_line e <= el_endLine e)%nat
  /\ Forall (fun m => (el_line m <= el_endLine m)%nat /\ el_children m = [])
          (el_children e).

(** An element of the fallback: 1-based, ending on the line it starts on,
    and so are its children. *)
Definition fallbackShape (e : CodeElement) : Prop :=
  (1 <= el_line e)%nat /\ el_endLine e = el_line e
  /\ Forall (fun m => (1 <= el_line m)%nat /\ el_endLine m = el_line m
                    /\ el_children m = [])
          (el_children e).

(** What the grammar path attaches to a class: an element of the file, on
    a 1-based line, that is a method or a function and has no children. *)
Definition attachedShape (filePath : string) (m : CodeElement) : Prop :=
  el_file m = filePath /\ (1 <= el_line m)%nat
  /\ (el_type m = TMethod \/ el_type m = TFunction \/ el_type m = TAsyncFunction)
  /\ el_children m = [].

(** What the grammar path puts at the top level: only a class has
    children, and they are attached elements. *)
Definition promotedShape (filePath : string) (e : CodeElement) : Prop :=
  el_file e = filePath /\ (1 <= el_line e)%nat /\ el_type e <> TImport
  /\ (el_type e <> TClass -> el_children e = [])
  /\ Forall (attachedShape filePath) (el_children e).

(** The noise the discovery keeps out by its exclude glob: the files below
    a directory of build output, of dependencies, of tests, of coverage,
    of the version control or of an editor, and the files whose name marks
    a test, a minified file or a type declaration. *)
Definition noiseDirectories : list string :=
  ["node_modules"; "dist"; "build"; "out"; ".next"; "coverage";
   "__tests__"; "__mocks__"; ".git"; ".vscode"; ".idea"].

Definition noiseMarkers : list string := [".test."; ".spec."; ".min."].

Definition noiseFile (path : string) : Prop :=
  (exists directory,
      directory ∈ noiseDirectories /\ directory ∈ Js.split "/" path)
  \/ (exists name,
        last (Js.split "/" path) = Some name
        /\ ((exists marker before after,
                marker ∈ noiseMarkers /\ name = before +:+ marker +:+ after)
            \/ exists before, name = before +:+ ".d.ts")).

(** The two tests of the fallback on a trimmed line. *)
Definition mentionsImport (trimmed : string) : Prop :=
  Js.includes trimmed "import " || Js.includes trimmed "from " = true.

Definition startsWithExport (trimmed : string) : Prop :=
  Js.startsWith trimmed "export " = true.

Global Instance mentionsImport_dec trimmed : Decision (mentionsImport trimmed).
Proof. unfold mentionsImport. apply _. Defined.

Global Instance startsWithExport_dec trimmed : Decision (startsWithExport trimmed).
Proof. unfold startsWithExport. apply _. Defined.

(** An element of the fallback after [bound] lines: of the file, on one of
    the lines read so far, a class or a function; only a class has
    children, and they are functions on lines from the class line on, in
    line order. *)
Definition functionKind (e : CodeElement) : Prop :=
  el_type e = TFunction \/ el_type e = TAsyncFunction.

(** The element was read off one line of the text: its line number is the
    position of that line counted from 1, it ends on that line, and the
    class pattern or the method pattern finds its name on that line once
    trimmed. *)
Definition foundOnLine (lines : list string) (e : CodeElement) : Prop :=
  exists index line,
    lines !! index = Some line
    /\ el_line e = (index + 1)%nat
    /\ el_endLine e = (index + 1)%nat
    /\ ((el_type e = TClass /\ classMatch (Js.trim line) = Some (el_name e))
        \/ (functionKind e /\ methodMatch (Js.trim line) = Some (el_name e))).

Definition foundOnLines (lines : list string) (e : CodeElement) : Prop :=
  foundOnLine lines e /\ Forall (foundOnLine lines) (el_children e).

Definition scanned (filePath : string) (bound : nat) (e : CodeElement) : Prop :=
  el_file e = filePath
  /\ (el_line e <= bound)%nat
  /\ (el_type e = TClass \/ functionKind e)
  /\ (el_type e <> TClass -> el_children e = [])
  /\ Forall (fun m => el_file m = filePath
                      /\ (el_line e <= el_line m <= bound)%nat
                      /\ functionKind m)
            (el_children e)
  /\ StronglySorted le (el_line <$> el_children e).

(** The state of the scan after [bound] lines: the elements are in line
    order, and [currentClass], when set, points at a class. *)
Definition scanInvariant (filePath : string) (bound : nat) (st : RegexScan) : Prop :=
  Forall (scanned filePath bound) (sc_elements st)
  /\ StronglySorted le (el_line <$> sc_elements st)
  /\ (forall c e, sc_currentClass st = Some c -> sc_elements st !! c = Some e ->
                  el_type e = TClass).

(** [name] is a non-empty run of word characters that occurs in the text. *)
Definition wordIn (trimmed name : string) : Prop :=
  name <> EmptyString /\ Regex.everyChar Regex.wordChar name = true
  /\ exists pre post, trimmed = pre +:+ name +:+ post.

(** The element points at a line of the text, and its name is a word of
    that line. *)
Definition namedOnLine (lines : list string) (e : CodeElement) : Prop :=
  (1 <= el_line e)%nat
  /\ exists line, lines !! (el_line e - 1)%nat = Some line
                  /\ wordIn (Js.trim line) (el_name e).

Definition namedOnLines (lines : list string) (e : CodeElement) : Prop :=
  namedOnLine lines e /\ Forall (namedOnLine lines) (el_children e).

(** A module specifier as the dependency pattern finds it: not empty, on
    one line, between two quotes after [from] and white space. *)
Definition isQuote (a : ascii) : bool :=
  bool_decide (a ∈ list_ascii_of_string quoteChars).

Definition onOneLine (a : ascii) : bool :=
  negb (bool_decide (a = "010"%char) || bool_decide (a = "013"%char)).

Definition quotedAfterFrom (importStmt specifier : string) : Prop :=
  specifier <> EmptyString
  /\ Regex.everyChar onOneLine specifier = true
  /\ exists pre gap q1 q2 post,
       importStmt
       = pre +:+ "from" +:+ gap +:+ String q1 (specifier +:+ String q2 post)
       /\ gap <> EmptyString /\ Regex.everyChar Js.isWhiteSpace gap = true
       /\ isQuote q1 = true /\ isQuote q2 = true.

End TreeSitterAnalyzer.

(** ** The validator of [tour-generator.ts] *)

Module TourGenerator.

Definition baseNameLower (path : string) : string :=
  default EmptyString (Js.toLowerCase <$> Js.pop (Js.split "/" path)).

Fixpoint findSimilarFile_loop (targetName : string) (files : list FileAnalysis)
  : option string :=
  match files with
  | [] => None
  | file :: rest =>
      let fileName := baseNameLower (fa_file file) in
      if decide (fileName = targetName) then Some (fa_file file)
      else findSimilarFile_loop targetName rest
  end.

Definition findSimilarFile (targetFile : string) (files : list FileAnalysis)
  : option string :=
  let targetName := baseNameLower targetFile in
  findSimilarFile_loop targetName files.

(** [structure.files.some(f => f.file === file)]; [find] with the same
    predicate is defined exactly when [some] is true. *)
Definition fileExists (structure : ProjectStructure) (file : string) : bool :=
  existsb (fun f => bool_decide (fa_file f = file)) (ps_files structure).

Definition isWelcomeStep (i : nat) (step : GeneratedTourStep) : bool :=
  (i =? 0)%nat &&
  match gs_title step with
  | Some t => Js.includes t "Welcome"
  | None => false
  end.

Definition setFile (step : GeneratedTourStep) (f : string) : GeneratedTourStep :=
  mkGeneratedTourStep (gs_title step) f (gs_line step)
                      (gs_description step) (gs_selection step).

Definition setLine (step : GeneratedTourStep) (l : Z) : GeneratedTourStep :=
  mkGeneratedTourStep (gs_title step) (gs_file step) (Some l)
                      (gs_description step) (gs_selection step).

(** First half of the loop body: the file check.  [None] is [continue]. *)
Definition checkFile (structure : ProjectStructure) (i : nat)
           (step : GeneratedTourStep) : option GeneratedTourStep :=
  if negb (isWelcomeStep i step) then
    if fileExists structure (gs_file step) then Some step
    else match findSimilarFile (gs_file step) (ps_files structure) with
         | Some similarFile =>
             if Js.truthyString similarFile then Some (setFile step similarFile)
             else None
         | None => None
         end
  else Some step.

(** Second half: the line check, on the step as the file check left it. *)
Definition checkLine (structure : ProjectStructure)
           (step : GeneratedTourStep) : GeneratedTourStep :=
  match gs_line step with
  | Some l =>
      if Js.truthyNumber l then
        if fileExists structure (gs_file step) then
          if l <? 1 then setLine step 1 else step
        else step
      else step
  | None => step
  end.

Definition toCodeTourStep (step : GeneratedTourStep) : CodeTourStep :=
  {| ts_title := gs_title step;
     ts_file := gs_file step;
     ts_description := gs_description step;
     ts_line := match gs_line step with
                | Some l => if Js.truthyNumber l then Some l else None
                | None => None
                end;
     ts_selection := gs_selection step |}.

(** One iteration of the loop: the emitted step, or [None] when the
    iteration ends in [continue]. *)
Definition validateStep (structure : ProjectStructure) (i : nat)
           (step : GeneratedTourStep) : option CodeTourStep :=
  step1 ← checkFile structure i step;
  Some (toCodeTourStep (checkLine structure step1)).

Definition maxStepsOf (options : TourGenerationOptions) : Z :=
  match opt_maxSteps options with
  | Some m => if Js.truthyNumber m then m else 20
  | None => 20
  end.

(** [for (let i = 0; i < bound; i++)], with [remaining = bound - i].
    Reading [steps[i]] past the end gives [undefined], whose [title] read
    throws into the [catch] of the body: nothing is pushed. *)
Fixpoint validate_loop (steps : list GeneratedTourStep)
         (structure : ProjectStructure) (i remaining : nat)
         (validatedSteps : list CodeTourStep) : list CodeTourStep :=
  match remaining with
  | O => validatedSteps
  | S remaining' =>
      match steps !! i with
      | Some step =>
          match validateStep structure i step with
          | Some tourStep =>
              validate_loop steps structure (S i) remaining'
                            (validatedSteps ++ [tourStep])
          | None => validate_loop steps structure (S i) remaining' validatedSteps
          end
      | None => validate_loop steps structure (S i) remaining' validatedSteps
      end
  end.

Definition processedCount (steps : list GeneratedTourStep)
           (options : TourGenerationOptions) : nat :=
  length (Js.slice0 (maxStepsOf options) steps).

Definition validateAndRefineSteps (steps : list GeneratedTourStep)
           (structure : ProjectStructure) (options : TourGenerationOptions)
  : list CodeTourStep :=
  validate_loop steps structure 0 (processedCount steps options) [].

(** *** [createTour]: the name of the tour file *)

(** [/\s+/g] and [/[^\w\-]/g]. *)
Definition whitespaceRun : Regex.Re := Regex.plus true Regex.space.

Definition notNameChar : Regex.Re :=
  Regex.Chr (fun b => negb (Regex.wordChar b || bool_decide (b = "-"%char))).

(** The [fileName] of [createTour]: the title in lower case, every run of
    white space turned into one hyphen, and whatever is then neither a word
    character nor a hyphen removed. *)
Definition tourFileName (tourTitle : string) : string :=
  Regex.replaceAll notNameChar EmptyString
    (Regex.replaceAll whitespaceRun "-" (Js.toLowerCase tourTitle)).

(** *** Vocabulary of the validator's specification *)

(** A lower-case letter, a digit, an underscore or a hyphen. *)
Definition fileNameChar (a : ascii) : bool :=
  let n := nat_of_ascii a in
  ((97 <=? n) && (n <=? 122))%nat || ((48 <=? n) && (n <=? 57))%nat
  || (n =? 95)%nat || (n =? 45)%nat.

(** The input step with its five fields copied. *)
Definition copied (st : GeneratedTourStep) : CodeTourStep :=
  mkCodeTourStep (gs_title st) (gs_file st) (gs_description st)
                 (gs_line st) (gs_selection st).

(** What iteration [k] of the loop pushes, if anything. *)
Definition stepAt (steps : list GeneratedTourStep) (structure : ProjectStructure)
           (k : nat) : option CodeTourStep :=
  steps !! k ≫= validateStep structure k.

(** The title is present and contains [marker]. *)
Definition titleContains (step : GeneratedTourStep) (marker : string) : Prop :=
  exists t pre post, gs_title step = Some t /\ t = pre +:+ marker +:+ post.

(** A step is exempt from the file check at index [i] when it is emitted
    with its [file] untouched whatever the analysed file set is. *)
Definition exemptFromFileCheck (i : nat) (step : GeneratedTourStep) : Prop :=
  forall structure, exists t,
    validateStep structure i step = Some t /\ ts_file t = gs_file step.

(** [base] is the last segment of [path]: it holds no slash, and it is the
    whole path or what follows the last slash of the path. *)
Definition lastSegment (path base : string) : Prop :=
  Js.includes base "/" = false
  /\ (path = base \/ exists dir, path = dir +:+ "/" +:+ base).

(** Two paths have the same last segment up to letter case. *)
Definition sameBaseName (a b : string) : Prop :=
  exists x y,
    lastSegment a x /\ lastSegment b y /\ Js.toLowerCase x = Js.toLowerCase y.

(** [p] is the path of the first known file whose base name matches. *)
Definition firstBaseNameMatch (target : string) (files : list FileAnalysis)
           (p : string) : Prop :=
  exists before f after,
    files = before ++ f :: after
    /\ fa_file f = p
    /\ sameBaseName p target
    /\ Forall (fun g => ~ sameBaseName (fa_file g) target) before.

End TourGenerator.

(** ** The batch generator of [batch-generator.ts] *)

Module BatchTourGenerator.

Definition BATCH_SIZE : nat := 4.
Definition CONCURRENT_BATCHES : nat := 3.
Definition TIMEOUT_MS : Z := 45000.
Definition TARGET_STEPS : nat := 25.

(** [Math.ceil(a / b)] on two counts, for [b] other than 0. *)
Definition ceilDiv (a b : nat) : nat := ((a + (b - 1)) / b)%nat.

(** The number of steps a batch is asked for; dividing by a batch count of
    0 gives [Infinity]. *)
Inductive Quota :=
  | Steps (n : nat)
  | Unbounded.

(** [stepsPerBatch] of [generateBatchSteps]. *)
Definition stepsPerBatch (structure : ProjectStructure) : Quota :=
  let batchCount := ceilDiv (length (ps_files structure)) BATCH_SIZE in
  if (batchCount =? 0)%nat then Unbounded
  else Steps (ceilDiv TARGET_STEPS batchCount).

(** *** [parseStepsFromResponse] *)

(** The pattern of the parser: an opening bracket, any characters at all,
    as many as possible, and a closing bracket. *)
Definition arrayPattern : Regex.Re :=
  Regex.Seq (Regex.chr "[") (Regex.Seq (Regex.Star true Regex.any) (Regex.chr "]")).

(** [response.match(arrayPattern)], read at index 0. *)
Definition matchArray (response : string) : option string :=
  Regex.matched <$> Regex.exec arrayPattern response.

(** What [JSON.parse] returns, read at the type the source gives it: an
    array of steps, or any other value. *)
Inductive Parsed :=
  | ParsedArray (steps : list GeneratedTourStep)
  | ParsedOther.

(** The three [throw]s inside the [try] of [parseStepsFromResponse]. *)
Inductive ParseFailure :=
  | NoArrayFound
  | SyntaxError
  | NotAnArray.

(** The outcome of [llmService.generateCompletion]: it throws an [Error]
    (no credential, transport or service failure) or returns the text. *)
Inductive Completion :=
  | Rejected (message : string)
  | Resolved (content : string).

(** The outcome of the [Promise.race] of a batch request against its timer:
    which of the two settles first. *)
Inductive Race :=
  | ServiceFirst (completion : Completion)
  | TimerFirst.

(** *** [cleanReadmeContent] *)

(** A badge image: an exclamation mark and a bracketed label, then a
    parenthesised target that mentions [badge]; or one whose target starts
    with the address of the shields service.  Both ignore case. *)
Definition badgePattern : Regex.Re :=
  Regex.Seq (Regex.lit "![")
  (Regex.Seq (Regex.Star false Regex.dot)
  (Regex.Seq (Regex.lit "](")
  (Regex.Seq (Regex.Star false Regex.dot)
  (Regex.Seq (Regex.litI "badge")
  (Regex.Seq (Regex.Star false Regex.dot) (Regex.chr ")")))))).

Definition shieldsPattern : Regex.Re :=
  Regex.Seq (Regex.lit "![")
  (Regex.Seq (Regex.Star false Regex.dot)
  (Regex.Seq (Regex.lit "](") (Regex.litI "https://img.shields.io"))).

(** A call to action: one of four verbs as a word, later one of three
    adverbs as a word. *)
Definition promoPattern : Regex.Re :=
  Regex.Seq Regex.WordBoundary
  (Regex.Seq (Regex.Group 1
                (Regex.Alt (Regex.litI "try")
                (Regex.Alt (Regex.litI "get")
                (Regex.Alt (Regex.litI "download") (Regex.litI "available")))))
  (Regex.Seq Regex.WordBoundary
  (Regex.Seq (Regex.Star true Regex.dot)
  (Regex.Seq Regex.WordBoundary
  (Regex.Seq (Regex.Group 2
                (Regex.Alt (Regex.litI "free")
                (Regex.Alt (Regex.litI "now") (Regex.litI "today"))))
             Regex.WordBoundary))))).

(** A heading of level one to three. *)
Definition headingPattern : Regex.Re :=
  Regex.Seq Regex.Bol
  (Regex.Seq (Regex.chr "#")
  (Regex.Seq (Regex.opt (Regex.chr "#"))
  (Regex.Seq (Regex.opt (Regex.chr "#")) Regex.space))).

Record CleanState := mkCleanState {
  cs_cleaned : list string;
  cs_skipSection : bool
}.

(** One round of the loop over the lines; the first three tests end the
    round with [continue]. *)
Definition cleanLine (st : CleanState) (originalLine : string) : CleanState :=
  let line := Js.toLowerCase originalLine in
  if Regex.test badgePattern originalLine || Regex.test shieldsPattern originalLine
  then st
  else if Js.includes line "sponsor"
        || Js.includes line "### sponsors"
        || Js.includes line "## sponsors"
        || Js.includes line "### thank"
  then mkCleanState (cs_cleaned st) true
  else if (Js.includes line "warp" && Js.includes line "built for")
        || (Js.includes line "tuple" && Js.includes line "premier")
        || (Js.includes line "available for" && Js.includes line "macos")
        || Regex.test promoPattern line
  then st
  else
  let skipSection :=
    if cs_skipSection st && Regex.test headingPattern originalLine
    then false else cs_skipSection st in
  if negb skipSection
  then mkCleanState (cs_cleaned st ++ [originalLine]) skipSection
  else mkCleanState (cs_cleaned st) skipSection.

Definition cleanReadmeContent (readme : string) : string :=
  let lines := Js.split "010" readme in
  let st := foldl cleanLine (mkCleanState [] false) lines in
  Js.substring 0 5000 (Js.join Js.nl (cs_cleaned st)).

Section Generation.

(** [JSON_parse text]: the parsed value, or [None] when [JSON.parse] throws. *)
Variable JSON_parse : string -> option Parsed.

(** The body of the [try]. *)
Definition parseSteps_try (response : string) : ParseFailure + list GeneratedTourStep :=
  match matchArray response with
  | None => inl NoArrayFound
  | Some jsonMatch =>
    match JSON_parse jsonMatch with
    | None => inl SyntaxError
    | Some (ParsedArray steps) => inr steps
    | Some ParsedOther => inl NotAnArray
    end
  end.

Definition parseStepsFromResponse (response : string) : list GeneratedTourStep :=
  match parseSteps_try response with
  | inr steps => steps
  | inl _ => []
  end.

(** *** Batches *)

Definition isNoiseFile (file : FileAnalysis) : bool :=
  let fileName := Js.toLowerCase (fa_file file) in
  Js.includes fileName ".test."
  || Js.includes fileName ".spec."
  || Js.includes fileName "__tests__"
  || Js.includes fileName "test/"
  || Js.includes fileName "tests/"
  || Js.includes fileName ".config."
  || Js.includes fileName "config/"
  || Js.includes fileName ".generated."
  || Js.includes fileName "node_modules"
  || Js.includes fileName "dist/"
  || Js.includes fileName "build/"
  || Js.includes fileName ".min."
  || Js.includes fileName ".d.ts".

Definition isImportantFile (file : FileAnalysis) : bool :=
  if isNoiseFile file then false
  else if (length (fa_elements file) =? 0)%nat then false
  else true.

Definition filterImportantFiles (files : list FileAnalysis) : list FileAnalysis :=
  filter (fun file => isImportantFile file = true) files.

Definition getFileImportance (file : FileAnalysis) : Z :=
  let fileName := Js.toLowerCase (fa_file file) in
  let s1 := if Js.includes fileName "index" || Js.includes fileName "main"
             || Js.includes fileName "app" then 100 else 0 in
  let s2 := if Js.includes fileName "src/" || Js.includes fileName "lib/"
          then s1 + 50 else s1 in
  let s3 := s2 + Z.of_nat (length (fa_elements file)) * 5 in
  if Js.includes fileName "test" || Js.includes fileName "spec"
  then s3 - 50 else s3.

(** [for (let i = 0; i < sortedFiles.length; i += BATCH_SIZE)]; the fuel is
    a bound on the number of rounds. *)
Fixpoint createFileBatches_loop (fuel : nat) (sortedFiles : list FileAnalysis)
         (i : nat) (batches : list (list FileAnalysis)) : list (list FileAnalysis) :=
  match fuel with
  | O => batches
  | S fuel' =>
    if (i <? length sortedFiles)%nat then
      createFileBatches_loop fuel' sortedFiles (i + BATCH_SIZE)
        (batches ++ [take BATCH_SIZE (drop i sortedFiles)])
    else batches
  end.

Definition createFileBatches (files : list FileAnalysis) : list (list FileAnalysis) :=
  let sortedFiles := Js.sortDescending getFileImportance files in
  createFileBatches_loop (length sortedFiles) sortedFiles 0 [].

(** [generateBatchSteps]: the completion, parsed; any failure is caught and
    gives the empty list. *)
Definition generateBatchSteps (completion : Completion) : list GeneratedTourStep :=
  match completion with
  | Resolved content => parseStepsFromResponse content
  | Rejected _ => []
  end.

(** [generateBatchWithTimeout]: the promise resolves with the steps when
    the request settles first, and rejects when the timer does. *)
Definition generateBatchWithTimeout (race : Race) : string + list GeneratedTourStep :=
  match race with
  | ServiceFirst completion => inr (generateBatchSteps completion)
  | TimerFirst => inl "Timeout after 45s"
  end.

(** The generation service as the run meets it: for each batch, by number
    and content, how its race ends. *)
Variable service : nat -> list FileAnalysis -> Race.

(** The callback of [batchGroup.map]: a rejection is caught and replaced by
    the empty array. *)
Definition runBatch (batchNum : nat) (batch : list FileAnalysis)
  : list GeneratedTourStep :=
  match generateBatchWithTimeout (service batchNum batch) with
  | inr batchSteps => batchSteps
  | inl _ => []
  end.

(** [for (let groupStart = 0; groupStart < batches.length;
         groupStart += CONCURRENT_BATCHES)]: the results of a group are
    appended in the order of the group once all of them are in. *)
Fixpoint group_loop (fuel : nat) (batches : list (list FileAnalysis))
         (groupStart : nat) (allSteps : list GeneratedTourStep)
  : list GeneratedTourStep :=
  match fuel with
  | O => allSteps
  | S fuel' =>
    if (groupStart <? length batches)%nat then
      let batchGroup := take CONCURRENT_BATCHES (drop groupStart batches) in
      let groupResults :=
        imap (fun idx batch => runBatch (groupStart + idx + 1) batch) batchGroup in
      group_loop fuel' batches (groupStart + CONCURRENT_BATCHES)
                 (allSteps ++ concat groupResults)
    else allSteps
  end.

(** *** [generateWelcomePage] *)

(** What the editor offers: the workspace name, and, when a workspace
    folder is open, the text of its README and the description of its
    manifest ([None] when the file cannot be read or parsed). *)
Record WorkspaceFolder := mkWorkspaceFolder {
  wf_readme : option string;
  wf_manifestDescription : option string
}.

Record Workspace := mkWorkspace {
  ws_name : option string;
  ws_folder : option WorkspaceFolder
}.

Definition orElse (s fallback : string) : string :=
  if Js.truthyString s then s else fallback.

Definition workspaceNameOf (ws : Workspace) : string :=
  orElse (default EmptyString (ws_name ws)) "this project".

Definition readmeOf (ws : Workspace) : option string :=
  ws_folder ws ≫= wf_readme.

Definition readmeContentOf (ws : Workspace) : string :=
  match readmeOf ws with
  | Some fullReadme => cleanReadmeContent fullReadme
  | None => EmptyString
  end.

Definition packageDescriptionOf (ws : Workspace) : string :=
  default EmptyString (ws_folder ws ≫= wf_manifestDescription).

Definition welcomeFileOf (structure : ProjectStructure) (ws : Workspace) : string :=
  match readmeOf ws with
  | Some _ => "README.md"
  | None =>
    orElse (default EmptyString (fa_file <$> head (ps_files structure))) "README.md"
  end.

Definition getKeyDirectories (files : list FileAnalysis) : list string :=
  take 6 (Js.uniq (omap (fun f =>
                         let parts := Js.split "/" (fa_file f) in
                         if (1 <? length parts)%nat then head parts else None)
                      files)).

Definition languagesOf (structure : ProjectStructure) : string :=
  Js.join ", " (Js.uniq (fa_language <$> ps_files structure)).

Definition entryPointsOf (structure : ProjectStructure) : string :=
  orElse (Js.join ", " (take 3 (ps_entryPoints structure))) "Not detected".

Definition purposeSection (packageDescription : string) : string :=
  if Js.truthyString packageDescription
  then "## 🎯 Purpose" +:+ Js.nl +:+ packageDescription +:+ Js.nl +:+ Js.nl
  else EmptyString.

Definition fallbackDescription (structure : ProjectStructure) (ws : Workspace)
  : string :=
  let workspaceName := workspaceNameOf ws in
  let readmeContent := readmeContentOf ws in
  let fileCount := Js.numberToString (length (ps_files structure)) in
  if Js.truthyString readmeContent && (100 <? String.length readmeContent)%nat then
  let readmeLines := take 40 (Js.split "010" readmeContent) in
  "# Welcome to " +:+ workspaceName +:+ Js.nl +:+ Js.nl
  +:+ purposeSection (packageDescriptionOf ws)
  +:+ Js.join Js.nl readmeLines +:+ Js.nl +:+ Js.nl
  +:+ "## 📊 Codebase Overview" +:+ Js.nl
  +:+ "- **Files**: " +:+ fileCount +:+ " analyzed" +:+ Js.nl
  +:+ "- **Languages**: " +:+ languagesOf structure +:+ Js.nl
  +:+ "- **Entry Points**: " +:+ entryPointsOf structure +:+ Js.nl +:+ Js.nl
  +:+ "## 📚 Tour Coverage" +:+ Js.nl
  +:+ "This tour explores the key components, architecture, and implementation details of this codebase."
  +:+ Js.nl
  else
  "# Welcome to " +:+ workspaceName +:+ Js.nl +:+ Js.nl
  +:+ purposeSection (packageDescriptionOf ws)
  +:+ "## 📊 Project Overview" +:+ Js.nl
  +:+ "- **Files Analyzed**: " +:+ fileCount +:+ Js.nl
  +:+ "- **Languages**: " +:+ languagesOf structure +:+ Js.nl
  +:+ "- **Entry Points**: " +:+ entryPointsOf structure +:+ Js.nl +:+ Js.nl
  +:+ "## 📂 Key Directories" +:+ Js.nl
  +:+ Js.join Js.nl
        ((fun d => "- `" +:+ d +:+ "/` - Main source directory")
           <$> getKeyDirectories (ps_files structure))
  +:+ Js.nl +:+ Js.nl +:+ "## 🎯 What You'll Learn" +:+ Js.nl
  +:+ "This tour will walk you through the codebase structure, key components, and how different parts work together."
  +:+ Js.nl.

Definition fallbackStep (structure : ProjectStructure) (ws : Workspace)
  : GeneratedTourStep :=
  mkGeneratedTourStep (Some ("🎉 Welcome to " +:+ workspaceNameOf ws))
                    (welcomeFileOf structure ws) (Some 1)
                    (fallbackDescription structure ws) None.

(** [steps[0].file = welcomeFile] when the returned file is empty or the
    generic default. *)
Definition withWelcomeFile (welcomeFile : string) (step : GeneratedTourStep)
  : GeneratedTourStep :=
  if negb (Js.truthyString (gs_file step))
   || bool_decide (gs_file step = "README.md")
  then TourGenerator.setFile step welcomeFile
  else step.

(** The body of the [try]: the thrown message, or the returned array. *)
Definition welcome_try (welcomeFile : string) (completion : Completion)
  : string + list GeneratedTourStep :=
  match completion with
  | Rejected message => inl message
  | Resolved content =>
    match parseStepsFromResponse content with
    | [] => inl "No steps generated"
    | step0 :: rest => inr (take 1 (withWelcomeFile welcomeFile step0 :: rest))
    end
  end.

Definition generateWelcomePage (structure : ProjectStructure) (ws : Workspace)
           (completion : Completion) : list GeneratedTourStep :=
  match welcome_try (welcomeFileOf structure ws) completion with
  | inr steps => steps
  | inl _ => [fallbackStep structure ws]
  end.

(** *** [generateTourInBatches] *)

Definition generateTourInBatches (structure : ProjectStructure) (ws : Workspace)
           (welcomeCompletion : Completion) : list GeneratedTourStep :=
  let importantFiles := filterImportantFiles (ps_files structure) in
  let welcomeSteps := generateWelcomePage structure ws welcomeCompletion in
  let allSteps := if (length welcomeSteps =? 0)%nat then [] else welcomeSteps in
  let batches := createFileBatches importantFiles in
  group_loop (length batches) batches 0 allSteps.

End Generation.

(** *** Vocabulary of the generator's specification *)

(** The suffix of the text that starts at its first opening bracket. *)
Fixpoint fromFirstOpen (s : string) : option string :=
  match s with
  | EmptyString => None
  | String c s' => if decide (c = "["%char) then Some s else fromFirstOpen s'
  end.

(** The longest prefix of the text that ends with a closing bracket. *)
Fixpoint upToLastClose (s : string) : option string :=
  match s with
  | EmptyString => None
  | String c s' =>
    match upToLastClose s' with
    | Some r => Some (String c r)
    | None => if decide (c = "]"%char) then Some (String c EmptyString) else None
    end
  end.

(** Modelled from the spec: the first top-level bracketed substring, found
    by bracket depth, that the wire-format sentence describes; the source
    has no such function. *)
Fixpoint balancedPrefix (depth : nat) (s : string) : option string :=
  match s with
  | EmptyString => None
  | String c s' =>
    if decide (c = "["%char) then String c <$> balancedPrefix (S depth) s'
    else if decide (c = "]"%char) then
      match depth with
      | O => None
      | S O => Some (String c EmptyString)
      | S depth' => String c <$> balancedPrefix depth' s'
      end
    else String c <$> balancedPrefix depth s'
  end.

Definition firstTopLevelArray (response : string) : option string :=
  fromFirstOpen response ≫= balancedPrefix 0.

(** The lines the loop of [cleanReadmeContent] keeps. *)
Definition keptLines (lines : list string) : list string :=
  cs_cleaned (foldl cleanLine (mkCleanState [] false) lines).

(** The three tests that end a round of that loop: a badge, a mention of
    sponsors (which also opens a skipped section), an advertisement. *)
Definition isBadgeLine (originalLine : string) : bool :=
  Regex.test badgePattern originalLine || Regex.test shieldsPattern originalLine.

Definition mentionsSponsor (originalLine : string) : bool :=
  let line := Js.toLowerCase originalLine in
  Js.includes line "sponsor"
  || Js.includes line "### sponsors"
  || Js.includes line "## sponsors"
  || Js.includes line "### thank".

Definition looksLikeAd (originalLine : string) : bool :=
  let line := Js.toLowerCase originalLine in
  (Js.includes line "warp" && Js.includes line "built for")
  || (Js.includes line "tuple" && Js.includes line "premier")
  || (Js.includes line "available for" && Js.includes line "macos")
  || Regex.test promoPattern line.

Definition dropsLine (originalLine : string) : bool :=
  isBadgeLine originalLine || mentionsSponsor originalLine
  || looksLikeAd originalLine.

Definition isHeading (originalLine : string) : bool :=
  Regex.test headingPattern originalLine.

(** What a batch contributes to the run. *)
Definition contribution (JSON_parse : string -> option Parsed) (race : Race)
  : list GeneratedTourStep :=
  match race with
  | ServiceFirst (Resolved content) => parseStepsFromResponse JSON_parse content
  | ServiceFirst (Rejected _) => []
  | TimerFirst => []
  end.

(** The three ways a batch fails: the timer wins, the request is rejected,
    or the response does not parse to an array. *)
Inductive batchFails (JSON_parse : string -> option Parsed) : Race -> Prop :=
  | fails_timeout : batchFails JSON_parse TimerFirst
  | fails_transport message : batchFails JSON_parse (ServiceFirst (Rejected message))
  | fails_malformed content failure :
    parseSteps_try JSON_parse content = inl failure ->
    batchFails JSON_parse (ServiceFirst (Resolved content)).

End BatchTourGenerator.

(** ** The generation service of [llm-service.ts] *)

Module LLMService.
Import BatchTourGenerator.

Record LLMConfig := mkLLMConfig {
  cfg_apiKey : string;
  cfg_apiUrl : string;
  cfg_model : string;
  cfg_provider : string
}.

Definition isConfigured (config : LLMConfig) : bool :=
  negb (bool_decide (Js.trim (cfg_apiKey config) = EmptyString)).

(** A thrown value as the handlers read it: [message], [code] and
    [response?.status].  [new Error(message)] has neither of the last two. *)
Record Thrown := mkThrown {
  th_message : string;
  th_code : option string;
  th_status : option nat
}.

Definition newError (message : string) : Thrown := mkThrown message None None.

(** The [error] object of a response body. *)
Record ErrorBody := mkErrorBody {
  eb_message : option string;
  eb_code : option string;
  eb_type : option string
}.

(** A response as [callOpenAI] reads it: the status, [data.error], and the
    [message.content] of each of [data.choices]. *)
Record Response := mkResponse {
  rs_status : nat;
  rs_error : option ErrorBody;
  rs_choices : option (list string)
}.

(** How a request ends: the transport resolves with a response or rejects. *)
Inductive Settled :=
  | Responded (response : Response)
  | Failed (error : Thrown).

(** [message || fallback] and [message] inside a template literal. *)
Definition messageOr (message : option string) (fallback : string) : string :=
  match message with
  | Some m => if Js.truthyString m then m else fallback
  | None => fallback
  end.

Definition messageText (message : option string) : string :=
  default "undefined" message.

(** The message [callOpenAI] throws for a status other than 200. *)
Definition openAIErrorMessage (response : Response) : string :=
  let errorMessage :=
    "OpenAI API error (" +:+ Js.numberToString (rs_status response) +:+ ")" in
  match rs_error response with
  | Some error =>
    if (rs_status response =? 400)%nat then
      if bool_decide (eb_code error = Some "context_length_exceeded")
      then "Input is too long (exceeds model context limit). Try analyzing fewer files."
      else if bool_decide (eb_type error = Some "invalid_request_error")
      then "Invalid request: " +:+ messageText (eb_message error)
      else "Bad request (400): "
           +:+ messageOr (eb_message error) "Check your model name and API settings"
    else if (rs_status response =? 401)%nat then "Invalid API key"
    else if (rs_status response =? 429)%nat then "Rate limit exceeded"
    else if (rs_status response =? 500)%nat
    then "OpenAI server error. Try again in a moment."
    else messageOr (eb_message error) errorMessage
  | None => errorMessage
  end.

(** [callOpenAI]: every status is accepted by the transport and checked
    here; what is thrown inside the [try] is thrown again by its [catch]. *)
Definition callOpenAI (settled : Settled) : Thrown + string :=
  match settled with
  | Failed error => inl error
  | Responded response =>
    if negb (rs_status response =? 200)%nat
    then inl (newError (openAIErrorMessage response))
    else match rs_choices response with
         | Some (content :: _) => inr content
         | Some [] | None => inl (newError "OpenAI returned no choices in response")
         end
  end.

(** What the three providers' calls end in: for [callOpenAI] the settled
    request, for the other two what the call returns or throws. *)
Record Transport := mkTransport {
  tr_openai : Settled;
  tr_anthropic : Thrown + string;
  tr_custom : Thrown + string
}.

Definition callLLMAPI (config : LLMConfig) (transport : Transport) : Thrown + string :=
  if bool_decide (cfg_provider config = "openai") then callOpenAI (tr_openai transport)
  else if bool_decide (cfg_provider config = "anthropic") then tr_anthropic transport
  else if bool_decide (cfg_provider config = "custom") then tr_custom transport
  else inl (newError ("Unsupported LLM provider: " +:+ cfg_provider config)).

(** The [catch] of [generateCompletion]: the message of the error it throws
    in place of the one it caught. *)
Definition explain (config : LLMConfig) (error : Thrown) : string :=
  if bool_decide (th_status error = Some 401%nat)
  then "Invalid API key. Please check your LLM configuration."
  else if bool_decide (th_status error = Some 429%nat)
  then "Rate limit exceeded. Please try again later."
  else if bool_decide (th_code error = Some "ENOTFOUND")
          || bool_decide (th_code error = Some "ECONNREFUSED")
  then "Cannot reach LLM API at " +:+ cfg_apiUrl config
       +:+ ". Check your internet connection."
  else "LLM API error: " +:+ th_message error.

Definition notConfiguredMessage : string :=
  "LLM API key is not configured. Please configure it using 'CodeTour: Configure LLM Settings' command.".

(** [generateCompletion], read at the [content] of what it returns. *)
Definition generateCompletion (config : LLMConfig) (transport : Transport)
  : Completion :=
  if negb (isConfigured config) then Rejected notConfiguredMessage
  else match callLLMAPI config transport with
       | inr content => Resolved content
       | inl error => Rejected (explain config error)
       end.

End LLMService.

(** ** Concrete inputs used by the examples *)

Module Samples.

Definition sourceFile (path : string) : FileAnalysis :=
  mkFileAnalysis path "typescript" [] [] [].

Definition structureA : ProjectStructure :=
  mkProjectStructure "/ws"
    [sourceFile "src/real.ts"; sourceFile "src/Utils/Helper.ts"] [] ∅.

Definition defaults : TourGenerationOptions := mkOptions None.

Definition welcomeStep : GeneratedTourStep :=
  mkGeneratedTourStep (Some "Welcome") EmptyString (Some 1) "intro" None.

Definition welcomeReadme : GeneratedTourStep :=
  mkGeneratedTourStep (Some "Welcome to ws") "README.md" (Some (-2)) "intro" None.

Definition missingStep : GeneratedTourStep :=
  mkGeneratedTourStep (Some "x") "missing.ts" (Some 3) "d" None.

Definition helperStep : GeneratedTourStep :=
  mkGeneratedTourStep (Some "Helper") "lib/helper.TS" (Some (-4)) "d" None.

Definition zeroLineStep : GeneratedTourStep :=
  mkGeneratedTourStep (Some "Real") "src/real.ts" (Some 0) "d" None.

(** [a.ts] of the specification: a class [Foo] spanning lines 1 to 12 with
    the methods [bar] on line 5 and [baz] on line 9. *)
Definition fooSource : string := "class Foo { bar() {} baz() {} }".

Definition token (ty : string) (field : option string) (first last row : nat)
  : SyntaxNode :=
  mkNode ty field first last row row [].

Definition method (first last startRow endRow : nat) : SyntaxNode :=
  mkNode "method_definition" None first (last + 5) startRow endRow
       [token "property_identifier" (Some "name") first last startRow;
        token "statement_block" (Some "body") (last + 3) (last + 5) startRow].

Definition fooClass : SyntaxNode :=
  mkNode "class_declaration" None 0 31 0 11
       [token "class" None 0 5 0;
        token "type_identifier" (Some "name") 6 9 0;
        mkNode "class_body" (Some "body") 10 31 0 11
               [method 12 15 4 6; method 21 24 8 10]].

Definition fooTree : SyntaxNode :=
  mkNode "program" None 0 31 0 11 [fooClass].

(** The same class behind an [export] keyword. *)
Definition exportedFooTree : SyntaxNode :=
  mkNode "program" None 0 31 0 11
       [mkNode "export_statement" None 0 31 0 11
               [token "export" None 0 0 0; fooClass]].

(** A small workspace for discovery. *)
Definition workspaceFiles : list string :=
  ["src/util/helper.ts"; "node_modules/pkg/index.js"; "src/index.ts";
   "src/index.test.ts"; "src/config/db.ts"; "dist/main.js"; "lib/main.ts";
   "src/types.d.ts"; "README.md"].

Definition sourceTypes : list string := [".ts"; ".js"; ".py"].

(** An editor over this workspace: the files that match the include
    pattern and not the exclude glob, in enumeration order, up to the
    cap. *)
Definition findAll (include exclude : string) (maxResults : option nat)
  : list string :=
  let hits :=
    filter (fun uri => Glob.matches include uri
                       && negb (Glob.matches exclude uri) = true)
           workspaceFiles in
  match maxResults with
  | None => hits
  | Some n => take n hits
  end.

Definition openAll (path : string) : option (string * string) :=
  Some ("class K", "typescript").

(** A response of the generation service: an array of one step, with prose
    around it that has brackets of its own. *)
Definition quoted (s : string) : string :=
  String "034"%char s +:+ String "034"%char EmptyString.

Definition stepText : string :=
  "{" +:+ quoted "title" +:+ ":" +:+ quoted "Real" +:+ ","
  +:+ quoted "file" +:+ ":" +:+ quoted "src/real.ts" +:+ ","
  +:+ quoted "line" +:+ ":3,"
  +:+ quoted "description" +:+ ":" +:+ quoted "d" +:+ "}".

Definition arrayText : string := "[" +:+ stepText +:+ "]".

Definition realStep : GeneratedTourStep :=
  mkGeneratedTourStep (Some "Real") "src/real.ts" (Some 3) "d" None.

Definition plainResponse : string := "Here you go: " +:+ arrayText +:+ " Enjoy.".

Definition footnoteResponse : string :=
  "Here you go: " +:+ arrayText +:+ " (see note [1])".

(** [JSON.parse] on the texts of the examples: the array text parses, the
    array text followed by prose is a syntax error. *)
Definition sampleParse (text : string) : option BatchTourGenerator.Parsed :=
  if decide (text = arrayText)
  then Some (BatchTourGenerator.ParsedArray [realStep]) else None.

(** Five files with one element each: two batches. *)
Definition codeFile (path : string) : FileAnalysis :=
  mkFileAnalysis path "typescript"
               [mkCodeElement TFunction "f" path 1 1 []] [] [].

Definition structureB : ProjectStructure :=
  mkProjectStructure "/ws"
  [codeFile "src/a.ts"; codeFile "src/b.ts"; codeFile "src/c.ts";
   codeFile "src/d.ts"; codeFile "src/e.ts"] [] ∅.

Definition bareWorkspace : BatchTourGenerator.Workspace :=
  BatchTourGenerator.mkWorkspace (Some "ws") None.

Definition answering (batchNum : nat) (batch : list FileAnalysis)
  : BatchTourGenerator.Race :=
  BatchTourGenerator.ServiceFirst (BatchTourGenerator.Resolved plainResponse).

Definition hangingOnSecond (batchNum : nat) (batch : list FileAnalysis)
  : BatchTourGenerator.Race :=
  if decide (batchNum = 2%nat) then BatchTourGenerator.TimerFirst
  else answering batchNum batch.

(** Characters outside ASCII, by their code unit: the no-break space
    U+00A0, the capital U+00C9 and the small U+00E9 (E with an acute
    accent). *)
Definition nbsp : string := String "160"%char EmptyString.
Definition capitalE : string := String "201"%char EmptyString.
Definition smallE : string := String "233"%char EmptyString.

(** The text a literal shows when it is typed with characters of Latin-1:
    such a character is read as the two bytes of its UTF-8 form, the first
    of which is 194 or 195, and [text] puts the one code unit back. *)
Fixpoint text (literal : string) : string :=
  match literal with
  | String lead (String b rest as tail) =>
    if bool_decide (lead = "194"%char) then String b (text rest)
    else if bool_decide (lead = "195"%char)
         then String (ascii_of_nat (nat_of_ascii b + 64)) (text rest)
         else String lead (text tail)
  | _ => literal
  end.

(** A source text for the regex fallback. *)
Definition fallbackSource : string :=
  "export class Foo {" +:+ Js.nl
  +:+ "  async bar(x) {" +:+ Js.nl
  +:+ "  }" +:+ Js.nl
  +:+ "}" +:+ Js.nl
  +:+ "function baz() {" +:+ Js.nl
  +:+ "}".

(** The README of the specification: a badge line, a sponsors section, a
    usage section. *)
Definition readmeText : string :=
  "# Tool" +:+ Js.nl
  +:+ "![Build](https://ci.example/badge.svg)" +:+ Js.nl
  +:+ "Intro text" +:+ Js.nl
  +:+ "### Sponsors" +:+ Js.nl
  +:+ "Acme pays us" +:+ Js.nl
  +:+ "## Usage" +:+ Js.nl
  +:+ "run it".

(** A file with two import statements, one of which names a module. *)
Definition importingFile : FileAnalysis :=
  mkFileAnalysis "src/a.ts" "typescript" []
                 ["import { x } from './util'"; "import fs"] [].

(** A runtime whose parser does not start, and one where everything loads. *)
Definition failedRuntime : TreeSitterAnalyzer.Runtime :=
  TreeSitterAnalyzer.mkRuntime TreeSitterAnalyzer.Threw true true true.

Definition fullRuntime : TreeSitterAnalyzer.Runtime :=
  TreeSitterAnalyzer.mkRuntime TreeSitterAnalyzer.Started true true true.

(** A runtime whose wasm file is missing: [Parser.init] stays pending. *)
Definition hangingRuntime : TreeSitterAnalyzer.Runtime :=
  TreeSitterAnalyzer.mkRuntime TreeSitterAnalyzer.Pending true true true.

(** A README without badges, sponsors or advertisements. *)
Definition quietReadme : string := "# Tool" +:+ Js.nl +:+ "run it".

(** Configurations of the generation service, and two responses. *)
Definition endpoint : string := "https://api.openai.com/v1/chat/completions".

Definition blankKey : LLMService.LLMConfig :=
  LLMService.mkLLMConfig "   " endpoint "gpt-4" "openai".

Definition openaiKey : LLMService.LLMConfig :=
  LLMService.mkLLMConfig "sk-test" endpoint "gpt-4" "openai".

Definition unauthorized : LLMService.Response :=
  LLMService.mkResponse 401
    (Some (LLMService.mkErrorBody (Some "Incorrect API key provided")
                                  (Some "invalid_api_key")
                                  (Some "invalid_request_error")))
    None.

Definition answered : LLMService.Response :=
  LLMService.mkResponse 200 None (Some [plainResponse]).

Definition respondingWith (response : LLMService.Response) : LLMService.Transport :=
  LLMService.mkTransport (LLMService.Responded response)
                         (inl (LLMService.newError "unused"))
                         (inl (LLMService.newError "unused")).

End Samples.

(* ================================================================== *)
(** * Properties *)
(* ================================================================== *)

Module JsFacts.
Import Js.

Lemma startsWith_spec s p :
  startsWith s p = true <-> exists post, s = p +:+ post.
Proof.
  revert s; induction p as [|a p IH]; intros s; simpl.
  - split; [intros _; by exists s | done].
  - destruct s as [|b s].
    + split; [done | intros [post H]; discriminate].
    + destruct (decide (a = b)) as [->|Hne].
      * rewrite IH. split; intros [post H]; exists post.
        -- by rewrite H.
        -- by injection H.
      * split; [done | intros [post H]; injection H; congruence].
Qed.

Lemma includes_spec s search :
  includes s search = true <-> exists pre post, s = pre +:+ search +:+ post.
Proof.
  induction s as [|c s IH]; simpl.
  - destruct (startsWith EmptyString search) eqn:E.
    + apply startsWith_spec in E as [post E].
      split; [intros _; by exists EmptyString, post | done].
    + split; [done|]. intros [pre [post H]].
      destruct pre; [|discriminate]. simpl in H.
      assert (startsWith EmptyString search = true) by (apply startsWith_spec; eauto).
      congruence.
  - destruct (startsWith (String c s) search) eqn:E.
    + apply startsWith_spec in E as [post E].
      split; [intros _; by exists EmptyString, post | done].
    + rewrite IH. split.
      * intros [pre [post H]]. exists (String c pre), post. by rewrite H.
      * intros [pre [post H]]. destruct pre as [|c' pre].
        -- simpl in H.
           assert (startsWith (String c s) search = true)
             by (apply startsWith_spec; eauto).
           congruence.
        -- injection H as _ H. eauto.
Qed.

Lemma slice0_take {A} (n : nat) (l : list A) : slice0 (Z.of_nat n) l = take n l.
Proof.
  unfold slice0. destruct (Z.ltb_spec (Z.of_nat n) 0) as [?|_]; [lia|].
  rewrite <- Nat2Z.inj_min, Nat2Z.id.
  destruct (Nat.le_ge_cases n (length l)).
  - by rewrite Nat.min_l.
  - rewrite Nat.min_r by done. by rewrite !take_ge.
Qed.

Lemma insertDescending_perm {A} (key : A -> Z) x l :
  insertDescending key x l ≡ₚ x :: l.
Proof.
  induction l as [|y l IH]; simpl; [done|].
  destruct (key x <? key y); [|done].
  rewrite IH. apply Permutation_swap.
Qed.

Lemma sortDescending_perm {A} (key : A -> Z) l : sortDescending key l ≡ₚ l.
Proof.
  induction l as [|x l IH]; simpl; [done|].
  by rewrite insertDescending_perm, IH.
Qed.

Lemma insertDescending_sorted {A} (key : A -> Z) x l :
  StronglySorted (fun a b => key b <= key a) l ->
  StronglySorted (fun a b => key b <= key a) (insertDescending key x l).
Proof.
  induction 1 as [|y l Hs IH Hy]; simpl.
  - repeat constructor.
  - destruct (Z.ltb_spec (key x) (key y)).
    + constructor; [done|].
      rewrite (insertDescending_perm key x l). constructor; [lia | done].
    + constructor; [by constructor|]. constructor; [lia|].
      eapply Forall_impl; [exact Hy|]. simpl. intros; lia.
Qed.

Lemma sortDescending_sorted {A} (key : A -> Z) l :
  StronglySorted (fun a b => key b <= key a) (sortDescending key l).
Proof.
  induction l; simpl; [constructor | by apply insertDescending_sorted].
Qed.

Local Arguments String.append !_ _ : simpl nomatch.

Lemma split_nonempty sep s : split sep s <> [].
Proof.
  destruct s as [|c s]; simpl; [done|].
  destruct (decide (c = sep)); [done|]. by destruct (split sep s).
Qed.

(** The segments of [split], joined by the separator, give the text back,
    and no segment holds the separator: the last one is the base name. *)
Lemma split_join sep s : join (String sep EmptyString) (split sep s) = s.
Proof.
  induction s as [|c s IH]; simpl; [done|].
  destruct (decide (c = sep)) as [->|Hne].
  - pose proof (split_nonempty sep s) as Hn.
    destruct (split sep s) as [|h t] eqn:E; [done|].
    change (join (String sep EmptyString) (EmptyString :: h :: t))
      with (String sep (join (String sep EmptyString) (h :: t))).
    by rewrite IH.
  - destruct (split sep s) as [|h t] eqn:E.
    + by destruct (split_nonempty sep s).
    + rewrite <- IH. by destruct t.
Qed.

Lemma split_segments sep s :
  Forall (fun segment => includes segment (String sep EmptyString) = false)
         (split sep s).
Proof.
  induction s as [|c s IH]; simpl.
  - by constructor.
  - destruct (decide (c = sep)) as [->|Hne].
    + by constructor.
    + destruct (split sep s) as [|h t] eqn:E.
      * constructor; [|done]. simpl. by rewrite decide_False by done.
      * apply Forall_cons in IH as [Hh Ht]. constructor; [|done].
        simpl. rewrite decide_False by congruence.
        destruct h; simpl in *; done.
Qed.

Lemma append_assoc (a b c : string) : (a +:+ b) +:+ c = a +:+ (b +:+ c).
Proof. induction a as [|x a IH]; simpl; [done | by rewrite IH]. Qed.

Lemma includes_char_false c a s :
  includes (String a s) (String c EmptyString) = false
  <-> c <> a /\ includes s (String c EmptyString) = false.
Proof.
  cbn [includes startsWith].
  destruct (decide (c = a)) as [->|Hne].
  - destruct s; simpl; split; (done || by intros [? _]).
  - split; [done | by intros [_ ?]].
Qed.

(** A text without the separator is its own only segment. *)
Lemma split_whole sep s :
  includes s (String sep EmptyString) = false -> split sep s = [s].
Proof.
  induction s as [|a s IH]; [done|].
  intros [Hne Hs]%includes_char_false. simpl.
  rewrite decide_False by done. by rewrite IH.
Qed.

(** The segments of two texts put together around a separator are those
    of the first followed by those of the second. *)
Lemma split_app sep a b :
  split sep (a +:+ String sep b) = split sep a ++ split sep b.
Proof.
  induction a as [|x a IH]; simpl.
  - by rewrite decide_True.
  - destruct (decide (x = sep)) as [->|Hne]; rewrite IH; [done|].
    pose proof (split_nonempty sep a) as Hn.
    by destruct (split sep a).
Qed.

Lemma join_snoc sep (l : list string) x :
  l <> [] -> join sep (l ++ [x]) = join sep l +:+ sep +:+ x.
Proof.
  induction l as [|y l IH]; [done|]. intros _.
  destruct l as [|z l]; [done|].
  change (join sep ((y :: z :: l) ++ [x]))
    with (y +:+ sep +:+ join sep ((z :: l) ++ [x])).
  rewrite IH by done.
  change (join sep (y :: z :: l)) with (y +:+ sep +:+ join sep (z :: l)).
  by rewrite !append_assoc.
Qed.

(** The last segment of a path, in two ways: what [split] and [pop] give,
    and the text without a separator that ends the path, after a separator
    unless it is the whole path. *)
Lemma pop_split sep path base :
  pop (split sep path) = Some base
  <-> includes base (String sep EmptyString) = false
      /\ (path = base \/ exists dir, path = dir +:+ String sep base).
Proof.
  unfold pop. split.
  - intros [segments Hs]%last_Some.
    pose proof (split_segments sep path) as Hseg.
    pose proof (split_join sep path) as Hjoin.
    rewrite Hs in Hseg, Hjoin.
    apply Forall_app in Hseg as [_ [Hbase _]%Forall_cons]. split; [done|].
    destruct segments as [|segment segments]; [by left|]. right.
    rewrite join_snoc in Hjoin by done.
    exists (join (String sep EmptyString) (segment :: segments)).
    by rewrite <- Hjoin.
  - intros [Hbase [->|[dir ->]]].
    + by rewrite split_whole.
    + rewrite split_app, (split_whole sep base) by done. apply last_snoc.
Qed.

End JsFacts.

(** ** Glob patterns *)

Module GlobFacts.
Import Js Glob.

Local Arguments String.append !_ _ : simpl nomatch.

Lemma append_nil_r s : s +:+ EmptyString = s.
Proof. induction s as [|a s IH]; simpl; [done | by rewrite IH]. Qed.

(** A star lets any prefix of the segment go. *)
Lemma matchSegment_star pattern before segment :
  matchSegment pattern segment = true ->
  matchSegment (String "*" pattern) (before +:+ segment) = true.
Proof.
  intros H. cbn [matchSegment]. rewrite bool_decide_eq_true_2 by done.
  induction before as [|a before IH]; simpl.
  - destruct segment; by rewrite H.
  - rewrite IH. apply orb_true_r.
Qed.

Lemma matchSegment_star_all segment : matchSegment "*" segment = true.
Proof.
  rewrite <- (append_nil_r segment) at 1.
  by apply matchSegment_star.
Qed.

(** A character that is not a star stands for itself. *)
Lemma matchSegment_char a pattern segment :
  a <> "*"%char ->
  matchSegment (String a pattern) (String a segment) = matchSegment pattern segment.
Proof.
  intros Ha. cbn [matchSegment]. rewrite bool_decide_eq_false_2 by done.
  by rewrite bool_decide_eq_true_2.
Qed.

(** A text in which [*] stands on both sides of a marker matches every
    segment that contains the marker. *)
Lemma matchSegment_marker marker before after :
  Regex.everyChar (fun a => negb (bool_decide (a = "*"%char))) marker = true ->
  matchSegment (String "*" (marker +:+ "*")) (before +:+ marker +:+ after) = true.
Proof.
  intros Hm. apply matchSegment_star.
  induction marker as [|a marker IH]; cbn [String.append].
  - apply matchSegment_star_all.
  - cbn [Regex.everyChar] in Hm. apply andb_true_iff in Hm as [Ha Hm].
    apply negb_true_iff, bool_decide_eq_false in Ha.
    rewrite matchSegment_char by done. by apply IH.
Qed.

Lemma matchSegment_suffix suffix before :
  Regex.everyChar (fun a => negb (bool_decide (a = "*"%char))) suffix = true ->
  matchSegment (String "*" suffix) (before +:+ suffix) = true.
Proof.
  intros Hm. apply matchSegment_star.
  induction suffix as [|a suffix IH]; [done|].
  cbn [Regex.everyChar] in Hm. apply andb_true_iff in Hm as [Ha Hm].
  apply negb_true_iff, bool_decide_eq_false in Ha.
  rewrite matchSegment_char by done. by apply IH.
Qed.

Lemma matchSegment_refl name :
  Regex.everyChar (fun a => negb (bool_decide (a = "*"%char))) name = true ->
  matchSegment name name = true.
Proof.
  induction name as [|a name IH]; [done|].
  cbn [Regex.everyChar]. intros [Ha Hm]%andb_true_iff.
  apply negb_true_iff, bool_decide_eq_false in Ha.
  rewrite matchSegment_char by done. by apply IH.
Qed.

(** [**] lets any number of leading segments go. *)
Lemma matchSegments_skip patterns before segments :
  matchSegments patterns segments = true ->
  matchSegments ("**" :: patterns) (before ++ segments) = true.
Proof.
  intros H. cbn [matchSegments]. rewrite bool_decide_eq_true_2 by done.
  induction before as [|a before IH]; simpl.
  - destruct segments; by rewrite H.
  - rewrite IH. apply orb_true_r.
Qed.

Lemma matchSegments_all segments : matchSegments ["**"] segments = true.
Proof.
  rewrite <- (app_nil_r segments). by apply matchSegments_skip.
Qed.

(** [**/directory/**] matches every path with that directory among its
    segments. *)
Lemma matchSegments_directory directory segments :
  directory <> "**" ->
  matchSegment directory directory = true ->
  directory ∈ segments ->
  matchSegments ["**"; directory; "**"] segments = true.
Proof.
  intros Hne Hd (before & after & ->)%list_elem_of_split.
  apply matchSegments_skip. cbn [matchSegments].
  rewrite bool_decide_eq_false_2 by done. rewrite Hd. simpl.
  apply (matchSegments_all after).
Qed.

(** [**/name] matches every path whose last segment matches [name]. *)
Lemma matchSegments_name pattern segments name :
  pattern <> "**" ->
  last segments = Some name ->
  matchSegment pattern name = true ->
  matchSegments ["**"; pattern] segments = true.
Proof.
  intros Hne Hlast Hn.
  apply last_Some in Hlast as [before ->].
  apply matchSegments_skip. cbn [matchSegments].
  rewrite bool_decide_eq_false_2 by done. by rewrite Hn.
Qed.

Lemma matches_alternative pattern alternative path :
  alternative ∈ expand (S (String.length pattern)) pattern ->
  matchSegments (split "/" alternative) (split "/" path) = true ->
  matches pattern path = true.
Proof.
  intros Hin Hm. unfold matches. apply existsb_exists.
  exists alternative. split; [by apply list_elem_of_In | done].
Qed.

End GlobFacts.

(** ** The structural analyzer *)

Module TreeSitterAnalyzerFacts.
Import Js JsFacts TreeSitterAnalyzer.

Lemma SyntaxNode_ind_children (P : SyntaxNode -> Prop) :
  (forall node, Forall P (nd_children node) -> P node) -> forall node, P node.
Proof.
  intros H. fix IH 1. intros [ty fld si ei sr er cs]. apply H. simpl.
  induction cs as [|c cs IHcs]; constructor; [apply IH | exact IHcs].
Qed.

Lemma setChildren_nil e : el_children e = [] -> setChildren e [] = e.
Proof. destruct e; simpl; intros ->; done. Qed.

Lemma withoutChildren_setChildren e k :
  withoutChildren (setChildren e k) = setChildren e [].
Proof. done. Qed.

Lemma declaratorElement_shape f c node cs e :
  declaratorElement f c node cs = Some e ->
  el_children e = [] /\ el_line e = (nd_startRow node + 1)%nat
  /\ el_endLine e = (nd_endRow node + 1)%nat /\ el_type e <> TClass.
Proof.
  induction cs as [|child rest IH]; simpl; [done|].
  case_bool_decide; [|done].
  destruct (childForFieldName child "name"); [|done].
  destruct (childForFieldName child "value"); [|done].
  destruct (_ || _); [destruct (hasChildOfType _ _)|]; intros [= <-]; done.
Qed.

Lemma declarationElement_shape f c node e :
  declarationElement f c node = Some e ->
  el_children e = [] /\ el_line e = (nd_startRow node + 1)%nat
  /\ el_endLine e = (nd_endRow node + 1)%nat.
Proof.
  unfold declarationElement. destruct (typeMap (nd_type node)).
  - intros [= <-]. done.
  - destruct (_ || _); [|done]. intros H%declaratorElement_shape. tauto.
Qed.

Lemma nodeToElement_not_export f c node :
  nd_type node <> "export_statement" ->
  nodeToElement f c node = declarationElement f c node.
Proof.
  intros Hne. unfold nodeToElement.
  destruct (declarationElement f c node); [done|].
  by rewrite bool_decide_eq_false_2.
Qed.

Lemma nodeToElement_children f c node e :
  nodeToElement f c node = Some e -> el_children e = [].
Proof.
  unfold nodeToElement.
  destruct (declarationElement f c node) eqn:E.
  - intros [= <-]. apply declarationElement_shape in E. tauto.
  - case_bool_decide; [|done].
    destruct (List.find _ _); [|done].
    intros Hd%declarationElement_shape. tauto.
Qed.

Lemma rowsOrdered_unfold node :
  rowsOrdered node
  = (nd_startRow node <=? nd_endRow node)%nat && forallb rowsOrdered (nd_children node).
Proof. by destruct node. Qed.

Lemma nodeToElement_rows f c node e :
  rowsOrdered node = true ->
  nodeToElement f c node = Some e ->
  (el_line e <= el_endLine e)%nat.
Proof.
  rewrite rowsOrdered_unfold, andb_true_iff, Nat.leb_le, forallb_forall.
  intros [Hrow Hch]. unfold nodeToElement.
  destruct (declarationElement f c node) eqn:E.
  - intros [= <-]. apply declarationElement_shape in E as (_ & -> & -> ). lia.
  - case_bool_decide; [|done].
    destruct (List.find _ _) as [child|] eqn:Hfind; [|done].
    apply find_some in Hfind as [Hin _]. apply Hch in Hin.
    rewrite rowsOrdered_unfold, andb_true_iff, Nat.leb_le in Hin.
    intros (_ & -> & ->)%declarationElement_shape. lia.
Qed.

Lemma method_not_class f c parentType node e :
  isMethodNode parentType node = true ->
  nodeToElement f c node = Some e ->
  el_type e <> TClass.
Proof.
  unfold isMethodNode, nodeToElement, declarationElement.
  intros Hm.
  assert (Hty : exists ty, typeMap (nd_type node) = Some ty /\ ty <> TClass
                           /\ (ty = TFunction \/ ty = TMethod)).
  { repeat (apply orb_true_iff in Hm as [Hm|Hm]);
      try (apply andb_true_iff in Hm as [_ Hm];
           apply orb_true_iff in Hm as [Hm|Hm]);
      apply bool_decide_eq_true in Hm; rewrite Hm; eexists; (split; [reflexivity|]);
      simpl; (split; [discriminate | auto]). }
  clear Hm. destruct Hty as (ty & -> & Hne & Hcases). simpl. intros [= <-]. simpl.
  destruct (hasChildOfType node "async"); simpl; [|done].
  case_bool_decide; simpl; [discriminate | done].
Qed.

Lemma walkWith_flat visit hp cs :
  walkWith visit hp cs
  = (flat_map (fun c => fst (visit hp c)) cs, flat_map (fun c => snd (visit hp c)) cs).
Proof.
  induction cs as [|c cs IH]; simpl; [done|].
  fold (walkWith visit). by rewrite IH.
Qed.

Lemma traverse_unfold f c pt hp node :
  traverse f c pt hp node
  = let walk := walkWith (traverse f c (Some (nd_type node))) in
    match nodeToElement f c node with
    | Some element =>
        if bool_decide (el_type element = TClass) then
          let r := walk true (nd_children node) in
          if hp && isMethodNode pt node
          then (fst r, [setChildren element (snd r)])
          else (setChildren element (snd r) :: fst r, [])
        else
          let r := walk hp (nd_children node) in
          if hp && isMethodNode pt node
          then (fst r, element :: snd r)
          else (element :: fst r, snd r)
    | None => walk hp (nd_children node)
    end.
Proof. by destruct node. Qed.

Lemma nodesInContext_unfold f c pt uc node :
  nodesInContext f c pt uc node
  = (pt, uc, node)
    :: flat_map (nodesInContext f c (Some (nd_type node)) (uc || isClassNode f c node))
                (nd_children node).
Proof. by destruct node. Qed.

Lemma omap_cons_eq {A B} (g : A -> option B) x l :
  omap g (x :: l) = match g x with Some y => y :: omap g l | None => omap g l end.
Proof. done. Qed.

Lemma app_swap_perm {A} (a b c d : list A) :
  (a ++ b) ++ (c ++ d) ≡ₚ (a ++ c) ++ (b ++ d).
Proof.
  rewrite <- !app_assoc. apply Permutation_app_head.
  rewrite !app_assoc. apply Permutation_app_tail. apply Permutation_app_comm.
Qed.

Lemma traverse_spec f c : forall node pt hp,
  let r := traverse f c pt hp node in
  let ctx := nodesInContext f c pt hp node in
  map withoutChildren (fst r) = omap (topLevelOf f c) ctx
  /\ snd r ++ concat (map el_children (fst r)) ≡ₚ omap (nestedOf f c) ctx
  /\ Forall (fun m => el_children m = []) (snd r)
  /\ Forall (fun e => Forall (fun m => el_children m = []) (el_children e)) (fst r)
  /\ (hp = false -> snd r = []).
Proof.
  induction node as [node IH] using SyntaxNode_ind_children.
  intros pt hp. cbv zeta.
  rewrite traverse_unfold, nodesInContext_unfold. cbv zeta.
  set (ty := Some (nd_type node)) in *.
  assert (Hwalk : forall hp',
    let r := walkWith (traverse f c ty) hp' (nd_children node) in
    let ctx := flat_map (nodesInContext f c ty hp') (nd_children node) in
    map withoutChildren (fst r) = omap (topLevelOf f c) ctx
    /\ snd r ++ concat (map el_children (fst r)) ≡ₚ omap (nestedOf f c) ctx
    /\ Forall (fun m => el_children m = []) (snd r)
    /\ Forall (fun e => Forall (fun m => el_children m = []) (el_children e)) (fst r)
    /\ (hp' = false -> snd r = [])).
  { intros hp'. cbv zeta. rewrite walkWith_flat. simpl.
    induction IH as [|child rest Hc _ IHrest]; simpl.
    - repeat split; try done; constructor.
    - destruct (Hc ty hp') as (A1 & B1 & C1 & D1 & E1).
      destruct IHrest as (A2 & B2 & C2 & D2 & E2).
      rewrite !map_app, !concat_app, !omap_app. split; [|split; [|split; [|split]]].
      + by rewrite A1, A2.
      + rewrite <- B1, <- B2. apply app_swap_perm.
      + by apply Forall_app.
      + by apply Forall_app.
      + intros ->. by rewrite E1, E2. }
  clearbody ty. clear IH.
  rewrite (omap_cons_eq (topLevelOf f c)), (omap_cons_eq (nestedOf f c)).
  change (topLevelOf f c (pt, hp, node))
    with (if hp && isMethodNode pt node then None else nodeToElement f c node).
  change (nestedOf f c (pt, hp, node))
    with (if hp && isMethodNode pt node then nodeToElement f c node else None).
  destruct (nodeToElement f c node) as [e|] eqn:He.
  - pose proof (nodeToElement_children _ _ _ _ He) as Hnil.
    case_bool_decide as Hcls.
    + assert (Hic : isClassNode f c node = true).
      { unfold isClassNode. rewrite He. by apply bool_decide_eq_true. }
      rewrite Hic, orb_true_r.
      destruct (Hwalk true) as (A & B & C & D & E).
      destruct (hp && isMethodNode pt node) eqn:Hatt.
      { apply andb_true_iff in Hatt as [_ Hm].
        by destruct (method_not_class _ _ _ _ _ Hm He). }
      cbn [fst snd map concat app]. rewrite A.
      rewrite withoutChildren_setChildren, (setChildren_nil _ Hnil).
      repeat split; try done.
      by constructor.
    + assert (Hic : isClassNode f c node = false).
      { unfold isClassNode. rewrite He. by apply bool_decide_eq_false. }
      rewrite Hic, orb_false_r.
      destruct (Hwalk hp) as (A & B & C & D & E).
      destruct (hp && isMethodNode pt node) eqn:Hatt; cbn [fst snd map concat app].
      * repeat split; try done.
        -- by constructor.
        -- by constructor.
        -- intros ->. done.
      * rewrite A. unfold withoutChildren at 1.
        rewrite (setChildren_nil _ Hnil), Hnil. cbn [app].
        repeat split; try done.
        constructor; [by rewrite Hnil | done].
  - assert (Hic : isClassNode f c node = false).
    { unfold isClassNode. by rewrite He. }
    rewrite Hic, orb_false_r.
    destruct (Hwalk hp) as (A & B & C & D & E).
    destruct (hp && isMethodNode pt node); done.
Qed.

Lemma traverse_rows f c : forall node pt hp,
  rowsOrdered node = true ->
  let r := traverse f c pt hp node in
  Forall linesOrdered (fst r)
  /\ Forall (fun m => (el_line m <= el_endLine m)%nat /\ el_children m = []) (snd r).
Proof.
  induction node as [node IH] using SyntaxNode_ind_children.
  intros pt hp Hrows. cbv zeta. rewrite traverse_unfold. cbv zeta.
  set (ty := Some (nd_type node)) in *.
  assert (Hwalk : forall hp',
    let r := walkWith (traverse f c ty) hp' (nd_children node) in
    Forall linesOrdered (fst r)
    /\ Forall (fun m => (el_line m <= el_endLine m)%nat /\ el_children m = []) (snd r)).
  { intros hp'. cbv zeta. rewrite walkWith_flat. simpl.
    rewrite rowsOrdered_unfold, andb_true_iff, forallb_forall in Hrows.
    destruct Hrows as [_ Hch].
    induction IH as [|child rest Hc _ IHrest]; simpl.
    - split; constructor.
    - destruct (Hc ty hp') as [A1 B1]; [apply Hch; by left|].
      destruct IHrest as [A2 B2]; [intros x Hx; apply Hch; by right|].
      split; by apply Forall_app. }
  clearbody ty. clear IH.
  destruct (nodeToElement f c node) as [e|] eqn:He; [|apply Hwalk].
  pose proof (nodeToElement_children _ _ _ _ He) as Hnil.
  pose proof (nodeToElement_rows _ _ _ _ Hrows He) as Hle.
  case_bool_decide as Hcls.
  - destruct (Hwalk true) as [A B].
    destruct (hp && isMethodNode pt node) eqn:Hatt.
    { apply andb_true_iff in Hatt as [_ Hm].
      by destruct (method_not_class _ _ _ _ _ Hm He). }
    cbn [fst snd]. split; [|constructor].
    constructor; [|done]. split; done.
  - destruct (Hwalk hp) as [A B].
    destruct (hp && isMethodNode pt node); cbn [fst snd]; split; try done.
    + by constructor.
    + constructor; [|done]. split; [done|]. rewrite Hnil. constructor.
Qed.

Lemma omap_split_length {A B} (p : A -> bool) (g : A -> option B) (l : list A) :
  (length (omap (fun x => if p x then None else g x) l)
   + length (omap (fun x => if p x then g x else None) l)
   = length (omap g l))%nat.
Proof.
  induction l as [|x l IH]; [done|].
  rewrite !omap_cons_eq. destruct (p x), (g x); simpl; lia.
Qed.

Lemma scanLine_shape f lang st index line :
  Forall fallbackShape (sc_elements st) ->
  Forall fallbackShape (sc_elements (scanLine f lang st index line)).
Proof.
  intros Hst. unfold scanLine, scanStatements. simpl.
  destruct (_ || _); [|done].
  set (trimmed := Js.trim line). set (indent := Js.search_nonspace line).
  assert (Hc : Forall fallbackShape
                 (sc_elements (scanClass f index trimmed indent st))).
  { unfold scanClass. destruct (classMatch trimmed); [|done]. simpl.
    apply Forall_app. split; [done|]. constructor; [|constructor].
    repeat split; simpl; try lia. constructor. }
  generalize dependent (scanClass f index trimmed indent st).
  intros st1 Hc. unfold scanMethod.
  destruct (methodMatch trimmed) as [name|]; [|done].
  destruct (_ && _); [|done].
  assert (Hnew : forall ty, fallbackShape
                   (mkCodeElement ty name f (index + 1) (index + 1) [])).
  { intros ty. repeat split; simpl; try lia. constructor. }
  destruct (sc_currentClass st1) as [k|]; simpl.
  - destruct (sc_currentIndent st1 <? indent); simpl.
    + apply Forall_alter; [done|]. intros cls _ (H1 & H2 & H3).
      repeat split; simpl; try done.
      apply Forall_app. split; [done|]. constructor; [|constructor].
      repeat split; simpl; (lia || done).
    + apply Forall_app. split; [done|]. by constructor.
  - apply Forall_app. split; [done|]. by constructor.
Qed.

Lemma scanLines_shape f lang lines : forall index st,
  Forall fallbackShape (sc_elements st) ->
  Forall fallbackShape (sc_elements (scanLines f lang lines index st)).
Proof.
  induction lines as [|line rest IH]; intros index st Hst; simpl; [done|].
  apply IH. by apply scanLine_shape.
Qed.

Lemma grammarTree_fallback parserReady languages parse content languageId :
  parserReady = false
  \/ getLanguage languages languageId = None
  \/ (exists grammar, getLanguage languages languageId = Some grammar
                      /\ parse grammar content = None) ->
  grammarTree parserReady languages parse content languageId = None.
Proof.
  unfold grammarTree. intros [->|[->|(grammar & -> & ->)]]; [done| |].
  - by destruct parserReady.
  - by destruct parserReady.
Qed.

(** C7: on the grammar path, every element spans its lines in order, and so
    do its children; the top-level elements are, in pre-order, the elements
    of the nodes that are not method nodes under a class, the children are
    the elements of the method nodes under a class, and every node with an
    element is counted once, in one of the two places. *)
Theorem grammar_elements_ordered_and_counted_once
        parserReady languages parse filePath content languageId rootNode :
  grammarTree parserReady languages parse content languageId = Some rootNode ->
  rowsOrdered rootNode = true ->
  exists analysis,
    analyzeFile parserReady languages parse
                filePath content languageId = Some analysis
    /\ fa_elements analysis = extractElements rootNode filePath content
    /\ let elements := fa_elements analysis in
       let ctx := nodesInContext filePath content None false rootNode in
       Forall linesOrdered elements
       /\ map withoutChildren elements = omap (topLevelOf filePath content) ctx
       /\ concat (map el_children elements) ≡ₚ omap (nestedOf filePath content) ctx
       /\ (forall x, topLevelOf filePath content x = None
                     \/ nestedOf filePath content x = None)
       /\ (length elements + length (concat (map el_children elements))
           = length (omap (fun x => nodeToElement filePath content (snd x)) ctx))%nat.
Proof.
  intros Htree Hrows. unfold analyzeFile. rewrite Htree.
  eexists. split; [reflexivity|]. split; [reflexivity|]. cbv zeta. simpl.
  unfold extractElements.
  destruct (traverse_spec filePath content rootNode None false)
    as (A & B & _ & _ & E).
  destruct (traverse_rows filePath content rootNode None false Hrows) as [R _].
  rewrite (E eq_refl) in B. simpl in B.
  split; [done|]. split; [done|]. split; [done|]. split.
  - intros x. unfold topLevelOf, nestedOf. destruct (attached x); tauto.
  - rewrite <- (length_map withoutChildren), A, B.
    apply (omap_split_length attached).
Qed.

Lemma scanLine_found f lang all st index line :
  all !! index = Some line ->
  Forall (foundOnLines all) (sc_elements st) ->
  Forall (foundOnLines all) (sc_elements (scanLine f lang st index line)).
Proof.
  intros Hline Hst. unfold scanLine, scanStatements. cbn [sc_elements].
  destruct (_ || _); [|done].
  set (trimmed := Js.trim line). set (indent := Js.search_nonspace line).
  assert (Hc : Forall (foundOnLines all)
                 (sc_elements (scanClass f index trimmed indent st))).
  { unfold scanClass. destruct (classMatch trimmed) as [name|] eqn:E; [|done].
    cbn [sc_elements]. apply Forall_app. split; [done|].
    constructor; [|constructor]. split; [|constructor].
    exists index, line. repeat split; try done. left. by split. }
  generalize dependent (scanClass f index trimmed indent st).
  intros st1 Hc. unfold scanMethod.
  destruct (methodMatch trimmed) as [name|] eqn:E; [|done].
  destruct (_ && _); [|done].
  assert (Hnew : foundOnLine all
            (mkCodeElement (if Js.includes trimmed "async"
                            then TAsyncFunction else TFunction)
                           name f (index + 1) (index + 1) [])).
  { exists index, line. repeat split; try done. right. split; [|done].
    unfold functionKind. simpl. destruct (Js.includes trimmed "async"); tauto. }
  destruct (sc_currentClass st1) as [k|]; cbn [sc_elements].
  - destruct (sc_currentIndent st1 <? indent); cbn [sc_elements].
    + apply Forall_alter; [done|]. intros cls _ [H1 H2].
      split; [done|]. simpl. apply Forall_app. split; [done|].
      by constructor.
    + apply Forall_app. split; [done|]. constructor; [|constructor].
      split; [done | constructor].
  - apply Forall_app. split; [done|]. constructor; [|constructor].
    split; [done | constructor].
Qed.

Lemma scanLines_found f lang all : forall todo seen st,
  all = seen ++ todo ->
  Forall (foundOnLines all) (sc_elements st) ->
  Forall (foundOnLines all) (sc_elements (scanLines f lang todo (length seen) st)).
Proof.
  induction todo as [|line todo IH]; intros seen st Hall Hst; simpl; [done|].
  specialize (IH (seen ++ [line]) (scanLine f lang st (length seen) line)).
  rewrite length_app in IH. simpl in IH. rewrite Nat.add_1_r in IH.
  apply IH.
  - by rewrite <- app_assoc.
  - apply scanLine_found; [|done]. subst all. by rewrite list_lookup_middle.
Qed.

(** C9: when no parser, no grammar or no tree is available, the analysis is
    the one of the regex fallback.  Each of its elements and children was
    read off one line of the text: its line number is the position of
    that line counted from 1 (the first line is line 1), the line is one
    on which the class or the method pattern finds the element's name, and
    the element ends on the line it starts on.  An initialized analyzer
    that holds this parser state and these grammars answers a call of
    [analyzeFile] with that analysis. *)
Theorem fallback_elements_one_line
        parserReady languages parse filePath content languageId :
  parserReady = false
  \/ getLanguage languages languageId = None
  \/ (exists grammar, getLanguage languages languageId = Some grammar
                      /\ parse grammar content = None) ->
  exists analysis,
    analyzeFile parserReady languages parse
                filePath content languageId = Some analysis
    /\ analysis = analyzeFileRegex filePath content languageId
    /\ fa_file analysis = filePath
    /\ Forall fallbackShape (fa_elements analysis)
    /\ Forall (foundOnLines (Js.split "010" content)) (fa_elements analysis)
    /\ (forall rt st,
          as_initialized st = true ->
          as_parser st = parserReady ->
          as_languages st = languages ->
          analyzeFileIn rt parse st filePath content languageId
          = (st, Some (Some analysis))).
Proof.
  intros Hno%grammarTree_fallback.
  exists (analyzeFileRegex filePath content languageId).
  assert (Han : analyzeFile parserReady languages parse filePath content languageId
                = Some (analyzeFileRegex filePath content languageId)).
  { unfold analyzeFile. by rewrite Hno. }
  split; [done|]. split; [reflexivity|]. split; [reflexivity|].
  unfold analyzeFileRegex at 1 2. cbn [fa_elements]. split; [|split].
  - apply scanLines_shape. constructor.
  - exact (scanLines_found filePath languageId (Js.split "010" content)
             (Js.split "010" content) [] (mkRegexScan [] None 0 [] [])
             eq_refl (Forall_nil_2 _)).
  - intros rt st Hi Hp Hl. unfold analyzeFileIn, initializeSettles.
    rewrite Hi, Hp, Hl. simpl. by rewrite Han.
Qed.

(** *** The scenario of the specification *)

Import Samples.

Example foo_class_elements :
  extractElements fooTree "a.ts" fooSource
  = [mkCodeElement TClass "Foo" "a.ts" 1 12
       [mkCodeElement TMethod "bar" "a.ts" 5 7 [];
        mkCodeElement TMethod "baz" "a.ts" 9 11 []]].
Proof. reflexivity. Qed.

(** An exported class is seen twice, at the export statement and at the
    declaration below it; its methods are attached once, to the second. *)
Example exported_class_elements :
  extractElements exportedFooTree "a.ts" fooSource
  = [mkCodeElement TClass "Foo" "a.ts" 1 12 [];
     mkCodeElement TClass "Foo" "a.ts" 1 12
       [mkCodeElement TMethod "bar" "a.ts" 5 7 [];
        mkCodeElement TMethod "baz" "a.ts" 9 11 []]].
Proof. reflexivity. Qed.

Lemma grammar_elements_witness :
  Forall linesOrdered (extractElements fooTree "a.ts" fooSource).
Proof.
  destruct (grammar_elements_ordered_and_counted_once
              true ["typescript"] (fun _ _ => Some fooTree) "a.ts" fooSource "typescript" fooTree
              eq_refl eq_refl)
    as (analysis & _ & Hel & Hord & _).
  rewrite <- Hel. exact Hord.
Defined.

Lemma fallback_elements_witness :
  Forall fallbackShape
         (fa_elements (analyzeFileRegex "a.ts" fallbackSource "typescript"))
  /\ Forall (foundOnLines (Js.split "010" fallbackSource))
            (fa_elements (analyzeFileRegex "a.ts" fallbackSource "typescript")).
Proof.
  destruct (fallback_elements_one_line
              false [] (fun _ _ => None)
              "a.ts" fallbackSource "typescript" (or_introl eq_refl))
    as (analysis & _ & Heq & _ & Hshape & Hfound & _).
  rewrite <- Heq. by split.
Defined.

(** *** Discovery *)

Lemma prioritizeFiles_perm files : prioritizeFiles files ≡ₚ files.
Proof.
  unfold prioritizeFiles. rewrite sortDescending_perm.
  rewrite <- list_fmap_compose. induction files; simpl; [done | by f_equiv].
Qed.

Lemma analyzeFile_file pr langs parse path content lang analysis :
  analyzeFile pr langs parse path content lang = Some analysis ->
  fa_file analysis = path.
Proof.
  unfold analyzeFile. destruct (grammarTree _ _ _ _ _); by intros [= <-].
Qed.

Lemma analysed_sublist pr langs parse openDoc (l : list string) :
  fa_file <$> omap (analyzeOne pr langs parse openDoc) l `sublist_of` l.
Proof.
  induction l as [|path l IH]; simpl; [done|].
  destruct (analyzeOne pr langs parse openDoc path) as [analysis|] eqn:E.
  - unfold analyzeOne in E. destruct (openDoc path) as [[text lang]|]; [|done].
    apply analyzeFile_file in E. simpl. rewrite E. by apply sublist_skip.
  - by apply sublist_cons.
Qed.

Lemma excludeGlob_expand :
  Glob.expand (S (String.length excludeGlob)) excludeGlob = excludePatterns.
Proof. vm_compute. reflexivity. Qed.

Lemma noise_directory_excluded directory path :
  directory ∈ noiseDirectories ->
  directory ∈ Js.split "/" path ->
  Glob.matches excludeGlob path = true.
Proof.
  intros Hd Hin.
  apply (GlobFacts.matches_alternative _ ("**/" +:+ directory +:+ "/**")).
  - rewrite excludeGlob_expand. unfold noiseDirectories in Hd.
    repeat (apply elem_of_cons in Hd as [->|Hd]; [vm_compute; repeat constructor|]).
    by apply elem_of_nil in Hd.
  - assert (Hs : Js.split "/" ("**/" +:+ directory +:+ "/**")
                 = ["**"; directory; "**"]
                 /\ directory <> "**"
                 /\ Glob.matchSegment directory directory = true).
    { unfold noiseDirectories in Hd.
      repeat (apply elem_of_cons in Hd as [->|Hd];
              [split; [vm_compute; reflexivity|split; [discriminate|vm_compute; reflexivity]]|]).
      by apply elem_of_nil in Hd. }
    destruct Hs as (-> & Hne & Hrefl).
    by apply GlobFacts.matchSegments_directory.
Qed.

Lemma noise_marker_excluded marker before after path :
  marker ∈ noiseMarkers ->
  last (Js.split "/" path) = Some (before +:+ marker +:+ after) ->
  Glob.matches excludeGlob path = true.
Proof.
  intros Hm Hlast.
  apply (GlobFacts.matches_alternative _ ("**/*" +:+ marker +:+ "*")).
  - rewrite excludeGlob_expand. unfold noiseMarkers in Hm.
    repeat (apply elem_of_cons in Hm as [->|Hm]; [vm_compute; repeat constructor|]).
    by apply elem_of_nil in Hm.
  - assert (Hs : Js.split "/" ("**/*" +:+ marker +:+ "*")
                 = ["**"; String "*" (marker +:+ "*")]
                 /\ String "*" (marker +:+ "*") <> "**"
                 /\ Regex.everyChar (fun a => negb (bool_decide (a = "*"%char)))
                                    marker = true).
    { unfold noiseMarkers in Hm.
      repeat (apply elem_of_cons in Hm as [->|Hm];
              [split; [vm_compute; reflexivity|split; [discriminate|vm_compute; reflexivity]]|]).
      by apply elem_of_nil in Hm. }
    destruct Hs as (-> & Hne & Hplain).
    eapply GlobFacts.matchSegments_name; [done | exact Hlast |].
    by apply GlobFacts.matchSegment_marker.
Qed.

Lemma declaration_file_excluded before path :
  last (Js.split "/" path) = Some (before +:+ ".d.ts") ->
  Glob.matches excludeGlob path = true.
Proof.
  intros Hlast.
  apply (GlobFacts.matches_alternative _ "**/*.d.ts").
  - rewrite excludeGlob_expand. vm_compute. repeat constructor.
  - change (Js.split "/" "**/*.d.ts") with ["**"; "*.d.ts"].
    eapply GlobFacts.matchSegments_name; [done | exact Hlast |].
    by apply GlobFacts.matchSegment_suffix.
Qed.

(** Every noise file matches the exclude glob of [analyzeProject]. *)
Lemma noise_is_excluded path :
  noiseFile path -> Glob.matches excludeGlob path = true.
Proof.
  intros [(directory & Hd & Hin)|(name & Hlast & [(marker & before & after & Hm & ->)|[before ->]])].
  - by eapply noise_directory_excluded.
  - by eapply noise_marker_excluded.
  - by eapply declaration_file_excluded.
Qed.

Lemma kept_files_found findFiles maxFiles includeFileTypes uri :
  uri ∈ filesToAnalyze findFiles maxFiles includeFileTypes ->
  uri ∈ filter (fun uri => slippedThrough uri = false)
               (foundFiles findFiles maxFiles includeFileTypes).
Proof.
  unfold filesToAnalyze. destruct (maxFiles =? 0)%nat.
  - by rewrite prioritizeFiles_perm.
  - rewrite slice0_take. intros Hin.
    apply (subseteq_take maxFiles) in Hin.
    by rewrite prioritizeFiles_perm in Hin.
Qed.

(** C6: the editor is asked for the files that match the include pattern
    and not the exclude glob of the fifteen noise patterns.  With a limit
    of 0 the request has no cap and every found file that passes the
    second filter is kept; with a limit N the request is capped at 3 N
    candidates and the ordered list is cut to its first N entries.  The
    editor returning no file that matches the exclude glob it is given, no
    kept file is a noise file, nor one the second filter rejects; the
    analysed files are among the kept ones. *)
Theorem discovery_limit_and_exclusions
        parserReady languages parse findFiles openTextDocument
        rootPath maxFiles includeFileTypes :
  (forall include exclude n,
      (length (findFiles include exclude (Some n)) <= n)%nat) ->
  (forall include exclude cap uri,
      uri ∈ findFiles include exclude cap -> Glob.matches exclude uri = false) ->
  let found := foundFiles findFiles maxFiles includeFileTypes in
  let result := filesToAnalyze findFiles maxFiles includeFileTypes in
  let analysed :=
    fa_file <$> ps_files (analyzeProject parserReady languages parse findFiles
                            openTextDocument rootPath maxFiles includeFileTypes) in
  (maxFiles = 0%nat ->
     found = findFiles (includePattern includeFileTypes) excludeGlob None
     /\ result ≡ₚ filter (fun uri => slippedThrough uri = false) found)
  /\ (maxFiles <> 0%nat ->
        found = findFiles (includePattern includeFileTypes) excludeGlob
                          (Some (maxFiles * 3)%nat)
        /\ (length found <= 3 * maxFiles)%nat
        /\ result = take maxFiles
                      (prioritizeFiles
                         (filter (fun uri => slippedThrough uri = false) found))
        /\ (length result <= maxFiles)%nat
        /\ (length analysed <= maxFiles)%nat)
  /\ (forall uri, uri ∈ result ->
        uri ∈ found /\ slippedThrough uri = false
        /\ Glob.matches excludeGlob uri = false /\ ~ noiseFile uri)
  /\ analysed `sublist_of` result.
Proof.
  intros Hcap Hexcl found result analysed.
  assert (Hsub : analysed `sublist_of` result) by apply analysed_sublist.
  split; [|split; [|split]].
  - intros ->. split; [done|]. subst result. unfold filesToAnalyze. simpl.
    apply prioritizeFiles_perm.
  - intros Hne. subst found result.
    unfold filesToAnalyze, foundFiles, searchLimit in *.
    destruct (Nat.eqb_spec maxFiles 0) as [?|_]; [done|].
    split; [done|].
    split; [specialize (Hcap (includePattern includeFileTypes) excludeGlob
                             (maxFiles * 3)%nat); lia|].
    rewrite slice0_take. split; [done|].
    split.
    + rewrite length_take. lia.
    + rewrite slice0_take in Hsub. apply sublist_length in Hsub.
      rewrite length_take in Hsub. lia.
  - intros uri Huri%kept_files_found.
    apply list_elem_of_filter in Huri as [Hclean Hfound].
    assert (Hglob : Glob.matches excludeGlob uri = false).
    { by eapply Hexcl. }
    repeat split; try done.
    intros Hnoise%noise_is_excluded. congruence.
  - done.
Qed.

(** The structures the pipeline builds have no empty path, as long as the
    editor reports none. *)
Lemma analysed_paths_nonempty pr langs parse findFiles openDoc rootPath
      maxFiles includeFileTypes :
  (forall include exclude cap uri,
      uri ∈ findFiles include exclude cap -> uri <> EmptyString) ->
  Forall (fun f => fa_file f <> EmptyString)
         (ps_files (analyzeProject pr langs parse findFiles openDoc rootPath
                                   maxFiles includeFileTypes)).
Proof.
  intros Hhost. apply Forall_forall. intros f Hf.
  assert (Hin : fa_file f ∈ filesToAnalyze findFiles maxFiles includeFileTypes).
  { eapply elem_of_sublist; [|apply (analysed_sublist pr langs parse openDoc)].
    apply list_elem_of_fmap. by exists f. }
  apply kept_files_found, list_elem_of_filter in Hin as [_ Hin].
  by eapply Hhost.
Qed.

Lemma findAll_capped include exclude n :
  (length (findAll include exclude (Some n)) <= n)%nat.
Proof. simpl. rewrite length_take. lia. Qed.

Lemma findAll_excludes include exclude cap uri :
  uri ∈ findAll include exclude cap -> Glob.matches exclude uri = false.
Proof.
  intros Hin.
  assert (Hhit : uri ∈ filter (fun uri => Glob.matches include uri
                                          && negb (Glob.matches exclude uri) = true)
                              workspaceFiles).
  { destruct cap as [n|]; [|done]. by apply (subseteq_take n). }
  apply list_elem_of_filter in Hhit as [Hhit _].
  apply andb_true_iff in Hhit as [_ Hhit]. by apply negb_true_iff.
Qed.

Lemma discovery_witness :
  (length (filesToAnalyze findAll 1 sourceTypes) <= 1)%nat
  /\ filesToAnalyze findAll 0 sourceTypes
     ≡ₚ filter (fun uri => slippedThrough uri = false)
               (findAll (includePattern sourceTypes) excludeGlob None)
  /\ ~ noiseFile "src/index.ts".
Proof.
  split; [|split].
  - refine (proj1 (proj2 (proj2 (proj2 (proj1 (proj2
              (discovery_limit_and_exclusions
                 false [] (fun _ _ => None)
                 findAll openAll "/ws" 1 sourceTypes
                 findAll_capped findAll_excludes)) _))))).
    discriminate.
  - refine (proj2 (proj1 (discovery_limit_and_exclusions
              false [] (fun _ _ => None)
              findAll openAll "/ws" 0 sourceTypes
              findAll_capped findAll_excludes) _)).
    reflexivity.
  - refine (proj2 (proj2 (proj2 (proj1 (proj2 (proj2
              (discovery_limit_and_exclusions
                 false [] (fun _ _ => None)
                 findAll openAll "/ws" 0 sourceTypes
                 findAll_capped findAll_excludes))) "src/index.ts" _)))).
    vm_compute. repeat constructor.
Defined.

Example discovery_example :
  findAll (includePattern sourceTypes) excludeGlob None
  = ["src/util/helper.ts"; "src/index.ts"; "src/config/db.ts"; "lib/main.ts"]
  /\ filesToAnalyze findAll 0 sourceTypes
     = ["src/index.ts"; "lib/main.ts"; "src/util/helper.ts"]
  /\ filesToAnalyze findAll 1 sourceTypes = ["src/index.ts"].
Proof. vm_compute. repeat split. Qed.

(** The fallback on a small source: the class opens a context, the indented
    method is attached to it; a plain [function] declaration is not what the
    method pattern looks for. *)
Example fallback_example :
  fa_elements (analyzeFileRegex "a.ts" fallbackSource "typescript")
  = [mkCodeElement TClass "Foo" "a.ts" 1 1
       [mkCodeElement TAsyncFunction "bar" "a.ts" 2 2 []]].
Proof. vm_compute. reflexivity. Qed.

Example method_pattern_examples :
  methodMatch "async foo(a, b) {" = Some "foo"
  /\ methodMatch "if (x) {" = Some "if"
  /\ methodMatch "private static bar(): void {" = None
  /\ classMatch "export abstract class Foo extends Bar {" = Some "Foo".
Proof. vm_compute. repeat split. Qed.

End TreeSitterAnalyzerFacts.

(** ** The validator *)

Module TourGeneratorFacts.
Import Js TourGenerator.

Lemma validate_loop_spec steps structure rem : forall i acc,
  validate_loop steps structure i rem acc
  = acc ++ omap (stepAt steps structure) (seq i rem).
Proof.
  induction rem as [|rem IH]; intros i acc; simpl.
  - by rewrite app_nil_r.
  - unfold stepAt at 1. destruct (steps !! i) as [step|]; simpl.
    + destruct (validateStep structure i step) as [t|]; rewrite IH.
      * by rewrite <- app_assoc.
      * done.
    + by rewrite IH.
Qed.

Lemma validateAndRefineSteps_spec steps structure options :
  validateAndRefineSteps steps structure options
  = omap (stepAt steps structure) (seq 0 (processedCount steps options)).
Proof. unfold validateAndRefineSteps. by rewrite validate_loop_spec. Qed.

Lemma processedCount_le steps options :
  (processedCount steps options <= length steps)%nat.
Proof. unfold processedCount, slice0. rewrite length_take. lia. Qed.

(** The survivors of a run, as indices into the input. *)
Lemma omap_trace {A} (g : nat -> option A) (l : list nat) :
  StronglySorted lt l ->
  exists ks,
    StronglySorted lt ks
    /\ (forall k, k ∈ ks <-> k ∈ l /\ is_Some (g k))
    /\ Forall2 (fun k t => g k = Some t) ks (omap g l).
Proof.
  induction l as [|a l IH]; intros Hs.
  - exists []. split; [constructor|]. split; [|constructor].
    intros k; split; [by intros ?%elem_of_nil | by intros [?%elem_of_nil _]].
  - apply StronglySorted_inv in Hs as [Hs Ha].
    destruct (IH Hs) as (ks & Hks & Hin & Hf).
    simpl. destruct (g a) as [t|] eqn:Ega.
    + exists (a :: ks). split; [|split].
      * constructor; [done|]. rewrite Forall_forall in *.
        intros k Hk. apply Ha. apply Hin in Hk. tauto.
      * intros k. rewrite !elem_of_cons, Hin. split.
        -- intros [->|[? ?]]; [split; [by left | by rewrite Ega]| tauto].
        -- intros [[->|?] ?]; tauto.
      * by constructor.
    + exists ks. split; [done|split; [|done]].
      intros k. rewrite elem_of_cons, Hin. split; [tauto|].
      intros [[->|?] Hsome]; [|tauto].
      rewrite Ega in Hsome. by destruct Hsome.
Qed.

Lemma seq_StronglySorted i n : StronglySorted lt (seq i n).
Proof.
  revert i; induction n as [|n IH]; intros i; simpl; constructor; [apply IH|].
  apply Forall_forall. intros k Hk%elem_of_seq. lia.
Qed.

(** *** The file check *)

Lemma fileExists_spec structure file :
  fileExists structure file = true <-> file ∈ fa_file <$> ps_files structure.
Proof.
  unfold fileExists. rewrite existsb_exists, list_elem_of_fmap.
  split.
  - intros (f & Hin & Heq). apply bool_decide_eq_true in Heq.
    exists f. split; [done | by apply list_elem_of_In].
  - intros (f & -> & Hin). exists f.
    split; [by apply list_elem_of_In | by apply bool_decide_eq_true].
Qed.

(** The base name the code computes is the last segment, in lower case. *)
Lemma baseNameLower_last path :
  exists base,
    lastSegment path base
    /\ baseNameLower path = toLowerCase base
    /\ forall base', lastSegment path base' -> base' = base.
Proof.
  unfold baseNameLower, lastSegment.
  destruct (pop (split "/" path)) as [base|] eqn:E.
  - exists base. split; [by apply (JsFacts.pop_split "/")|]. split; [done|].
    intros base' H%(JsFacts.pop_split "/"). congruence.
  - unfold pop in E. apply last_None in E.
    by destruct (JsFacts.split_nonempty "/" path).
Qed.

Lemma sameBaseName_iff a b :
  sameBaseName a b <-> baseNameLower a = baseNameLower b.
Proof.
  destruct (baseNameLower_last a) as (x & Hx & -> & Hux).
  destruct (baseNameLower_last b) as (y & Hy & -> & Huy).
  unfold sameBaseName. split.
  - intros (x' & y' & ->%Hux & ->%Huy & E). done.
  - intros E. by exists x, y.
Qed.

Lemma findSimilarFile_Some target files p :
  findSimilarFile target files = Some p <-> firstBaseNameMatch target files p.
Proof.
  unfold findSimilarFile, firstBaseNameMatch.
  setoid_rewrite sameBaseName_iff.
  induction files as [|f files IH]; simpl.
  - split; [done|]. intros (before & g & after & H & _).
    by destruct before.
  - destruct (decide (baseNameLower (fa_file f) = baseNameLower target)) as [E|E].
    + split.
      * intros [= <-]. exists [], f, files. by repeat split.
      * intros (before & g & after & Hl & <- & Hm & Hb).
        destruct before as [|b before]; simpl in Hl.
        -- by injection Hl as -> _.
        -- injection Hl as -> _. by apply Forall_cons in Hb as [Hb _].
    + rewrite IH. split.
      * intros (before & g & after & -> & <- & Hm & Hb).
        exists (f :: before), g, after. repeat split; [done|]. by constructor.
      * intros (before & g & after & Hl & <- & Hm & Hb).
        destruct before as [|b before]; simpl in Hl.
        -- injection Hl as -> _. done.
        -- injection Hl as -> ->. apply Forall_cons in Hb as [_ Hb].
           exists before, g, after. by repeat split.
Qed.

Lemma findSimilarFile_None target files :
  findSimilarFile target files = None
  <-> Forall (fun g => ~ sameBaseName (fa_file g) target) files.
Proof.
  unfold findSimilarFile.
  setoid_rewrite sameBaseName_iff.
  induction files as [|f files IH]; simpl.
  - split; [constructor | done].
  - destruct (decide (baseNameLower (fa_file f) = baseNameLower target)) as [E|E].
    + split; [done|]. by intros [? _]%Forall_cons.
    + rewrite IH. split; [by constructor | by intros [_ ?]%Forall_cons].
Qed.

Lemma checkLine_file structure step :
  gs_file (checkLine structure step) = gs_file step.
Proof.
  unfold checkLine. destruct (gs_line step) as [l|]; [|done].
  destruct (truthyNumber l); [|done].
  destruct (fileExists structure (gs_file step)); [|done].
  by destruct (l <? 1).
Qed.

Lemma isWelcomeStep_spec i step :
  isWelcomeStep i step = true <-> i = 0%nat /\ titleContains step "Welcome".
Proof.
  unfold isWelcomeStep, titleContains. rewrite andb_true_iff, Nat.eqb_eq.
  destruct (gs_title step) as [t|].
  - rewrite JsFacts.includes_spec. split.
    + intros [-> (pre & post & ->)]. split; [done|]. by eexists _, pre, post.
    + intros [-> (t' & pre & post & [= <-] & ->)]. eauto.
  - split; [by intros [_ ?] | by intros [_ (? & ? & ? & ? & _)]].
Qed.

Lemma exempt_iff_isWelcomeStep i step :
  exemptFromFileCheck i step <-> isWelcomeStep i step = true.
Proof.
  unfold exemptFromFileCheck, validateStep, checkFile. split.
  - intros H.
    destruct (H (mkProjectStructure EmptyString [] [] ∅)) as (t & Ht & _).
    destruct (isWelcomeStep i step); [done|]. simpl in Ht. discriminate.
  - intros -> structure. simpl. eexists. split; [done|].
    simpl. apply checkLine_file.
Qed.

(** Against a structure without analysed files only an exempt step is
    pushed, as it came. *)
Lemma validateStep_no_files structure i step :
  ps_files structure = [] ->
  validateStep structure i step
  = if isWelcomeStep i step then Some (toCodeTourStep step) else None.
Proof.
  intros Hnone. unfold validateStep, checkFile, checkLine, fileExists, findSimilarFile.
  rewrite Hnone. simpl.
  destruct (isWelcomeStep i step); simpl; [|done].
  destruct (gs_line step) as [l|]; [|done]. by destruct (truthyNumber l).
Qed.

Lemma omap_stepAt_later steps structure i n :
  ps_files structure = [] ->
  omap (stepAt steps structure) (seq (S i) n) = [].
Proof.
  intros Hnone. revert i. induction n as [|n IH]; intros i; [done|].
  cbn [seq]. change (omap ?g (?x :: ?r))
    with (match g x with Some y => y :: omap g r | None => omap g r end).
  rewrite IH. unfold stepAt. destruct (steps !! S i) as [st|]; [|done].
  simpl. by rewrite validateStep_no_files.
Qed.

(** C1: the loop hands each processed step to the body at its own index,
    and pushes what the body gives, in order.  In the body a step is
    exempt from the file check exactly when it sits at index 0 and its
    title contains the marker text; so at most one step of a list is
    exempt, and only at index 0; and a step at index 0 without the marker
    is checked as at any other index (in particular it is dropped when its
    file is unknown and no base name matches).  For the run this means: a
    first step with the marker heads the output with its file untouched,
    whatever files were analysed; and against a structure without analysed
    files nothing but that step, as it came, is ever emitted. *)
Theorem welcome_exemption_only_at_index_zero steps options :
  (forall structure,
      validateAndRefineSteps steps structure options
      = omap (stepAt steps structure) (seq 0 (processedCount steps options)))
  /\ (forall i step,
        exemptFromFileCheck i step
        <-> i = 0%nat /\ titleContains step "Welcome")
  /\ (forall i j si sj,
        steps !! i = Some si -> steps !! j = Some sj ->
        exemptFromFileCheck i si -> exemptFromFileCheck j sj ->
        i = 0%nat /\ j = 0%nat /\ si = sj)
  /\ (forall step structure,
        ~ titleContains step "Welcome" ->
        (forall k, validateStep structure 0 step = validateStep structure (S k) step)
        /\ (gs_file step ∉ fa_file <$> ps_files structure ->
            findSimilarFile (gs_file step) (ps_files structure) = None ->
            validateStep structure 0 step = None))
  /\ (forall structure step,
        steps !! 0%nat = Some step ->
        (0 < processedCount steps options)%nat ->
        titleContains step "Welcome" ->
        exists t others,
          validateAndRefineSteps steps structure options = t :: others
          /\ ts_file t = gs_file step)
  /\ (forall structure,
        ps_files structure = [] ->
        (length (validateAndRefineSteps steps structure options) <= 1)%nat
        /\ forall t,
             t ∈ validateAndRefineSteps steps structure options ->
             exists step,
               steps !! 0%nat = Some step
               /\ titleContains step "Welcome"
               /\ t = toCodeTourStep step).
Proof.
  split; [intros structure; apply validateAndRefineSteps_spec|].
  split; [|split; [|split; [|split]]].
  - intros i step. by rewrite exempt_iff_isWelcomeStep, isWelcomeStep_spec.
  - intros i j si sj Hi Hj Hei Hej.
    apply exempt_iff_isWelcomeStep, isWelcomeStep_spec in Hei as [-> _].
    apply exempt_iff_isWelcomeStep, isWelcomeStep_spec in Hej as [-> _].
    repeat split; congruence.
  - intros step structure Hno.
    assert (Hw : isWelcomeStep 0 step = false).
    { destruct (isWelcomeStep 0 step) eqn:E; [|done].
      apply isWelcomeStep_spec in E as [_ E]. contradiction. }
    split.
    + intros k. unfold validateStep, checkFile. rewrite Hw. done.
    + intros Hnotin Hnone. unfold validateStep, checkFile. rewrite Hw. simpl.
      destruct (fileExists structure (gs_file step)) eqn:E.
      * apply fileExists_spec in E. contradiction.
      * by rewrite Hnone.
  - intros structure step Hstep Hn Hw.
    rewrite validateAndRefineSteps_spec.
    destruct (processedCount steps options) as [|n]; [lia|].
    cbn [seq]. change (omap ?g (?x :: ?r))
      with (match g x with Some y => y :: omap g r | None => omap g r end).
    unfold stepAt at 1. rewrite Hstep. simpl.
    assert (Hi : isWelcomeStep 0 step = true) by (by apply isWelcomeStep_spec).
    unfold validateStep, checkFile. rewrite Hi. simpl.
    eexists _, _. split; [reflexivity|]. simpl. apply checkLine_file.
  - intros structure Hnone.
    rewrite validateAndRefineSteps_spec.
    destruct (processedCount steps options) as [|n]; [split; [simpl; lia|]|].
    { intros t Ht. by apply elem_of_nil in Ht. }
    cbn [seq]. change (omap ?g (?x :: ?r))
      with (match g x with Some y => y :: omap g r | None => omap g r end).
    rewrite omap_stepAt_later by done.
    unfold stepAt. destruct (steps !! 0%nat) as [step|] eqn:Hstep; simpl.
    + rewrite validateStep_no_files by done.
      destruct (isWelcomeStep 0 step) eqn:Hw.
      * split; [simpl; lia|]. intros t ->%list_elem_of_singleton.
        exists step. apply isWelcomeStep_spec in Hw as [_ Hw]. done.
      * split; [simpl; lia|]. intros t Ht. by apply elem_of_nil in Ht.
    + split; [simpl; lia|]. intros t Ht. by apply elem_of_nil in Ht.
Qed.

Lemma stepAt_lookup steps structure i step :
  steps !! i = Some step ->
  stepAt steps structure i = validateStep structure i step.
Proof. unfold stepAt. by intros ->. Qed.

Lemma stepAt_trace steps structure options :
  exists ks,
    StronglySorted lt ks
    /\ (forall k, k ∈ ks <->
          (k < processedCount steps options)%nat
          /\ is_Some (stepAt steps structure k))
    /\ Forall2 (fun k t => stepAt steps structure k = Some t)
               ks (validateAndRefineSteps steps structure options).
Proof.
  rewrite validateAndRefineSteps_spec.
  destruct (omap_trace (stepAt steps structure)
              (seq 0 (processedCount steps options))
              (seq_StronglySorted _ _)) as (ks & Hs & Hin & Hf).
  exists ks. split; [done|]. split; [|done].
  intros k. rewrite Hin, elem_of_seq. split; intros [? ?]; split; (lia || done).
Qed.

(** C2: a processed, non-exempt step whose file is unknown is emitted with
    its file rewritten to the first known path with the same base name up
    to case, and is dropped when no known path matches; the output lists
    what the surviving iterations pushed, in increasing input index. *)
Theorem unknown_file_remapped_or_dropped steps structure options :
  Forall (fun f => fa_file f <> EmptyString) (ps_files structure) ->
  (forall i step,
      steps !! i = Some step ->
      (i < processedCount steps options)%nat ->
      ~ exemptFromFileCheck i step ->
      gs_file step ∉ fa_file <$> ps_files structure ->
      (forall p,
          firstBaseNameMatch (gs_file step) (ps_files structure) p ->
          exists t, stepAt steps structure i = Some t /\ ts_file t = p)
      /\ (Forall (fun g => ~ sameBaseName (fa_file g) (gs_file step))
                 (ps_files structure) ->
          stepAt steps structure i = None))
  /\ exists ks,
       StronglySorted lt ks
       /\ (forall k, k ∈ ks <->
             (k < processedCount steps options)%nat
             /\ is_Some (stepAt steps structure k))
       /\ Forall2 (fun k t => stepAt steps structure k = Some t)
                  ks (validateAndRefineSteps steps structure options).
Proof.
  intros Hpaths. split; [|apply stepAt_trace].
  intros i step Hi _ Hex Hnotin.
  rewrite (stepAt_lookup _ _ _ _ Hi).
  assert (Hw : isWelcomeStep i step = false).
  { destruct (isWelcomeStep i step) eqn:E; [|done].
    apply exempt_iff_isWelcomeStep in E. contradiction. }
  assert (Hx : fileExists structure (gs_file step) = false).
  { destruct (fileExists structure (gs_file step)) eqn:E; [|done].
    apply fileExists_spec in E. contradiction. }
  unfold validateStep, checkFile. rewrite Hw, Hx. simpl. split.
  - intros p Hp. pose proof Hp as (before & f & after & Hl & Hf & _).
    apply findSimilarFile_Some in Hp. rewrite Hp.
    assert (Hne : p <> EmptyString).
    { rewrite Forall_forall in Hpaths. rewrite <- Hf. apply Hpaths.
      rewrite Hl. apply elem_of_app. right. by left. }
    unfold truthyString. rewrite bool_decide_eq_true_2 by done.
    simpl. eexists. split; [done|]. simpl. by rewrite checkLine_file.
  - intros Hnone. apply findSimilarFile_None in Hnone. by rewrite Hnone.
Qed.

(** *** Frame and line check *)

Lemma checkFile_inv structure i step step1 :
  checkFile structure i step = Some step1 ->
  gs_title step1 = gs_title step
  /\ gs_description step1 = gs_description step
  /\ gs_selection step1 = gs_selection step
  /\ gs_line step1 = gs_line step
  /\ (gs_file step1 = gs_file step
      \/ (isWelcomeStep i step = false
          /\ (gs_file step ∉ fa_file <$> ps_files structure)
          /\ findSimilarFile (gs_file step) (ps_files structure)
             = Some (gs_file step1))).
Proof.
  unfold checkFile. destruct (isWelcomeStep i step); simpl.
  { intros [= <-]. tauto. }
  destruct (fileExists structure (gs_file step)) eqn:Hx.
  { intros [= <-]. tauto. }
  destruct (findSimilarFile _ _) as [p|] eqn:Hp; [|done].
  destruct (truthyString p); [|done].
  intros [= <-]. simpl. repeat split; try done. right.
  repeat split; try done. intros Hin%fileExists_spec. congruence.
Qed.

Lemma checkLine_inv structure step :
  gs_title (checkLine structure step) = gs_title step
  /\ gs_description (checkLine structure step) = gs_description step
  /\ gs_selection (checkLine structure step) = gs_selection step.
Proof.
  unfold checkLine. destruct (gs_line step) as [l|]; [|done].
  destruct (truthyNumber l); [|done].
  destruct (fileExists structure (gs_file step)); [|done].
  by destruct (l <? 1).
Qed.

Lemma emitted_line structure step :
  ts_line (toCodeTourStep (checkLine structure step))
  = match gs_line step with
    | Some l =>
        if bool_decide (l = 0) then None
        else Some (if (l <? 1) && fileExists structure (gs_file step)
                   then 1 else l)
    | None => None
    end.
Proof.
  unfold checkLine, toCodeTourStep, truthyNumber.
  destruct (gs_line step) as [l|] eqn:Hl; simpl; [|by rewrite Hl].
  destruct (decide (l = 0)) as [->|Hne].
  - simpl. by rewrite Hl.
  - rewrite (bool_decide_eq_true_2 (l <> 0)) by done.
    rewrite (bool_decide_eq_false_2 (l = 0)) by done.
    destruct (fileExists structure (gs_file step)), (l <? 1) eqn:Hlt;
      simpl; rewrite ?Hl; simpl;
      rewrite ?(bool_decide_eq_true_2 (l <> 0)) by done;
      rewrite ?(bool_decide_eq_true_2 (1 <> 0)) by done; done.
Qed.

Lemma emitted_iff steps structure options t :
  t ∈ validateAndRefineSteps steps structure options
  <-> exists k st,
        (k < processedCount steps options)%nat
        /\ steps !! k = Some st
        /\ validateStep structure k st = Some t.
Proof.
  rewrite validateAndRefineSteps_spec, list_elem_of_omap. split.
  - intros (k & Hk%elem_of_seq & Ht). unfold stepAt in Ht.
    destruct (steps !! k) as [st|] eqn:Hst; [|done].
    exists k, st. split; [lia|done].
  - intros (k & st & Hk & Hst & Ht). exists k.
    split; [apply elem_of_seq; lia|]. unfold stepAt. by rewrite Hst.
Qed.

Lemma validateStep_inv structure k st t :
  validateStep structure k st = Some t ->
  ts_title t = gs_title st
  /\ ts_description t = gs_description st
  /\ ts_selection t = gs_selection st
  /\ (ts_file t = gs_file st
      \/ findSimilarFile (gs_file st) (ps_files structure) = Some (ts_file t))
  /\ ts_line t
     = match gs_line st with
       | Some l =>
           if bool_decide (l = 0) then None
           else Some (if (l <? 1) && fileExists structure (ts_file t)
                      then 1 else l)
       | None => None
       end.
Proof.
  unfold validateStep. intros Hv.
  destruct (checkFile structure k st) as [st1|] eqn:Hc; [|done].
  simpl in Hv. injection Hv as <-.
  apply checkFile_inv in Hc as (Ht & Hd & Hsel & Hl & Hfile).
  destruct (checkLine_inv structure st1) as (Ht' & Hd' & Hsel').
  rewrite emitted_line.
  change (ts_title (toCodeTourStep (checkLine structure st1)))
    with (gs_title (checkLine structure st1)).
  change (ts_description (toCodeTourStep (checkLine structure st1)))
    with (gs_description (checkLine structure st1)).
  change (ts_selection (toCodeTourStep (checkLine structure st1)))
    with (gs_selection (checkLine structure st1)).
  change (ts_file (toCodeTourStep (checkLine structure st1)))
    with (gs_file (checkLine structure st1)).
  rewrite Ht', Hd', Hsel', checkLine_file, Ht, Hd, Hsel, Hl.
  repeat split; try done.
  destruct Hfile as [->|(_ & _ & ->)]; tauto.
Qed.

(** C10: every emitted step comes from a processed input step, and the
    step pushed for an input step carries that step's title, description
    and selection; its file is the input file or the base-name match, and
    its line is the input line, 1, or absent. *)
Theorem surviving_step_frame steps structure options :
  (forall t,
      t ∈ validateAndRefineSteps steps structure options ->
      exists k st,
        (k < processedCount steps options)%nat
        /\ steps !! k = Some st
        /\ validateStep structure k st = Some t)
  /\ (forall k st t,
        (k < processedCount steps options)%nat ->
        steps !! k = Some st ->
        validateStep structure k st = Some t ->
        t ∈ validateAndRefineSteps steps structure options
        /\ ts_title t = gs_title st
        /\ ts_description t = gs_description st
        /\ ts_selection t = gs_selection st
        /\ (ts_file t = gs_file st
            \/ findSimilarFile (gs_file st) (ps_files structure)
               = Some (ts_file t))
        /\ (ts_line t = gs_line st \/ ts_line t = Some 1 \/ ts_line t = None)).
Proof.
  split.
  - intros t Ht. by apply emitted_iff.
  - intros k st t Hk Hst Hv.
    split; [apply emitted_iff; eauto|].
    apply validateStep_inv in Hv as (Ht & Hd & Hsel & Hfile & Hline).
    repeat split; try done.
    rewrite Hline. destruct (gs_line st) as [l|]; [|tauto].
    case_bool_decide; [tauto|].
    destruct ((l <? 1) && fileExists structure (ts_file t)); tauto.
Qed.

(** C8, as the code has it: a line that is present and not 0 is emitted
    as 1 when it is below 1 and the emitted file is one of the analysed
    files, and is emitted unchanged otherwise; an absent line stays
    absent. *)
Theorem line_clamped_when_file_known steps structure options :
  (forall t,
      t ∈ validateAndRefineSteps steps structure options ->
      exists k st,
        (k < processedCount steps options)%nat
        /\ steps !! k = Some st
        /\ validateStep structure k st = Some t)
  /\ (forall k st t,
        (k < processedCount steps options)%nat ->
        steps !! k = Some st ->
        validateStep structure k st = Some t ->
        t ∈ validateAndRefineSteps steps structure options
        /\ match gs_line st with
           | Some l =>
               l <> 0 ->
               ts_line t
               = Some (if (l <? 1) && fileExists structure (ts_file t)
                       then 1 else l)
           | None => ts_line t = None
           end).
Proof.
  split.
  - intros t Ht. by apply emitted_iff.
  - intros k st t Hk Hst Hv.
    split; [apply emitted_iff; eauto|].
    apply validateStep_inv in Hv as (_ & _ & _ & _ & Hline).
    rewrite Hline. destruct (gs_line st) as [l|]; [|done].
    intros Hne. by rewrite bool_decide_eq_false_2.
Qed.

(** *** The scenarios of the specification, and the edge cases *)

Import Samples.

(** An unknown file with no base-name match: the output is empty. *)
Example unresolvable_step_dropped :
  validateAndRefineSteps [missingStep] structureA defaults = [].
Proof. reflexivity. Qed.

(** A welcome step with an empty file at index 0 is kept as it is. *)
Example welcome_step_kept :
  validateAndRefineSteps [welcomeStep; missingStep] structureA defaults
  = [mkCodeTourStep (Some "Welcome") EmptyString "intro" (Some 1) None].
Proof. reflexivity. Qed.

(** The same welcome step at index 1 is checked like any other step. *)
Example welcome_step_not_first :
  validateAndRefineSteps [missingStep; welcomeStep] structureA defaults = [].
Proof. reflexivity. Qed.

Example remap_example :
  validateAndRefineSteps [welcomeStep; helperStep; missingStep; zeroLineStep]
                         structureA defaults
  = [mkCodeTourStep (Some "Welcome") EmptyString "intro" (Some 1) None;
     mkCodeTourStep (Some "Helper") "src/Utils/Helper.ts" "d" (Some 1) None;
     mkCodeTourStep (Some "Real") "src/real.ts" "d" None None].
Proof. reflexivity. Qed.

(** Letter case is folded outside ASCII too: a base name in accented
    capitals matches the same name in small letters. *)
Example accented_base_name_example :
  text "docs/ÉTÉ.ts" = "docs/" +:+ capitalE +:+ "T" +:+ capitalE +:+ ".ts"
  /\ toLowerCase (text "ÉTÉ") = text "été"
  /\ findSimilarFile (text "docs/ÉTÉ.ts") [sourceFile (text "src/été.ts")]
     = Some (text "src/été.ts")
  /\ validateAndRefineSteps
       [mkGeneratedTourStep (Some "x") (text "docs/ÉTÉ.ts") (Some 3) "d" None]
       (mkProjectStructure "/ws" [sourceFile (text "src/été.ts")] [] ∅) defaults
     = [mkCodeTourStep (Some "x") (text "src/été.ts") "d" (Some 3) None].
Proof. vm_compute. repeat split. Qed.

(** C8 as stated fails twice.  A line of 0 is present and below 1, yet the
    emitted step has no line at all; and the exempt welcome step, whose
    file is not an analysed file, keeps its negative line. *)
Lemma line_below_one_not_always_clamped :
  (gs_line zeroLineStep = Some 0
   /\ 0 < 1
   /\ validateAndRefineSteps [zeroLineStep] structureA defaults
      = [mkCodeTourStep (Some "Real") "src/real.ts" "d" None None])
  /\ (gs_line welcomeReadme = Some (-2)
      /\ -2 < 1
      /\ validateAndRefineSteps [welcomeReadme] structureA defaults
         = [mkCodeTourStep (Some "Welcome to ws") "README.md" "intro"
                           (Some (-2)) None]).
Proof. repeat split. Qed.

Lemma not_welcome_titled (step : GeneratedTourStep) :
  isWelcomeStep 0 step = false -> ~ titleContains step "Welcome".
Proof.
  intros Hf Ht.
  assert (isWelcomeStep 0 step = true) by (by apply isWelcomeStep_spec).
  congruence.
Qed.

Lemma not_exempt i (step : GeneratedTourStep) :
  isWelcomeStep i step = false -> ~ exemptFromFileCheck i step.
Proof. intros Hf Ht%exempt_iff_isWelcomeStep. congruence. Qed.

Lemma not_known structure file :
  fileExists structure file = false -> file ∉ fa_file <$> ps_files structure.
Proof. intros Hf Ht%fileExists_spec. congruence. Qed.

Lemma welcome_exemption_witness :
  exemptFromFileCheck 0 welcomeStep
  /\ validateStep structureA 0 missingStep = None
  /\ exists t others,
       validateAndRefineSteps [welcomeReadme; missingStep; helperStep]
                              structureA defaults
       = t :: others
       /\ ts_file t = "README.md".
Proof.
  destruct (welcome_exemption_only_at_index_zero
              [welcomeReadme; missingStep; helperStep] defaults)
    as (_ & Hiff & _ & Hplain & Hfirst & _).
  split; [|split].
  - apply Hiff. split; [reflexivity|].
    exists "Welcome", EmptyString, EmptyString. split; reflexivity.
  - apply Hplain.
    + apply not_welcome_titled. reflexivity.
    + apply not_known. reflexivity.
    + reflexivity.
  - apply (Hfirst structureA welcomeReadme).
    + reflexivity.
    + vm_compute. lia.
    + exists "Welcome to ws", EmptyString, " to ws". split; reflexivity.
Defined.

Lemma unknown_file_witness :
  Forall (fun f => fa_file f <> EmptyString) (ps_files structureA)
  /\ (exists t,
        stepAt [welcomeStep; helperStep; missingStep] structureA 1 = Some t
        /\ ts_file t = "src/Utils/Helper.ts")
  /\ stepAt [welcomeStep; helperStep; missingStep] structureA 2 = None.
Proof.
  assert (Hpaths : Forall (fun f => fa_file f <> EmptyString)
                          (ps_files structureA)).
  { repeat constructor; discriminate. }
  destruct (unknown_file_remapped_or_dropped
              [welcomeStep; helperStep; missingStep] structureA defaults Hpaths)
    as [Hstep _].
  split; [exact Hpaths|]. split.
  - refine (proj1 (Hstep 1%nat helperStep _ _ _ _) _ _).
    + reflexivity.
    + vm_compute. lia.
    + apply not_exempt. reflexivity.
    + apply not_known. reflexivity.
    + exists [sourceFile "src/real.ts"], (sourceFile "src/Utils/Helper.ts"), [].
      split; [reflexivity|]. split; [reflexivity|].
      split; [apply sameBaseName_iff; reflexivity|].
      constructor; [|constructor]. intros H%sameBaseName_iff. discriminate.
  - refine (proj2 (Hstep 2%nat missingStep _ _ _ _) _).
    + reflexivity.
    + vm_compute. lia.
    + apply not_exempt. reflexivity.
    + apply not_known. reflexivity.
    + repeat (constructor; [intros H%sameBaseName_iff; discriminate|]).
      constructor.
Defined.

Lemma surviving_step_frame_witness :
  ts_title (mkCodeTourStep (Some "Helper") "src/Utils/Helper.ts" "d" (Some 1) None)
  = gs_title helperStep.
Proof.
  refine (proj1 (proj2 (proj2 (surviving_step_frame
            [welcomeStep; helperStep] structureA defaults)
            1%nat helperStep _ _ _ _))).
  - vm_compute. lia.
  - reflexivity.
  - reflexivity.
Defined.

Lemma line_clamp_witness :
  -4 <> 0
  /\ ts_line (mkCodeTourStep (Some "Helper") "src/Utils/Helper.ts" "d" (Some 1) None)
     = Some 1.
Proof.
  split; [discriminate|].
  refine (proj2 (proj2 (line_clamped_when_file_known
            [welcomeStep; helperStep] structureA defaults)
            1%nat helperStep _ _ _ _) _).
  - vm_compute. lia.
  - reflexivity.
  - reflexivity.
  - discriminate.
Defined.

End TourGeneratorFacts.

(** ** The batch generator *)

(** ** The batch generator *)

Module BatchTourGeneratorFacts.
Import Js BatchTourGenerator.
Local Arguments String.append !_ _ : simpl nomatch.

Lemma string_app_assoc (a b c : string) : (a +:+ b) +:+ c = a +:+ b +:+ c.
Proof. induction a as [|x a IH]; [done|]. simpl. by rewrite IH. Qed.

Lemma string_length_app (a b : string) :
  String.length (a +:+ b) = (String.length a + String.length b)%nat.
Proof. induction a as [|x a IH]; [done|]. simpl. by rewrite IH. Qed.

Lemma takeString_app (a b : string) :
  Regex.takeString (String.length a) (a +:+ b) = a.
Proof. induction a as [|x a IH]; simpl; [by destruct b | by rewrite IH]. Qed.

Lemma dropString_app (a b : string) :
  Regex.dropString (String.length a) (a +:+ b) = b.
Proof. induction a as [|x a IH]; simpl; [by destruct b | done]. Qed.

Lemma upToLastClose_prefix s r :
  upToLastClose s = Some r -> exists post, s = r +:+ post.
Proof.
  revert r. induction s as [|a s IH]; intros r; simpl; [done|].
  destruct (upToLastClose s) as [r'|].
  - intros [= <-]. destruct (IH r' eq_refl) as [post ->]. by exists post.
  - destruct (decide (a = "]"%char)); [|done]. intros [= <-]. by exists s.
Qed.

Lemma starLoop_any_close c : forall s n before,
  (String.length s < n)%nat ->
  Regex.starLoop (Regex.run Regex.any) true
                 (fun p c => Regex.run (Regex.chr "]") p c (fun p' c' => Some (p', c'))) n
                 (Regex.mkPos before s) c
  = match upToLastClose s with
    | Some r => Some (Regex.mkPos (Some "]"%char) (Regex.dropString (String.length r) s), c)
    | None => None
    end.
Proof.
  induction s as [|a s IH]; intros n before Hn; (destruct n as [|n]; [simpl in Hn; lia|]).
  - done.
  - simpl in Hn. cbn [Regex.starLoop Regex.run Regex.any Regex.rest].
    cbn [String.length]. rewrite (proj2 (Nat.ltb_lt _ _)) by lia.
    fold (Regex.starLoop (Regex.run Regex.any) true
            (fun p c => Regex.run (Regex.chr "]") p c (fun p' c' => Some (p', c')))).
    rewrite IH by lia. cbn [upToLastClose].
    destruct (upToLastClose s) as [r|]; [done|].
    unfold Regex.chr. cbn [Regex.run Regex.rest].
    destruct (decide (a = "]"%char)) as [->|Hne].
    + by rewrite bool_decide_eq_true_2.
    + by rewrite bool_decide_eq_false_2.
Qed.

Lemma matchAt_array before s :
  Regex.matchAt arrayPattern (Regex.mkPos before s)
  = match s with
    | String a t =>
        if decide (a = "["%char)
        then (fun r => Regex.mkMatch (String a r) []) <$> upToLastClose t
        else None
    | EmptyString => None
    end.
Proof.
  unfold Regex.matchAt, arrayPattern, Regex.chr at 1.
  cbn [Regex.run Regex.rest]. destruct s as [|a t]; [done|].
  destruct (decide (a = "["%char)) as [->|Hne].
  - rewrite bool_decide_eq_true_2 by done.
    cbn [Regex.rest].
    rewrite (starLoop_any_close [] t (S (String.length t)) (Some "["%char)) by lia.
    destruct (upToLastClose t) as [r|] eqn:E; [|done].
    destruct (upToLastClose_prefix _ _ E) as [post ->]. simpl. f_equal.
    unfold Regex.consumed. cbn [Regex.rest String.length].
    rewrite dropString_app, string_length_app.
    replace (S (String.length r + String.length post) - String.length post)%nat
      with (S (String.length r)) by lia.
    simpl. by rewrite takeString_app.
  - by rewrite bool_decide_eq_false_2.
Qed.

Lemma upToLastClose_tail a s :
  upToLastClose (String a s) = None -> upToLastClose s = None.
Proof. simpl. by destruct (upToLastClose s). Qed.

Lemma exec_array_none s : forall before,
  upToLastClose s = None -> Regex.exec_from arrayPattern before s = None.
Proof.
  induction s as [|a s IH]; intros before Hnone.
  - done.
  - cbn [Regex.exec_from]. rewrite matchAt_array.
    pose proof (upToLastClose_tail _ _ Hnone) as Hs.
    rewrite Hs. simpl. destruct (decide (a = "["%char)); by apply IH.
Qed.

Lemma matchArray_reading response :
  matchArray response
  = match fromFirstOpen response with
    | Some (String c rest) => String c <$> upToLastClose rest
    | _ => None
    end.
Proof.
  unfold matchArray, Regex.exec. generalize (@None ascii).
  induction response as [|a s IH]; intros before; [done|].
  cbn [Regex.exec_from fromFirstOpen]. rewrite matchAt_array.
  destruct (decide (a = "["%char)) as [->|Hne].
  - destruct (upToLastClose s) as [r|] eqn:E; [done|]. simpl.
    by rewrite exec_array_none.
  - apply IH.
Qed.

Lemma includes_char_cons ch c s :
  includes (String c s) (String ch EmptyString)
  = bool_decide (ch = c) || includes s (String ch EmptyString).
Proof.
  cbn. destruct (decide (ch = c)) as [->|Hne].
  - rewrite bool_decide_eq_true_2 by done. by destruct s.
  - by rewrite bool_decide_eq_false_2.
Qed.

Lemma fromFirstOpen_spec s t :
  fromFirstOpen s = Some t
  <-> exists pre rest, s = pre +:+ t /\ t = String "[" rest
                       /\ includes pre "[" = false.
Proof.
  induction s as [|c s IH]; simpl.
  - split; [done|]. intros (pre & rest & H & -> & _). by destruct pre.
  - destruct (decide (c = "["%char)) as [->|Hne].
    + split.
      * intros [= <-]. by exists EmptyString, s.
      * intros (pre & rest & H & -> & Hpre). destruct pre as [|p pre].
        -- cbn in H. by rewrite H.
        -- cbn in H. injection H as <- _.
           rewrite includes_char_cons in Hpre.
           by rewrite bool_decide_eq_true_2 in Hpre.
    + rewrite IH. split.
      * intros (pre & rest & -> & -> & Hpre). exists (String c pre), rest.
        split; [done|]. split; [done|]. rewrite includes_char_cons, Hpre.
        by rewrite bool_decide_eq_false_2.
      * intros (pre & rest & H & -> & Hpre). destruct pre as [|p pre].
        -- cbn in H. by injection H as -> _.
        -- cbn in H. injection H as <- ->. exists pre, rest.
           rewrite includes_char_cons in Hpre.
           apply orb_false_iff in Hpre as [_ Hpre]. done.
Qed.

Lemma upToLastClose_None s :
  upToLastClose s = None <-> includes s "]" = false.
Proof.
  induction s as [|c s IH]; [done|].
  rewrite includes_char_cons. simpl.
  destruct (upToLastClose s) as [r|].
  - split; [done|]. intros [_ H]%orb_false_iff. by apply IH in H.
  - destruct (decide (c = "]"%char)) as [->|Hne].
    + by rewrite bool_decide_eq_true_2.
    + rewrite bool_decide_eq_false_2 by done. simpl. by rewrite <- IH.
Qed.

Lemma upToLastClose_Some_1 s r :
  upToLastClose s = Some r ->
  exists mid post, s = r +:+ post /\ r = mid +:+ "]" /\ includes post "]" = false.
Proof.
  revert r. induction s as [|c s IH]; intros r; simpl; [done|].
  destruct (upToLastClose s) as [r'|] eqn:E.
  - intros [= <-]. destruct (IH _ eq_refl) as (mid & post & -> & -> & Hp).
    by exists (String c mid), post.
  - destruct (decide (c = "]"%char)) as [->|]; [|done].
    intros [= <-]. exists EmptyString, s. split; [done|]. split; [done|].
    by apply upToLastClose_None.
Qed.

Lemma upToLastClose_Some_2 mid post :
  includes post "]" = false ->
  upToLastClose (mid +:+ String "]" post) = Some (mid +:+ "]").
Proof.
  intros Hp. induction mid as [|m mid IH]; simpl.
  - apply upToLastClose_None in Hp. by rewrite Hp.
  - by rewrite IH.
Qed.

Lemma matchArray_spec response m :
  matchArray response = Some m
  <-> exists pre mid post,
        response = pre +:+ "[" +:+ mid +:+ "]" +:+ post
        /\ m = "[" +:+ mid +:+ "]"
        /\ includes pre "[" = false
        /\ includes post "]" = false.
Proof.
  rewrite matchArray_reading. split.
  - destruct (fromFirstOpen response) as [t|] eqn:E; [|done].
    apply fromFirstOpen_spec in E as (pre & rest & -> & -> & Hpre).
    destruct (upToLastClose rest) as [r|] eqn:Er; [|done].
    apply upToLastClose_Some_1 in Er as (mid & post & -> & -> & Hpost).
    intros [= <-]. exists pre, mid, post. split; [|done].
    simpl. by rewrite string_app_assoc.
  - intros (pre & mid & post & -> & -> & Hpre & Hpost).
    assert (E : fromFirstOpen (pre +:+ "[" +:+ mid +:+ "]" +:+ post)
                = Some ("[" +:+ mid +:+ "]" +:+ post)).
    { apply fromFirstOpen_spec. by exists pre, (mid +:+ "]" +:+ post). }
    rewrite E. simpl. by rewrite upToLastClose_Some_2.
Qed.

Lemma first_open_is_first pre pre' a b :
  pre +:+ String "[" a = pre' +:+ String "[" b ->
  includes pre' "[" = false ->
  exists x, pre = pre' +:+ x.
Proof.
  revert pre. induction pre' as [|c pre' IH]; intros pre Heq Hno.
  - by exists pre.
  - rewrite includes_char_cons in Hno. apply orb_false_iff in Hno as [Hc Hno].
    apply bool_decide_eq_false in Hc.
    destruct pre as [|p pre]; simpl in Heq.
    + injection Heq as <- _. done.
    + injection Heq as -> Heq. destruct (IH _ Heq Hno) as [x ->]. by exists x.
Qed.

Lemma matchArray_None response :
  matchArray response = None
  <-> ~ exists pre mid post, response = pre +:+ "[" +:+ mid +:+ "]" +:+ post.
Proof.
  split.
  - intros Hnone (pre & mid & post & ->). rewrite matchArray_reading in Hnone.
    destruct (fromFirstOpen (pre +:+ "[" +:+ mid +:+ "]" +:+ post)) as [t|] eqn:Ef.
    + apply fromFirstOpen_spec in Ef as (pre' & rest & Heq & -> & Hpre').
      destruct (upToLastClose rest) as [r|] eqn:Er; [done|].
      apply upToLastClose_None in Er.
      destruct (first_open_is_first _ _ _ _ Heq Hpre') as [x ->].
      rewrite string_app_assoc in Heq. apply String.app_inj in Heq.
      assert (Hin : includes rest "]" = true); [|congruence].
      apply JsFacts.includes_spec. destruct x as [|c x]; simpl in Heq.
      * injection Heq as <-. by exists mid, post.
      * injection Heq as _ <-. exists (x +:+ "[" +:+ mid), post.
        by rewrite !string_app_assoc.
    + assert (Hin : includes (pre +:+ "[" +:+ mid +:+ "]" +:+ post) "[" = true).
      { apply JsFacts.includes_spec. by exists pre, (mid +:+ "]" +:+ post). }
      revert Ef Hin.
      generalize (pre +:+ "[" +:+ mid +:+ "]" +:+ post). intros s.
      induction s as [|c s IH]; [done|]. rewrite includes_char_cons. simpl.
      destruct (decide (c = "["%char)) as [->|Hne]; [done|].
      rewrite bool_decide_eq_false_2 by congruence. simpl. auto.
  - intros Hno. destruct (matchArray response) as [m|] eqn:E; [|done].
    apply matchArray_spec in E as (pre & mid & post & -> & _). exfalso. eauto.
Qed.

Section GenerationFacts.
Variable JSON_parse : string -> option Parsed.

(** C3, as the code has it: the text handed to the JSON parser runs from
    the first opening bracket of the response to its last closing bracket;
    the steps are the parsed array, and when there is no such text, the
    parse fails or the value is not an array, the result is the empty list:
    every failure of the [try] is caught. *)
Theorem parse_steps_first_to_last_bracket response :
  (forall m,
      matchArray response = Some m
      <-> exists pre mid post,
            response = pre +:+ "[" +:+ mid +:+ "]" +:+ post
            /\ m = "[" +:+ mid +:+ "]"
            /\ includes pre "[" = false
            /\ includes post "]" = false)
  /\ (matchArray response = None
      <-> ~ exists pre mid post,
              response = pre +:+ "[" +:+ mid +:+ "]" +:+ post)
  /\ (forall steps,
        parseSteps_try JSON_parse response = inr steps
        <-> exists m, matchArray response = Some m
                      /\ JSON_parse m = Some (ParsedArray steps))
  /\ ((exists failure, parseSteps_try JSON_parse response = inl failure)
      <-> matchArray response = None
          \/ exists m, matchArray response = Some m
                       /\ (JSON_parse m = None \/ JSON_parse m = Some ParsedOther))
  /\ (forall steps,
        parseSteps_try JSON_parse response = inr steps ->
        parseStepsFromResponse JSON_parse response = steps)
  /\ (forall failure,
        parseSteps_try JSON_parse response = inl failure ->
        parseStepsFromResponse JSON_parse response = []).
Proof.
  split; [intros m; apply matchArray_spec|].
  split; [apply matchArray_None|].
  unfold parseStepsFromResponse, parseSteps_try.
  destruct (matchArray response) as [m|];
    [destruct (JSON_parse m) as [[steps0|]|] eqn:Ep|].
  - split; [|split; [|split]].
    + intros steps. split.
      * intros [= <-]. by exists m.
      * intros (m' & [= <-] & Hp). congruence.
    + split; [by intros [? ?]|].
      intros [?|(m' & [= <-] & [?|?])]; congruence.
    + by intros steps [= <-].
    + done.
  - split; [|split; [|split]]; try done.
    + intros steps. split; [done|]. intros (m' & [= <-] & Hp). congruence.
    + split; [|by eauto]. intros _. right. exists m. auto.
  - split; [|split; [|split]]; try done.
    + intros steps. split; [done|]. intros (m' & [= <-] & Hp). congruence.
    + split; [|by eauto]. intros _. right. exists m. auto.
  - split; [|split; [|split]]; try done.
    + intros steps. split; [done|]. by intros (m' & ? & _).
    + split; [by left | by eauto].
Qed.

Lemma contribution_runBatch service batchNum batch :
  runBatch JSON_parse service batchNum batch
  = contribution JSON_parse (service batchNum batch).
Proof.
  unfold runBatch, contribution, generateBatchWithTimeout, generateBatchSteps.
  by destruct (service batchNum batch) as [[]|].
Qed.

Lemma batchFails_contribution race :
  batchFails JSON_parse race -> contribution JSON_parse race = [].
Proof.
  intros [| |content failure Hf]; simpl; [done|done|].
  unfold parseStepsFromResponse. by rewrite Hf.
Qed.

Lemma group_loop_spec service batches : forall fuel groupStart allSteps,
  (length batches <= groupStart + fuel * CONCURRENT_BATCHES)%nat ->
  group_loop JSON_parse service fuel batches groupStart allSteps
  = allSteps
    ++ concat (imap (fun idx batch => runBatch JSON_parse service (groupStart + idx + 1) batch)
                    (drop groupStart batches)).
Proof.
  induction fuel as [|fuel IH]; intros groupStart allSteps Hfuel; simpl.
  - rewrite drop_ge by (simpl in Hfuel; lia). simpl. by rewrite app_nil_r.
  - destruct (Nat.ltb_spec groupStart (length batches)) as [Hlt|Hge].
    + rewrite IH by (unfold CONCURRENT_BATCHES in *; lia).
      rewrite <- app_assoc. f_equal.
      set (l := drop groupStart batches).
      assert (Hd : drop (groupStart + CONCURRENT_BATCHES) batches
                   = drop CONCURRENT_BATCHES l).
      { subst l. by rewrite drop_drop. }
      rewrite Hd. symmetry.
      rewrite <- (take_drop CONCURRENT_BATCHES l) at 1.
      rewrite imap_app, concat_app. f_equal. f_equal.
      apply imap_ext. intros i x Hx. f_equal.
      apply lookup_lt_Some in Hx. rewrite length_drop in Hx.
      rewrite length_take. subst l. rewrite length_drop in *.
      unfold CONCURRENT_BATCHES in *. lia.
    + rewrite drop_ge by lia. simpl. by rewrite app_nil_r.
Qed.

Lemma createFileBatches_loop_spec (sortedFiles : list FileAnalysis) :
  forall fuel i batches,
    (length sortedFiles <= i + fuel * BATCH_SIZE)%nat ->
    Forall (fun b => b <> []) batches ->
    concat (createFileBatches_loop fuel sortedFiles i batches)
    = concat batches ++ drop i sortedFiles
    /\ Forall (fun b => b <> [] /\ (length b <= BATCH_SIZE)%nat
                        /\ Forall (fun f => f ∈ sortedFiles) b)
              (drop (length batches)
                    (createFileBatches_loop fuel sortedFiles i batches))
    /\ take (length batches) (createFileBatches_loop fuel sortedFiles i batches)
       = batches.
Proof.
  induction fuel as [|fuel IH]; intros i batches Hfuel Hne; simpl.
  - rewrite (drop_ge sortedFiles) by (simpl in Hfuel; lia).
    rewrite app_nil_r, drop_ge, take_ge by lia. by repeat split.
  - destruct (Nat.ltb_spec i (length sortedFiles)) as [Hlt|Hge].
    + set (b := take BATCH_SIZE (drop i sortedFiles)).
      assert (Hb : b <> []).
      { subst b. intros Hnil%(f_equal length).
        rewrite length_take, length_drop in Hnil.
        unfold BATCH_SIZE in Hnil. change (length (@nil FileAnalysis)) with 0%nat in Hnil.
        lia. }
      destruct (IH (i + BATCH_SIZE)%nat (batches ++ [b])) as (Hc & Hf & Ht).
      { unfold BATCH_SIZE in *. lia. }
      { apply Forall_app. split; [done|]. by constructor. }
      split; [|split].
      * rewrite Hc, concat_app. simpl. rewrite app_nil_r, <- app_assoc. f_equal.
        subst b. rewrite <- drop_drop. apply take_drop.
      * rewrite length_app in Hf, Ht. simpl in Hf, Ht.
        assert (Hx : createFileBatches_loop fuel sortedFiles (i + BATCH_SIZE)
                       (batches ++ [b]) !! length batches = Some b).
        { rewrite <- (lookup_take_lt _ (length batches + 1)) by lia.
          rewrite Ht. by rewrite list_lookup_middle. }
        rewrite (drop_S _ _ _ Hx). constructor.
        -- split; [done|]. split.
           ++ subst b. rewrite length_take. lia.
           ++ subst b. apply Forall_forall. intros f Hf'.
              apply (subseteq_take BATCH_SIZE) in Hf'.
              by apply (subseteq_drop i) in Hf'.
        -- by replace (S (length batches)) with (length batches + 1)%nat by lia.
      * rewrite length_app in Ht. simpl in Ht.
        apply (f_equal (take (length batches))) in Ht.
        rewrite take_take, Nat.min_l in Ht by lia.
        by rewrite take_app_length in Ht.
    + rewrite (drop_ge sortedFiles) by lia.
      rewrite app_nil_r, drop_ge, take_ge by lia. by repeat split.
Qed.

Lemma createFileBatches_spec files :
  concat (createFileBatches files) = Js.sortDescending getFileImportance files
  /\ Forall (fun b => b <> [] /\ (length b <= BATCH_SIZE)%nat
                      /\ Forall (fun f => f ∈ files) b)
            (createFileBatches files).
Proof.
  unfold createFileBatches.
  destruct (createFileBatches_loop_spec
              (Js.sortDescending getFileImportance files)
              (length (Js.sortDescending getFileImportance files)) 0 [])
    as (Hc & Hf & _).
  { unfold BATCH_SIZE. lia. }
  { constructor. }
  simpl in *. rewrite drop_0 in *. split; [done|].
  eapply Forall_impl; [exact Hf|]. intros b (H1 & H2 & H3).
  split; [done|]. split; [done|].
  eapply Forall_impl; [exact H3|]. intros f Hin. simpl in Hin.
  by rewrite JsFacts.sortDescending_perm in Hin.
Qed.

(** C4: a batch whose race is lost to the timer, whose request is rejected
    or whose response does not parse contributes the empty list; the run
    is the welcome steps followed by the contributions of all batches in
    submission order; and making one batch fail removes its contribution
    and nothing else. *)
Theorem batch_failures_are_isolated structure ws welcomeCompletion :
  let batches := createFileBatches (filterImportantFiles (ps_files structure)) in
  let welcome :=
    generateWelcomePage JSON_parse structure ws welcomeCompletion in
  let run service :=
    generateTourInBatches JSON_parse service
                          structure ws welcomeCompletion in
  (forall race, batchFails JSON_parse race -> contribution JSON_parse race = [])
  /\ (forall service,
        run service
        = welcome
          ++ concat (imap (fun i batch => contribution JSON_parse (service (S i) batch))
                          batches))
  /\ (forall service service' i batch,
        batches !! i = Some batch ->
        (forall n b, n <> S i -> service' n b = service n b) ->
        batchFails JSON_parse (service' (S i) batch) ->
        exists before after,
          run service
          = (welcome ++ before) ++ contribution JSON_parse (service (S i) batch) ++ after
          /\ run service' = (welcome ++ before) ++ after).
Proof.
  intros batches welcome run.
  assert (Hrun : forall service,
    run service
    = welcome
      ++ concat (imap (fun i batch => contribution JSON_parse (service (S i) batch))
                      batches)).
  { intros service. subst run. unfold generateTourInBatches. simpl.
    fold batches. fold welcome.
    rewrite group_loop_spec by (unfold CONCURRENT_BATCHES; lia).
    rewrite drop_0. f_equal.
    - destruct welcome; done.
    - f_equal. apply imap_ext. intros i b _. simpl.
      rewrite contribution_runBatch. f_equal. f_equal. lia. }
  split; [apply batchFails_contribution|]. split; [exact Hrun|].
  intros service service' i batch Hi Hsame Hfail.
  rewrite !Hrun.
  rewrite <- (take_drop_middle batches i batch Hi).
  rewrite !imap_app, !concat_app. simpl.
  assert (Hlen : length (take i batches) = i).
  { rewrite length_take. apply lookup_lt_Some in Hi. lia. }
  rewrite Hlen, Nat.add_0_r.
  exists (concat (imap (fun i0 batch0 => contribution JSON_parse (service (S i0) batch0))
                       (take i batches))),
         (concat (imap (fun n batch0 => contribution JSON_parse (service (S (i + S n)) batch0))
                       (drop (S i) batches))).
  split.
  - by rewrite <- !app_assoc.
  - rewrite (batchFails_contribution _ Hfail). simpl.
    rewrite <- !app_assoc. f_equal. f_equal.
    + f_equal. apply imap_ext. intros n b Hn. simpl.
      apply lookup_lt_Some in Hn. rewrite Hlen in Hn.
      rewrite Hsame by lia. done.
    + f_equal. apply imap_ext. intros n b Hn. simpl.
      rewrite Hsame by lia. done.
Qed.

Lemma withWelcomeFile_spec welcomeFile step :
  (gs_file step = EmptyString \/ gs_file step = "README.md" ->
     withWelcomeFile welcomeFile step = TourGenerator.setFile step welcomeFile)
  /\ (gs_file step <> EmptyString -> gs_file step <> "README.md" ->
        withWelcomeFile welcomeFile step = step).
Proof.
  unfold withWelcomeFile, Js.truthyString. split.
  - intros [->| ->]; done.
  - intros H1 H2. rewrite bool_decide_eq_true_2 by done.
    by rewrite bool_decide_eq_false_2.
Qed.

(** C5: the welcome synthesizer returns exactly one step: the first parsed
    step, with its file replaced by the resolved welcome file when it is
    empty or [README.md], or else the fallback step, which depends on the
    structure and the workspace only. *)
Theorem welcome_page_exactly_one_step structure ws completion :
  exists step,
    generateWelcomePage JSON_parse structure ws completion = [step]
    /\ (forall content first rest,
          completion = Resolved content ->
          parseStepsFromResponse JSON_parse content = first :: rest ->
          step = withWelcomeFile (welcomeFileOf structure ws) first
          /\ (gs_file first = EmptyString \/ gs_file first = "README.md" ->
              step = TourGenerator.setFile first (welcomeFileOf structure ws))
          /\ (gs_file first <> EmptyString -> gs_file first <> "README.md" ->
              step = first))
    /\ ((exists message, completion = Rejected message)
        \/ (exists content, completion = Resolved content
                            /\ parseStepsFromResponse JSON_parse content = []) ->
        step = fallbackStep structure ws
        /\ gs_line step = Some 1
        /\ gs_file step = welcomeFileOf structure ws).
Proof.
  unfold generateWelcomePage, welcome_try.
  destruct completion as [message|content].
  - eexists. split; [reflexivity|]. split; [done|]. done.
  - destruct (parseStepsFromResponse JSON_parse content) as [|first rest] eqn:Ep.
    + eexists. split; [reflexivity|]. split; [|done].
      intros c f r [= <-]. by rewrite Ep.
    + eexists. split; [reflexivity|]. split.
      * intros c f r [= <-]. rewrite Ep. intros [= <- <-].
        split; [done|]. destruct (withWelcomeFile_spec (welcomeFileOf structure ws) first).
        split; auto.
      * intros [[m Hm]|(c & [= <-] & Hc)]; [done|]. by rewrite Ep in Hc.
Qed.

End GenerationFacts.

(** The fallback step passes the validator at index 0 whatever its file. *)
Lemma fallback_step_is_exempt structure ws :
  TourGenerator.exemptFromFileCheck 0 (fallbackStep structure ws).
Proof.
  apply TourGeneratorFacts.exempt_iff_isWelcomeStep.
  apply TourGeneratorFacts.isWelcomeStep_spec. split; [done|].
  exists ("🎉 Welcome to " +:+ workspaceNameOf ws), "🎉 ",
         (" to " +:+ workspaceNameOf ws).
  split; reflexivity.
Qed.

(** *** Examples *)

Import Samples.

Example plain_response_parsed :
  parseStepsFromResponse sampleParse plainResponse = [realStep].
Proof. reflexivity. Qed.

(** C3 as stated fails: the first top-level bracketed substring of the
    response is the array, which parses to one step, but the text handed to
    the parser runs on to the bracket of the footnote, and the result is
    empty. *)
Lemma first_array_not_extracted :
  firstTopLevelArray footnoteResponse = Some arrayText
  /\ sampleParse arrayText = Some (ParsedArray [realStep])
  /\ matchArray footnoteResponse = Some (arrayText +:+ " (see note [1]")
  /\ parseStepsFromResponse sampleParse footnoteResponse = [].
Proof. repeat split. Qed.

Lemma parse_steps_witness :
  parseStepsFromResponse sampleParse plainResponse = [realStep]
  /\ parseStepsFromResponse sampleParse footnoteResponse = [].
Proof.
  split.
  - refine (proj1 (proj2 (proj2 (proj2 (proj2
              (parse_steps_first_to_last_bracket sampleParse plainResponse)))))
              [realStep] _).
    reflexivity.
  - refine (proj2 (proj2 (proj2 (proj2 (proj2
              (parse_steps_first_to_last_bracket sampleParse footnoteResponse)))))
              SyntaxError _).
    reflexivity.
Defined.

Example run_with_hung_batch :
  generateTourInBatches sampleParse hangingOnSecond
                        structureB bareWorkspace (Rejected "no key")
  = [fallbackStep structureB bareWorkspace; realStep].
Proof. reflexivity. Qed.

Lemma batch_failure_witness :
  exists before after,
    generateTourInBatches sampleParse answering
                          structureB bareWorkspace (Rejected "no key")
    = ([fallbackStep structureB bareWorkspace] ++ before)
      ++ [realStep] ++ after
    /\ generateTourInBatches sampleParse hangingOnSecond
                             structureB bareWorkspace (Rejected "no key")
       = ([fallbackStep structureB bareWorkspace] ++ before) ++ after.
Proof.
  refine (proj2 (proj2 (batch_failures_are_isolated sampleParse
            structureB bareWorkspace (Rejected "no key")))
            answering hangingOnSecond 1%nat [codeFile "src/e.ts"] _ _ _).
  - reflexivity.
  - intros n b Hn. unfold hangingOnSecond. by rewrite decide_False.
  - constructor.
Defined.

Lemma welcome_page_witness :
  generateWelcomePage sampleParse structureB bareWorkspace
                      (Resolved plainResponse)
  = [realStep].
Proof.
  destruct (welcome_page_exactly_one_step sampleParse
              structureB bareWorkspace (Resolved plainResponse))
    as (step & -> & Hfirst & _).
  destruct (Hfirst plainResponse realStep [] eq_refl eq_refl) as (_ & _ & Hkeep).
  by rewrite Hkeep.
Defined.

(** The cleaning scenario of the specification: the badge line and the
    sponsors section go, the usage heading and what follows stay. *)
Example readme_cleaned :
  Js.split "010" (cleanReadmeContent readmeText)
  = ["# Tool"; "Intro text"; "## Usage"; "run it"].
Proof. vm_compute. reflexivity. Qed.

End BatchTourGeneratorFacts.
(* ================================================================== *)
(** * Further properties of the code *)
(* ================================================================== *)

(** ** Host primitives *)

Module JsProperties.
Import Js JsFacts.

Local Arguments String.append !_ _ : simpl nomatch.

(** The sort keeps elements of equal key in their original order. *)
Lemma insertDescending_stable {A} (key : A -> Z) (s : Z) x l :
  filter (fun a => key a = s) (insertDescending key x l)
  = filter (fun a => key a = s) (x :: l).
Proof.
  induction l as [|y l IH]; simpl; [done|].
  destruct (Z.ltb_spec (key x) (key y)) as [Hlt|Hge]; [|done].
  rewrite !filter_cons in *. rewrite IH.
  destruct (decide (key x = s)), (decide (key y = s)); try done. lia.
Qed.

Lemma sortDescending_stable {A} (key : A -> Z) (s : Z) l :
  filter (fun a => key a = s) (sortDescending key l)
  = filter (fun a => key a = s) l.
Proof.
  induction l as [|x l IH]; simpl; [done|].
  rewrite insertDescending_stable, !filter_cons, IH. done.
Qed.

(** Sorting pairs of a score and an element by the score, then dropping
    the score, is sorting the elements by their score. *)
Lemma insertDescending_keyed {A} (key : A -> Z) x l :
  insertDescending fst (key x, x) ((fun u => (key u, u)) <$> l)
  = (fun u => (key u, u)) <$> insertDescending key x l.
Proof.
  induction l as [|y l IH]; simpl; [done|].
  destruct (key x <? key y); [|done]. rewrite fmap_cons. f_equal. exact IH.
Qed.

Lemma sortDescending_keyed {A} (key : A -> Z) l :
  snd <$> sortDescending fst (map (fun u => (key u, u)) l) = sortDescending key l.
Proof.
  assert (H : sortDescending fst (map (fun u => (key u, u)) l)
              = (fun u => (key u, u)) <$> sortDescending key l).
  { induction l as [|x l IH]; simpl; [done|]. rewrite IH.
    apply insertDescending_keyed. }
  rewrite H, <- list_fmap_compose. apply list_fmap_id.
Qed.

(** [trim] leaves nothing to trim. *)
Lemma trimEnd_idem s : trimEnd (trimEnd s) = trimEnd s.
Proof.
  induction s as [|c s IH]; simpl; [done|].
  destruct (trimEnd s) as [|d r] eqn:E.
  - destruct (Js.isWhiteSpace c) eqn:Hc; simpl; [done|]. by rewrite Hc.
  - simpl. simpl in IH. by rewrite IH.
Qed.

Lemma trimStart_head s :
  trimStart s = EmptyString
  \/ exists c r, trimStart s = String c r /\ Js.isWhiteSpace c = false.
Proof.
  induction s as [|c s IH]; simpl; [by left|].
  destruct (Js.isWhiteSpace c) eqn:Hc; [done|]. right. eauto.
Qed.

Lemma trimEnd_head c r :
  Js.isWhiteSpace c = false -> exists r', trimEnd (String c r) = String c r'.
Proof.
  intros Hc. simpl. destruct (trimEnd r); [rewrite Hc|]; eauto.
Qed.

Lemma trim_idem s : trim (trim s) = trim s.
Proof.
  unfold trim. destruct (trimStart_head s) as [->|(c & r & -> & Hc)]; [done|].
  destruct (trimEnd_head c r Hc) as [r' Hr]. rewrite Hr.
  simpl trimStart. rewrite Hc. rewrite <- Hr. apply trimEnd_idem.
Qed.

(** [trim] gives the empty text exactly on white space. *)
Lemma trimStart_blank s :
  trimStart s = EmptyString <-> Regex.everyChar Js.isWhiteSpace s = true.
Proof.
  induction s as [|a s IH]; simpl; [done|].
  destruct (Js.isWhiteSpace a); simpl; [done|]. split; discriminate.
Qed.

Lemma trimEnd_empty s :
  trimEnd s = EmptyString -> Regex.everyChar Js.isWhiteSpace s = true.
Proof.
  induction s as [|a s IH]; simpl; [done|].
  destruct (trimEnd s); [|done].
  destruct (Js.isWhiteSpace a); [|done]. intros _. by apply IH.
Qed.

Lemma trim_blank s :
  trim s = EmptyString <-> Regex.everyChar Js.isWhiteSpace s = true.
Proof.
  unfold trim. split.
  - intros H%trimEnd_empty. revert H.
    induction s as [|a s IH]; simpl; [done|].
    destruct (Js.isWhiteSpace a) eqn:Ha; simpl; [done|]. by rewrite Ha.
  - intros H%trimStart_blank. by rewrite H.
Qed.

Lemma toLowerCase_chars s :
  Regex.everyChar
    (fun a => negb ((65 <=? nat_of_ascii a) && (nat_of_ascii a <=? 90))%nat)
    (toLowerCase s) = true.
Proof.
  induction s as [|a s IH]; [done|].
  cbn [toLowerCase Regex.everyChar]. rewrite IH, andb_true_r.
  unfold lowerChar. cbv zeta.
  destruct ((65 <=? nat_of_ascii a) && (nat_of_ascii a <=? 90))%nat eqn:E.
  - apply andb_true_iff in E as [H1%Nat.leb_le H2%Nat.leb_le].
    cbn [orb]. rewrite nat_ascii_embedding by lia.
    apply negb_true_iff, andb_false_iff. right. apply Nat.leb_gt. lia.
  - cbn [orb].
    destruct ((192 <=? nat_of_ascii a) && (nat_of_ascii a <=? 222)
              && negb (nat_of_ascii a =? 215))%nat eqn:F; [|by rewrite E].
    apply andb_true_iff in F as [[H1%Nat.leb_le H2%Nat.leb_le]%andb_true_iff _].
    rewrite nat_ascii_embedding by lia.
    apply negb_true_iff, andb_false_iff. right. apply Nat.leb_gt. lia.
Qed.

Lemma substring_length n m s :
  (String.length (String.substring n m s) <= m)%nat.
Proof.
  revert n m. induction s as [|a s IH]; intros [|n] [|m]; simpl; try lia.
  - specialize (IH 0%nat m). lia.
  - apply IH.
  - apply IH.
Qed.

Lemma uniq_loop_spec a : forall seen,
  NoDup (uniq_loop seen a)
  /\ (forall x, x ∈ uniq_loop seen a <-> x ∈ a /\ x ∉ seen).
Proof.
  induction a as [|y a IH]; intros seen; simpl.
  - split; [constructor|]. intros x. split; [by intros ?%elem_of_nil|].
    by intros [?%elem_of_nil _].
  - case_bool_decide as Hy.
    + destruct (IH seen) as [Hnd Hin]. split; [done|].
      intros x. rewrite Hin, elem_of_cons. split; [tauto|].
      intros [[->|?] ?]; tauto.
    + destruct (IH (y :: seen)) as [Hnd Hin]. split.
      * constructor; [|done]. rewrite Hin. intros [_ Hn]. apply Hn. by left.
      * intros x. rewrite !elem_of_cons, Hin, elem_of_cons.
        split.
        -- intros [->|[? ?]]; [tauto|]. tauto.
        -- intros [[->|?] ?]; [tauto|].
           destruct (decide (x = y)); [tauto|]. right. tauto.
Qed.

Lemma length_omap_le {A B} (g : A -> option B) (l : list A) :
  (length (omap g l) <= length l)%nat.
Proof. induction l as [|x l IH]; csimpl; [done|]. destruct (g x); simpl; lia. Qed.

Lemma StronglySorted_snoc (l : list nat) (x : nat) :
  StronglySorted le l -> Forall (fun y => (y <= x)%nat) l ->
  StronglySorted le (l ++ [x]).
Proof.
  induction 1 as [|y l Hs IH Hy]; intros Hall; simpl.
  - repeat constructor.
  - apply Forall_cons in Hall as [Hyx Hall]. constructor; [by apply IH|].
    apply Forall_app. split; [done|]. by constructor.
Qed.

End JsProperties.

(** ** The matcher *)

Module RegexProperties.
Import Regex BatchTourGeneratorFacts.

Local Arguments String.append !_ _ : simpl nomatch.

Lemma starLoop_sound greedy r k :
  (forall p c k' x, run r p c k' = Some x ->
     exists p1 c1, Matches r p c p1 c1 /\ k' p1 c1 = Some x) ->
  forall n p c x,
    starLoop (run r) greedy k n p c = Some x ->
    exists p' c', Matches (Star greedy r) p c p' c' /\ k p' c' = Some x.
Proof.
  intros Hbody. induction n as [|n IH]; intros p c x; simpl.
  - intros Hk. exists p, c. split; [constructor | done].
  - set (again := run r p c _).
    assert (Hagain : again = Some x ->
              exists p' c', Matches (Star greedy r) p c p' c' /\ k p' c' = Some x).
    { subst again. intros (p1 & c1 & Hm & Hk)%Hbody.
      destruct (Nat.ltb_spec (String.length (rest p1)) (String.length (rest p)));
        [|done].
      apply IH in Hk as (p' & c' & Hs & Hk).
      exists p', c'. split; [|done]. by eapply matches_star_round. }
    assert (Hend : k p c = Some x ->
              exists p' c', Matches (Star greedy r) p c p' c' /\ k p' c' = Some x).
    { intros Hk. exists p, c. split; [constructor | done]. }
    destruct greedy.
    + destruct again as [y|]; [intros [= ->]; auto | auto].
    + destruct (k p c) as [y|]; [intros [= ->]; auto | auto].
Qed.

(** The matcher answers only with matches. *)
Lemma run_sound r : forall p c k x,
  run r p c k = Some x ->
  exists p' c', Matches r p c p' c' /\ k p' c' = Some x.
Proof.
  induction r as [|class|r1 IH1 r2 IH2|r1 IH1 r2 IH2|greedy r IH|n r IH| |];
    intros p c k x; simpl.
  - intros Hk. exists p, c. split; [constructor|done].
  - destruct p as [before [|a s]]; simpl; [done|].
    destruct (class a) eqn:Ha; [|done]. intros Hk.
    eexists _, c. split; [by constructor | done].
  - intros (p1 & c1 & H1 & (p2 & c2 & H2 & Hk)%IH2)%IH1.
    exists p2, c2. split; [by econstructor | done].
  - destruct (run r1 p c k) as [y|] eqn:E1.
    + intros [= ->]. apply IH1 in E1 as (p' & c' & ? & ?).
      exists p', c'. split; [by apply matches_alt_l | done].
    + intros (p' & c' & ? & ?)%IH2.
      exists p', c'. split; [by apply matches_alt_r | done].
  - intros H.
    exact (starLoop_sound greedy r k IH (S (String.length (rest p))) p c x H).
  - intros (p' & c' & Hm & Hk)%IH. eexists _, _. split; [by constructor | done].
  - destruct (prev p) eqn:Hp; [done|]. intros Hk.
    exists p, c. split; [by constructor | done].
  - destruct (xorb _ _) eqn:Hb; [|done]. intros Hk.
    exists p, c. split; [by constructor | done].
Qed.

Lemma matchAt_sound r p m :
  matchAt r p = Some m ->
  exists p', Matches r p [] p' (captures m) /\ matched m = consumed p p'.
Proof.
  unfold matchAt.
  destruct (run r p [] _) as [[p' c']|] eqn:E; [|done].
  intros [= <-]. apply run_sound in E as (p1 & c1 & Hm & [= <- <-]).
  by exists p1.
Qed.

Lemma exec_from_sound r : forall s before m,
  exec_from r before s = Some m ->
  exists pre before' s' p',
    s = pre +:+ s'
    /\ Matches r (mkPos before' s') [] p' (captures m)
    /\ matched m = consumed (mkPos before' s') p'.
Proof.
  induction s as [|a s IH]; intros before m; simpl.
  - destruct (matchAt r (mkPos before EmptyString)) as [m'|] eqn:E; [|done].
    intros [= ->]. apply matchAt_sound in E as (p' & ? & ?).
    by exists EmptyString, before, EmptyString, p'.
  - destruct (matchAt r (mkPos before (String a s))) as [m'|] eqn:E.
    + intros [= ->]. apply matchAt_sound in E as (p' & ? & ?).
      by exists EmptyString, before, (String a s), p'.
    + intros (pre & before' & s' & p' & -> & ? & ?)%IH.
      exists (String a pre), before', s', p'. by repeat split.
Qed.

Lemma consumed_text p p' t : rest p = t +:+ rest p' -> consumed p p' = t.
Proof.
  intros Ht. unfold consumed. rewrite Ht, string_length_app.
  replace (String.length t + String.length (rest p') - String.length (rest p'))%nat
    with (String.length t) by lia.
  apply takeString_app.
Qed.

(** What a match consumed is a prefix of what was left. *)
Lemma Matches_text r p c p' c' :
  Matches r p c p' c' -> rest p = consumed p p' +:+ rest p'.
Proof.
  assert (H : Matches r p c p' c' -> exists t, rest p = t +:+ rest p').
  { intros Hm.
    induction Hm as [p c | class before a s c Ha
                     | r1 r2 p c p1 c1 p2 c2 Hm1 IH1 Hm2 IH2
                     | r1 r2 p c p' c' Hm IH | r1 r2 p c p' c' Hm IH
                     | greedy r p c
                     | greedy r p c p1 c1 p2 c2 Hm1 IH1 Hlt Hm2 IH2
                     | n r p c p' c' Hm IH | p c Hp | p c Hb]; simpl.
    - by exists EmptyString.
    - by exists (String a EmptyString).
    - destruct IH1 as [t1 H1], IH2 as [t2 H2].
      exists (t1 +:+ t2). by rewrite H1, H2, string_app_assoc.
    - done.
    - done.
    - by exists EmptyString.
    - destruct IH1 as [t1 H1], IH2 as [t2 H2].
      exists (t1 +:+ t2). by rewrite H1, H2, string_app_assoc.
    - done.
    - by exists EmptyString.
    - by exists EmptyString. }
  intros [t Ht]%H. by rewrite (consumed_text _ _ _ Ht).
Qed.

(** A pattern without groups leaves the captures as they were. *)
Lemma Matches_captureFree r p c p' c' :
  Matches r p c p' c' -> captureFree r = true -> c' = c.
Proof.
  intros Hm.
  induction Hm as [p c | class before a s c Ha
                   | r1 r2 p c p1 c1 p2 c2 Hm1 IH1 Hm2 IH2
                   | r1 r2 p c p' c' Hm IH | r1 r2 p c p' c' Hm IH
                   | greedy r p c
                   | greedy r p c p1 c1 p2 c2 Hm1 IH1 Hlt Hm2 IH2
                   | n r p c p' c' Hm IH | p c Hp | p c Hb];
    simpl; intros Hf; try done.
  - apply andb_true_iff in Hf as [H1 H2]. rewrite IH2, IH1; done.
  - apply andb_true_iff in Hf as [H1 H2]. auto.
  - apply andb_true_iff in Hf as [H1 H2]. auto.
  - rewrite IH2, IH1; done.
Qed.

Lemma Matches_seq r1 r2 p c p2 c2 :
  Matches (Seq r1 r2) p c p2 c2 ->
  exists p1 c1, Matches r1 p c p1 c1 /\ Matches r2 p1 c1 p2 c2.
Proof. inversion 1; subst. eauto. Qed.

Lemma Matches_group n r p c p' c'' :
  Matches (Group n r) p c p' c'' ->
  exists c', Matches r p c p' c' /\ c'' = (n, consumed p p') :: c'.
Proof. inversion 1; subst. eauto. Qed.

Lemma Matches_chr class p c p' c' :
  Matches (Chr class) p c p' c' ->
  exists a, class a = true /\ rest p = String a (rest p') /\ c' = c.
Proof. inversion 1; subst. simpl. eauto. Qed.

Lemma Matches_star_chars greedy class p c p' c' :
  Matches (Star greedy (Chr class)) p c p' c' ->
  exists t, rest p = t +:+ rest p' /\ everyChar class t = true.
Proof.
  remember (Star greedy (Chr class)) as r0 eqn:Hr. intros Hm.
  induction Hm as [| | | | | g r p c | g r p c p1 c1 p2 c2 Hm1 IH1 Hlt Hm2 IH2 | | |];
    try discriminate.
  - by exists EmptyString.
  - injection Hr as -> ->.
    apply Matches_chr in Hm1 as (a & Ha & Hrest & _).
    destruct (IH2 eq_refl) as (t & Ht & Hall).
    exists (String a t). split; [by rewrite Hrest, Ht|]. simpl. by rewrite Ha.
Qed.

Lemma Matches_plus_chars greedy class p c p' c' :
  Matches (plus greedy (Chr class)) p c p' c' ->
  exists t, rest p = t +:+ rest p' /\ everyChar class t = true
            /\ t <> EmptyString.
Proof.
  intros (p1 & c1 & (a & Ha & Hrest & _)%Matches_chr
          & (t & Ht & Hall)%Matches_star_chars)%Matches_seq.
  exists (String a t). split; [by rewrite Hrest, Ht|]. simpl. by rewrite Ha.
Qed.

Lemma Matches_lit s : forall p c p' c',
  Matches (lit s) p c p' c' -> rest p = s +:+ rest p' /\ c' = c.
Proof.
  induction s as [|a s IH]; intros p c p' c'; simpl.
  - inversion 1; subst. done.
  - intros (p1 & c1 & (b & Hb & Hrest & ->)%Matches_chr & [Hs ->]%IH)%Matches_seq.
    apply bool_decide_eq_true in Hb as ->. by rewrite Hrest, Hs.
Qed.

(** A part without groups in front of the rest of a pattern. *)
Lemma Matches_seq_free r1 r2 p c p2 c2 :
  captureFree r1 = true ->
  Matches (Seq r1 r2) p c p2 c2 ->
  exists p1, rest p = consumed p p1 +:+ rest p1 /\ Matches r2 p1 c p2 c2.
Proof.
  intros Hf (p1 & c1 & H1 & H2)%Matches_seq.
  pose proof (Matches_captureFree _ _ _ _ _ H1 Hf) as ->.
  exists p1. split; [by eapply Matches_text | done].
Qed.

Lemma everyChar_append class a b :
  everyChar class (a +:+ b) = everyChar class a && everyChar class b.
Proof. induction a as [|x a IH]; simpl; [done|]. by rewrite IH, andb_assoc. Qed.

Lemma everyChar_dropString class n s :
  everyChar class s = true -> everyChar class (dropString n s) = true.
Proof.
  revert s. induction n as [|n IH]; intros [|a s]; simpl; try done.
  intros [_ H]%andb_true_iff. by apply IH.
Qed.

Lemma everyChar_both (P Q R : ascii -> bool) s :
  (forall a, P a = true -> Q a = true -> R a = true) ->
  everyChar P s = true -> everyChar Q s = true -> everyChar R s = true.
Proof.
  intros H. induction s as [|a s IH]; simpl; [done|].
  intros [? ?]%andb_true_iff [? ?]%andb_true_iff.
  apply andb_true_iff. split; [by apply H | by apply IH].
Qed.

(** A replacement brings in no character that the text and the replacement
    do not have. *)
Lemma replaceAll_from_chars class r replacement :
  everyChar class replacement = true ->
  forall fuel before s,
    everyChar class s = true ->
    everyChar class (replaceAll_from fuel r replacement before s) = true.
Proof.
  intros Hrep. induction fuel as [|fuel IH]; intros before s Hs; simpl; [done|].
  destruct (matchAt r (mkPos before s)) as [m|].
  - destruct (String.length (matched m)) as [|n].
    + destruct s as [|a s]; [done|]. simpl in Hs.
      apply andb_true_iff in Hs as [Ha Hs].
      rewrite everyChar_append, Hrep. simpl. rewrite Ha. by apply IH.
    + rewrite everyChar_append, Hrep. simpl.
      apply IH. by apply (everyChar_dropString class (S n)).
  - destruct s as [|a s]; [done|]. simpl in Hs.
    apply andb_true_iff in Hs as [Ha Hs]. simpl. rewrite Ha. by apply IH.
Qed.

(** Removing the characters of a class leaves none of them. *)
Lemma replaceAll_from_removed class :
  forall fuel before s,
    (String.length s < fuel)%nat ->
    everyChar (fun a => negb (class a))
              (replaceAll_from fuel (Chr class) EmptyString before s) = true.
Proof.
  induction fuel as [|fuel IH]; intros before s Hfuel; [lia|].
  destruct s as [|a s]; [done|].
  simpl in Hfuel. cbn [replaceAll_from]. unfold matchAt. cbn [run rest].
  destruct (class a) eqn:Ha.
  - unfold consumed. cbn [rest String.length].
    replace (S (String.length s) - String.length s)%nat with 1%nat by lia.
    cbn [takeString matched String.length dropString].
    simpl. apply IH. lia.
  - simpl. rewrite Ha. simpl. apply IH. lia.
Qed.

End RegexProperties.

(** ** The structural analyzer *)

Module AnalyzerProperties.
Import Js JsFacts JsProperties Regex RegexProperties BatchTourGeneratorFacts.
Import TreeSitterAnalyzer TreeSitterAnalyzerFacts.

Local Arguments String.append !_ _ : simpl nomatch.

(** *** The grammar path *)

Lemma declaratorElement_info f c node cs e :
  declaratorElement f c node cs = Some e ->
  el_file e = f /\ (1 <= el_line e)%nat /\ el_type e <> TImport.
Proof.
  induction cs as [|child todo IH]; simpl; [done|].
  case_bool_decide; [|done].
  destruct (childForFieldName child "name"); [|done].
  destruct (childForFieldName child "value"); [|done].
  destruct (_ || _); [destruct (hasChildOfType _ _)|]; intros [= <-]; simpl;
    repeat split; (lia || done).
Qed.

Lemma typeMap_cases t ty :
  typeMap t = Some ty ->
  ty = TClass \/ ty = TFunction \/ ty = TMethod \/ ty = TInterface \/ ty = TEnum.
Proof.
  unfold typeMap, typeMapTable. simpl.
  repeat (case_bool_decide; [intros [= <-]; tauto|]). done.
Qed.

Lemma declarationElement_info f c node e :
  declarationElement f c node = Some e ->
  el_file e = f /\ (1 <= el_line e)%nat /\ el_type e <> TImport.
Proof.
  unfold declarationElement. destruct (typeMap (nd_type node)) as [ty|] eqn:Hty.
  - intros [= <-]. simpl. repeat split; [lia|].
    apply typeMap_cases in Hty.
    destruct Hty as [->|[->|[->|[->| ->]]]], (hasChildOfType node "async");
      simpl; discriminate.
  - destruct (_ || _); [|done]. apply declaratorElement_info.
Qed.

Lemma nodeToElement_info f c node e :
  nodeToElement f c node = Some e ->
  el_file e = f /\ (1 <= el_line e)%nat /\ el_type e <> TImport.
Proof.
  unfold nodeToElement.
  destruct (declarationElement f c node) eqn:E.
  - intros [= <-]. by apply declarationElement_info in E.
  - case_bool_decide; [|done].
    destruct (List.find _ _); [|done]. apply declarationElement_info.
Qed.

Lemma method_kind f c parentType node e :
  isMethodNode parentType node = true ->
  nodeToElement f c node = Some e ->
  el_type e = TMethod \/ el_type e = TFunction \/ el_type e = TAsyncFunction.
Proof.
  unfold isMethodNode, nodeToElement, declarationElement.
  intros Hm.
  assert (Hty : exists ty, typeMap (nd_type node) = Some ty
                           /\ (ty = TFunction \/ ty = TMethod)).
  { repeat (apply orb_true_iff in Hm as [Hm|Hm]);
      try (apply andb_true_iff in Hm as [_ Hm];
           apply orb_true_iff in Hm as [Hm|Hm]);
      apply bool_decide_eq_true in Hm; rewrite Hm; eexists; (split; [reflexivity|]);
      auto. }
  clear Hm. destruct Hty as (ty & -> & Hcases). simpl. intros [= <-]. simpl.
  destruct (hasChildOfType node "async"); simpl; [|tauto].
  case_bool_decide; simpl; tauto.
Qed.

Lemma traverse_shapes f c : forall node pt hp,
  let r := traverse f c pt hp node in
  Forall (promotedShape f) (fst r) /\ Forall (attachedShape f) (snd r).
Proof.
  induction node as [node IH] using SyntaxNode_ind_children.
  intros pt hp. cbv zeta. rewrite traverse_unfold. cbv zeta.
  set (ty := Some (nd_type node)) in *.
  assert (Hwalk : forall hp',
    let r := walkWith (traverse f c ty) hp' (nd_children node) in
    Forall (promotedShape f) (fst r) /\ Forall (attachedShape f) (snd r)).
  { intros hp'. cbv zeta. rewrite walkWith_flat. simpl.
    induction IH as [|child todo Hc _ IHtodo]; simpl.
    - split; constructor.
    - destruct (Hc ty hp') as [A1 B1]. destruct IHtodo as [A2 B2].
      split; by apply Forall_app. }
  clearbody ty. clear IH.
  destruct (nodeToElement f c node) as [e|] eqn:He; [|apply Hwalk].
  pose proof (nodeToElement_children _ _ _ _ He) as Hnil.
  destruct (nodeToElement_info _ _ _ _ He) as (Hf & Hl & Hi).
  case_bool_decide as Hcls.
  - destruct (Hwalk true) as [A B].
    destruct (hp && isMethodNode pt node) eqn:Hatt.
    { apply andb_true_iff in Hatt as [_ Hm].
      by destruct (method_not_class _ _ _ _ _ Hm He). }
    cbn [fst snd]. split; [|constructor].
    constructor; [|done]. repeat split; simpl; done.
  - destruct (Hwalk hp) as [A B].
    destruct (hp && isMethodNode pt node) eqn:Hatt; cbn [fst snd]; split; try done.
    + apply andb_true_iff in Hatt as [_ Hm].
      constructor; [|done]. repeat split; try done.
      by apply (method_kind f c pt node).
    + constructor; [|done]. repeat split; try done.
      rewrite Hnil. constructor.
Qed.

(** X1: whatever the tree, every element the grammar path returns belongs
    to the analysed file, sits on a 1-based line and is never an import;
    only a class element has children, and every child is a method or a
    (possibly async) function of the same file with no children of its
    own. *)
Theorem grammar_elements_shape node filePath content :
  Forall (fun e =>
    el_file e = filePath /\ (1 <= el_line e)%nat /\ el_type e <> TImport
    /\ (el_type e <> TClass -> el_children e = [])
    /\ Forall (fun m =>
         el_file m = filePath /\ (1 <= el_line m)%nat
         /\ (el_type m = TMethod \/ el_type m = TFunction
             \/ el_type m = TAsyncFunction)
         /\ el_children m = [])
       (el_children e))
    (extractElements node filePath content).
Proof.
  unfold extractElements.
  exact (proj1 (traverse_shapes filePath content node None false)).
Qed.

Lemma collectText_trimmed word content node :
  Forall (fun t => trim t = t) (collectText word content node).
Proof.
  induction node as [node IH] using SyntaxNode_ind_children.
  destruct node as [ty fld si ei sr er cs]. simpl in *.
  apply Forall_app. split.
  - destruct (includes ty word); constructor; [apply trim_idem | constructor].
  - induction IH as [|child todo Hc _ IHtodo]; simpl; [constructor|].
    by apply Forall_app.
Qed.

(** *** The regex fallback *)

Lemma scanClass_statements f index trimmed indent st :
  sc_imports (scanClass f index trimmed indent st) = sc_imports st
  /\ sc_exports (scanClass f index trimmed indent st) = sc_exports st.
Proof. unfold scanClass. by destruct (classMatch trimmed). Qed.

Lemma scanMethod_statements f index trimmed indent st :
  sc_imports (scanMethod f index trimmed indent st) = sc_imports st
  /\ sc_exports (scanMethod f index trimmed indent st) = sc_exports st.
Proof.
  unfold scanMethod. destruct (methodMatch trimmed); [|done].
  destruct (_ && _); [|done].
  destruct (sc_currentClass st); [|done].
  by destruct (_ <? _).
Qed.

Lemma scanLine_statements f lang st index line :
  sc_imports (scanLine f lang st index line)
  = sc_imports st ++ filter mentionsImport [Js.trim line]
  /\ sc_exports (scanLine f lang st index line)
     = sc_exports st ++ filter startsWithExport [Js.trim line].
Proof.
  unfold scanLine, scanStatements. cbn [sc_imports sc_exports].
  set (st1 := if _ || _ then _ else st).
  assert (H : sc_imports st1 = sc_imports st /\ sc_exports st1 = sc_exports st).
  { subst st1. destruct (_ || _); [|done].
    destruct (scanMethod_statements f index (trim line) (search_nonspace line)
                (scanClass f index (trim line) (search_nonspace line) st)) as [-> ->].
    apply scanClass_statements. }
  destruct H as [-> ->].
  rewrite !filter_cons, !filter_nil. clear st1. split.
  - destruct (decide (mentionsImport (trim line))) as [H|H]; unfold mentionsImport in H.
    + by rewrite H.
    + apply not_true_is_false in H. rewrite H. by rewrite app_nil_r.
  - destruct (decide (startsWithExport (trim line))) as [H|H];
      unfold startsWithExport in H.
    + by rewrite H.
    + apply not_true_is_false in H. rewrite H. by rewrite app_nil_r.
Qed.

Lemma scanLines_statements f lang lines : forall index st,
  sc_imports (scanLines f lang lines index st)
  = sc_imports st ++ filter mentionsImport (Js.trim <$> lines)
  /\ sc_exports (scanLines f lang lines index st)
     = sc_exports st ++ filter startsWithExport (Js.trim <$> lines).
Proof.
  induction lines as [|line todo IH]; intros index st.
  - simpl. by rewrite !app_nil_r.
  - cbn [scanLines]. destruct (IH (S index) (scanLine f lang st index line)) as [-> ->].
    destruct (scanLine_statements f lang st index line) as [-> ->].
    rewrite fmap_cons, <- !app_assoc.
    change (trim line :: (trim <$> todo)) with ([trim line] ++ (trim <$> todo)).
    by rewrite !filter_app.
Qed.

Lemma analyzeFileRegex_statements filePath content languageId :
  let analysis := analyzeFileRegex filePath content languageId in
  let trimmed := Js.trim <$> Js.split "010" content in
  fa_file analysis = filePath
  /\ fa_language analysis = languageId
  /\ fa_imports analysis = filter mentionsImport trimmed
  /\ fa_exports analysis = filter startsWithExport trimmed.
Proof.
  cbv zeta. unfold analyzeFileRegex. simpl.
  destruct (scanLines_statements filePath languageId (split "010" content) 0
              (mkRegexScan [] None 0 [] [])) as [-> ->].
  done.
Qed.

(** X2: the fallback records as imports exactly the trimmed lines that
    contain [import ] or [from ], and as exports exactly the trimmed lines
    that start with [export ], both in line order and whatever the
    language; the analysis carries the path and the language it was given. *)
Theorem fallback_statements_are_filtered_lines filePath content languageId :
  let analysis := analyzeFileRegex filePath content languageId in
  let trimmed := Js.trim <$> Js.split "010" content in
  fa_file analysis = filePath
  /\ fa_language analysis = languageId
  /\ fa_imports analysis = filter mentionsImport trimmed
  /\ fa_exports analysis = filter startsWithExport trimmed.
Proof. apply analyzeFileRegex_statements. Qed.

Lemma scanLines_other_language f lang lines : forall index st,
  lang <> "typescript" -> lang <> "javascript" ->
  sc_elements (scanLines f lang lines index st) = sc_elements st.
Proof.
  induction lines as [|line todo IH]; intros index st H1 H2; simpl; [done|].
  rewrite IH by done. unfold scanLine.
  by rewrite !bool_decide_eq_false_2 by done.
Qed.

(** X3: a file whose language id is neither [typescript] nor [javascript]
    and that the grammar path does not take (no parser, no grammar, or a
    failed parse) is analysed to no elements at all, so the batch filter
    does not count it as important. *)
Theorem fallback_reads_only_typescript_and_javascript
        parserReady languages parse filePath content languageId :
  languageId <> "typescript" -> languageId <> "javascript" ->
  (parserReady = false
   \/ getLanguage languages languageId = None
   \/ (exists grammar, getLanguage languages languageId = Some grammar
                       /\ parse grammar content = None)) ->
  exists analysis,
    analyzeFile parserReady languages parse filePath content languageId = Some analysis
    /\ fa_elements analysis = []
    /\ BatchTourGenerator.isImportantFile analysis = false.
Proof.
  intros H1 H2 Hfb%grammarTree_fallback. unfold analyzeFile. rewrite Hfb.
  eexists. split; [reflexivity|].
  assert (He : fa_elements (analyzeFileRegex filePath content languageId) = []).
  { unfold analyzeFileRegex. cbn [fa_elements].
    by rewrite scanLines_other_language. }
  split; [done|]. unfold BatchTourGenerator.isImportantFile. rewrite He.
  by destruct (BatchTourGenerator.isNoiseFile _).
Qed.

Lemma scanned_mono f b b' e : (b <= b')%nat -> scanned f b e -> scanned f b' e.
Proof.
  intros Hb (H1 & H2 & H3 & H4 & H5 & H6). repeat split; try done; [lia|].
  eapply Forall_impl; [exact H5|]. simpl. intros m (? & ? & ?).
  repeat split; try done; lia.
Qed.

Lemma scanLine_invariant f lang st index line :
  scanInvariant f index st ->
  scanInvariant f (S index) (scanLine f lang st index line).
Proof.
  intros Hst.
  assert (Hmono : scanInvariant f (S index) st).
  { destruct Hst as (H1 & H2 & H3). split; [|done].
    eapply Forall_impl; [exact H1|]. intros e. apply scanned_mono. lia. }
  assert (Hold : Forall (fun y => (y <= index + 1)%nat) (el_line <$> sc_elements st)).
  { destruct Hst as (H1 & _). apply Forall_fmap.
    eapply Forall_impl; [exact H1|]. intros e (_ & ? & _). simpl. lia. }
  clear Hst.
  unfold scanLine, scanStatements.
  set (trimmed := Js.trim line). set (indent := Js.search_nonspace line).
  match goal with
  | |- scanInvariant _ _ (mkRegexScan (sc_elements ?s) (sc_currentClass ?s) _ _ _) =>
      set (st1 := s); enough (scanInvariant f (S index) st1) as Hgoal by exact Hgoal
  end.
  subst st1. destruct (_ || _); [|done].
  assert (Hc : scanInvariant f (S index) (scanClass f index trimmed indent st)
               /\ Forall (fun y => (y <= index + 1)%nat)
                         (el_line <$> sc_elements (scanClass f index trimmed indent st))).
  { unfold scanClass. destruct (classMatch trimmed) as [name|]; [|done]. simpl.
    destruct Hmono as (H1 & H2 & H3).
    split; [split; [|split]|]; cbn [sc_elements sc_currentClass].
    - apply Forall_app. split; [done|]. constructor; [|constructor].
      repeat split; simpl; try done; try lia; try (by left); constructor.
    - rewrite fmap_app. simpl. by apply StronglySorted_snoc.
    - intros c e [= <-] He. rewrite lookup_app_r in He by lia.
      rewrite Nat.sub_diag in He. simpl in He. by injection He as <-.
    - rewrite fmap_app. apply Forall_app. split; [done|]. simpl.
      constructor; [lia|constructor]. }
  clear Hmono Hold.
  generalize dependent (scanClass f index trimmed indent st).
  intros st1 [(H1 & H2 & H3) Hold]. unfold scanMethod.
  destruct (methodMatch trimmed) as [name|]; [|done].
  destruct (_ && _); [|done].
  set (method := mkCodeElement _ name f (index + 1) (index + 1) []).
  assert (Hkind : functionKind method).
  { subst method. unfold functionKind. simpl. destruct (includes trimmed "async"); auto. }
  assert (Hnew : scanned f (S index) method).
  { repeat split; simpl; try done; try lia; try (by right); try constructor. }
  assert (Happ : scanInvariant f (S index)
                   (mkRegexScan (sc_elements st1 ++ [method]) None (sc_currentIndent st1)
                                (sc_imports st1) (sc_exports st1))).
  { split; [|split]; simpl.
    - apply Forall_app. split; [done|]. by constructor.
    - rewrite fmap_app. simpl. by apply StronglySorted_snoc.
    - done. }
  destruct (sc_currentClass st1) as [k|] eqn:Hk; [|done].
  destruct (sc_currentIndent st1 <? indent); [|done].
  split; [|split]; simpl.
  - apply Forall_forall. intros e He.
    apply list_elem_of_lookup in He as [i Hi].
    destruct (decide (i = k)) as [->|Hne].
    + rewrite list_lookup_alter_eq in Hi.
      destruct (sc_elements st1 !! k) as [cls|] eqn:Hcls; simpl in Hi; [|done].
      injection Hi as <-.
      pose proof (H3 k cls eq_refl Hcls) as Hty.
      rewrite Forall_lookup in H1. destruct (H1 k cls Hcls) as (A & B & C & D & E & F).
      unfold pushChild. repeat split; simpl; try done.
      * apply Forall_app. split; [done|]. constructor; [|constructor].
        repeat split; simpl; try done; lia.
      * rewrite fmap_app. simpl. apply StronglySorted_snoc; [done|].
        apply Forall_fmap. eapply Forall_impl; [exact E|]. simpl.
        intros m (_ & ? & _). lia.
    + rewrite list_lookup_alter_ne in Hi by done.
      rewrite Forall_lookup in H1. by apply (H1 i).
  - assert (Heq : el_line <$> alter (pushChild method) k (sc_elements st1)
                  = el_line <$> sc_elements st1).
    { apply list_eq. intros i. rewrite !list_lookup_fmap.
      destruct (decide (i = k)) as [->|Hne].
      - rewrite list_lookup_alter_eq. by destruct (sc_elements st1 !! k).
      - by rewrite list_lookup_alter_ne. }
    by rewrite Heq.
  - intros c e [= <-] He. rewrite list_lookup_alter_eq in He.
    destruct (sc_elements st1 !! k) as [cls|] eqn:Hcls; simpl in He; [|done].
    injection He as <-. simpl. by apply (H3 k).
Qed.

Lemma scanLines_invariant f lang lines : forall index st,
  scanInvariant f index st ->
  scanInvariant f (index + length lines) (scanLines f lang lines index st).
Proof.
  induction lines as [|line todo IH]; intros index st Hst; simpl.
  - by rewrite Nat.add_0_r.
  - replace (index + S (length todo))%nat with (S index + length todo)%nat by lia.
    apply IH. by apply scanLine_invariant.
Qed.

(** X4: the elements of the fallback come in line order and point at lines
    of the text; each is a class or a (possibly async) function of the
    analysed file; only a class has children, and its children are
    functions on lines from the class line on, in line order. *)
Theorem fallback_elements_follow_the_lines filePath content languageId :
  let elements := fa_elements (analyzeFileRegex filePath content languageId) in
  let lineCount := length (Js.split "010" content) in
  StronglySorted le (el_line <$> elements)
  /\ Forall (fun e =>
       el_file e = filePath
       /\ (el_line e <= lineCount)%nat
       /\ (el_type e = TClass \/ el_type e = TFunction \/ el_type e = TAsyncFunction)
       /\ (el_type e <> TClass -> el_children e = [])
       /\ Forall (fun m => el_file m = filePath
                           /\ (el_line e <= el_line m <= lineCount)%nat
                           /\ (el_type m = TFunction \/ el_type m = TAsyncFunction))
                 (el_children e)
       /\ StronglySorted le (el_line <$> el_children e))
     elements.
Proof.
  cbv zeta. unfold analyzeFileRegex. cbn [fa_elements].
  destruct (scanLines_invariant filePath languageId (split "010" content) 0
              (mkRegexScan [] None 0 [] [])) as (H1 & H2 & _).
  { split; [constructor|]. split; [constructor|]. intros c e. discriminate. }
  split; [done|]. exact H1.
Qed.

Lemma classMatch_name trimmed name :
  classMatch trimmed = Some name -> wordIn trimmed name.
Proof.
  unfold classMatch, exec.
  destruct (exec_from classPattern None trimmed) as [m|] eqn:E; [|done].
  apply exec_from_sound in E as (pre & b & s' & p' & -> & Hm & _).
  destruct m as [text caps]. simpl in Hm. unfold classPattern in Hm.
  apply Matches_seq_free in Hm as (p1 & T1 & Hm); [|done].
  apply Matches_seq_free in Hm as (p2 & T2 & Hm); [|done].
  apply Matches_seq_free in Hm as (p3 & T3 & Hm); [|done].
  apply Matches_seq_free in Hm as (p4 & T4 & Hm); [|done].
  apply Matches_seq_free in Hm as (p5 & T5 & Hm); [|done].
  apply Matches_group in Hm as (c' & Hm & ->).
  pose proof (Matches_captureFree _ _ _ _ _ Hm eq_refl) as ->.
  apply Matches_plus_chars in Hm as (t & Ht & Hall & Hne).
  rewrite (consumed_text _ _ _ Ht). simpl. intros [= <-].
  split; [done|]. split; [done|].
  simpl in T1. rewrite T1, T2, T3, T4, T5, Ht.
  exists (pre +:+ consumed (mkPos b s') p1 +:+ consumed p1 p2 +:+ consumed p2 p3
          +:+ consumed p3 p4 +:+ consumed p4 p5), (rest p').
  by rewrite !string_app_assoc.
Qed.

Lemma methodMatch_name trimmed name :
  methodMatch trimmed = Some name -> wordIn trimmed name.
Proof.
  unfold methodMatch, exec.
  destruct (exec_from methodPattern None trimmed) as [m|] eqn:E; [|done].
  apply exec_from_sound in E as (pre & b & s' & p' & -> & Hm & _).
  destruct m as [text caps]. simpl in Hm. unfold methodPattern in Hm.
  apply Matches_seq_free in Hm as (p1 & T1 & Hm); [|done].
  apply Matches_seq_free in Hm as (p2 & T2 & Hm); [|done].
  apply Matches_seq_free in Hm as (p3 & T3 & Hm); [|done].
  apply Matches_seq in Hm as (p4 & c4 & Hg & Hafter).
  apply Matches_group in Hg as (c' & Hg & ->).
  pose proof (Matches_captureFree _ _ _ _ _ Hg eq_refl) as ->.
  pose proof (Matches_captureFree _ _ _ _ _ Hafter eq_refl) as ->.
  apply Matches_plus_chars in Hg as (t & Ht & Hall & Hne).
  rewrite (consumed_text _ _ _ Ht). simpl. intros [= <-].
  split; [done|]. split; [done|].
  simpl in T1. rewrite T1, T2, T3, Ht.
  exists (pre +:+ consumed (mkPos b s') p1 +:+ consumed p1 p2 +:+ consumed p2 p3),
         (rest p4).
  by rewrite !string_app_assoc.
Qed.

Lemma scanLine_named f lang all st index line :
  all !! index = Some line ->
  Forall (namedOnLines all) (sc_elements st) ->
  Forall (namedOnLines all) (sc_elements (scanLine f lang st index line)).
Proof.
  intros Hline Hst. unfold scanLine, scanStatements. cbn [sc_elements].
  destruct (_ || _); [|done].
  set (trimmed := Js.trim line). set (indent := Js.search_nonspace line).
  assert (Hnew : forall ty name, wordIn trimmed name ->
            namedOnLine all (mkCodeElement ty name f (index + 1) (index + 1) [])).
  { intros ty name Hw. split; simpl; [lia|]. exists line.
    by replace (index + 1 - 1)%nat with index by lia. }
  assert (Hc : Forall (namedOnLines all)
                 (sc_elements (scanClass f index trimmed indent st))).
  { unfold scanClass. destruct (classMatch trimmed) as [name|] eqn:E; [|done].
    cbn [sc_elements]. apply Forall_app. split; [done|].
    constructor; [|constructor]. split; [|constructor].
    apply Hnew. by apply classMatch_name. }
  generalize dependent (scanClass f index trimmed indent st).
  intros st1 Hc. unfold scanMethod.
  destruct (methodMatch trimmed) as [name|] eqn:E; [|done].
  apply methodMatch_name in E.
  destruct (_ && _); [|done].
  destruct (sc_currentClass st1) as [k|]; cbn [sc_elements].
  - destruct (sc_currentIndent st1 <? indent); cbn [sc_elements].
    + apply Forall_alter; [done|]. intros cls _ [H1 H2].
      split; [done|]. simpl. apply Forall_app. split; [done|].
      constructor; [|constructor]. by apply Hnew.
    + apply Forall_app. split; [done|]. constructor; [|constructor].
      split; [by apply Hnew | constructor].
  - apply Forall_app. split; [done|]. constructor; [|constructor].
    split; [by apply Hnew | constructor].
Qed.

Lemma scanLines_named f lang all : forall todo seen st,
  all = seen ++ todo ->
  Forall (namedOnLines all) (sc_elements st) ->
  Forall (namedOnLines all) (sc_elements (scanLines f lang todo (length seen) st)).
Proof.
  induction todo as [|line todo IH]; intros seen st Hall Hst; simpl; [done|].
  specialize (IH (seen ++ [line]) (scanLine f lang st (length seen) line)).
  rewrite length_app in IH. simpl in IH. rewrite Nat.add_1_r in IH.
  apply IH.
  - by rewrite <- app_assoc.
  - apply scanLine_named; [|done]. subst all. by rewrite list_lookup_middle.
Qed.

(** X5: every element and every child the fallback reports points at a
    line of the text, and its name is a non-empty run of word characters
    that occurs in that line once trimmed. *)
Theorem fallback_names_stand_on_their_lines filePath content languageId :
  Forall (fun e =>
    let named (x : CodeElement) :=
      (1 <= el_line x)%nat
      /\ exists line,
           Js.split "010" content !! (el_line x - 1)%nat = Some line
           /\ el_name x <> EmptyString
           /\ Regex.everyChar Regex.wordChar (el_name x) = true
           /\ exists pre post, Js.trim line = pre +:+ el_name x +:+ post in
    named e /\ Forall named (el_children e))
    (fa_elements (analyzeFileRegex filePath content languageId)).
Proof.
  unfold analyzeFileRegex. cbn [fa_elements].
  exact (scanLines_named filePath languageId (split "010" content)
           (split "010" content) [] (mkRegexScan [] None 0 [] [])
           eq_refl (Forall_nil_2 _)).
Qed.

(** *** [analyzeFile] *)

(** Once the analyzer is initialized the method returns an analysis on
    either path, and what it records as imports and exports is trimmed. *)
Lemma analyzeFile_analysis
      parserReady languages parse filePath content languageId :
  exists analysis,
    analyzeFile parserReady languages parse filePath content languageId = Some analysis
    /\ fa_file analysis = filePath
    /\ fa_language analysis = languageId
    /\ Forall (fun t => Js.trim t = t) (fa_imports analysis)
    /\ Forall (fun t => Js.trim t = t) (fa_exports analysis).
Proof.
  unfold analyzeFile.
  destruct (grammarTree parserReady languages parse content languageId) as [root|].
  - eexists. split; [reflexivity|]. simpl. repeat split; apply collectText_trimmed.
  - eexists. split; [reflexivity|].
    destruct (analyzeFileRegex_statements filePath content languageId)
      as (-> & -> & -> & ->).
    repeat split.
    + apply Forall_forall. intros t [_ (l & -> & _)%list_elem_of_fmap]%list_elem_of_filter.
      apply trim_idem.
    + apply Forall_forall. intros t [_ (l & -> & _)%list_elem_of_fmap]%list_elem_of_filter.
      apply trim_idem.
Qed.

(** X6: a call of [analyzeFile] fails to answer in one case only: the
    analyzer is not yet initialized and the start of the parser runtime
    never settles.  In every other case it answers with an analysis, never
    with [null]; the analysis carries the path and the language id it was
    given, and on either path every import and export it records is a
    trimmed text. *)
Theorem analyzeFile_answers_unless_the_start_hangs
        rt parse st filePath content languageId :
  let answer := snd (analyzeFileIn rt parse st filePath content languageId) in
  (answer = None <-> as_initialized st = false /\ rt_start rt = Pending)
  /\ (forall returned,
        answer = Some returned ->
        exists analysis,
          returned = Some analysis
          /\ fa_file analysis = filePath
          /\ fa_language analysis = languageId
          /\ Forall (fun t => Js.trim t = t) (fa_imports analysis)
          /\ Forall (fun t => Js.trim t = t) (fa_exports analysis)).
Proof.
  cbv zeta. unfold analyzeFileIn, initializeSettles. simpl. split.
  - destruct (as_initialized st); simpl.
    + split; [discriminate | by intros [? _]].
    + destruct (rt_start rt); simpl; split; (discriminate || tauto || by intros [_ ?]).
  - intros returned Hr.
    destruct (as_initialized st || _); [|discriminate].
    injection Hr as <-. apply analyzeFile_analysis.
Qed.

(** *** Discovery, prioritisation and the dependency graph *)

(** X7: [prioritizeFiles] reorders its input and nothing else: the result
    is a permutation of the files, in order of non-increasing priority
    score, and files of equal score keep the order they came in. *)
Theorem prioritized_by_score_stably files :
  prioritizeFiles files ≡ₚ files
  /\ StronglySorted (fun a b => priorityScore b <= priorityScore a)
                    (prioritizeFiles files)
  /\ (forall score,
        filter (fun uri => priorityScore uri = score) (prioritizeFiles files)
        = filter (fun uri => priorityScore uri = score) files).
Proof.
  unfold prioritizeFiles. rewrite sortDescending_keyed.
  split; [apply sortDescending_perm|].
  split; [apply sortDescending_sorted|].
  intros score. apply sortDescending_stable.
Qed.

Lemma buildDependencyGraph_snoc files f :
  buildDependencyGraph (files ++ [f])
  = <[fa_file f := omap importSpecifier (fa_imports f)]> (buildDependencyGraph files).
Proof. unfold buildDependencyGraph. by rewrite foldl_app. Qed.

Lemma dependency_graph_domain files path :
  is_Some (buildDependencyGraph files !! path) <-> path ∈ fa_file <$> files.
Proof.
  induction files as [|f files IH] using rev_ind.
  - unfold buildDependencyGraph. simpl. rewrite lookup_empty.
    split; [by intros [? ?] | by intros ?%elem_of_nil].
  - rewrite buildDependencyGraph_snoc, fmap_app, elem_of_app.
    rewrite lookup_insert_is_Some, IH. simpl. rewrite list_elem_of_singleton.
    split.
    + intros [ <- | [_ ?] ]; auto.
    + intros [?| ->]; [|by left].
      destruct (decide (fa_file f = path)); [by left | by right].
Qed.

Lemma dependency_graph_lookup files path deps :
  buildDependencyGraph files !! path = Some deps ->
  exists f, f ∈ files /\ fa_file f = path
            /\ deps = omap importSpecifier (fa_imports f).
Proof.
  induction files as [|f files IH] using rev_ind.
  - unfold buildDependencyGraph. simpl. by rewrite lookup_empty.
  - rewrite buildDependencyGraph_snoc.
    destruct (decide (fa_file f = path)) as [<-|Hne].
    + rewrite lookup_insert_eq. intros [= <-]. exists f.
      split; [|done]. apply elem_of_app. right. by left.
    + rewrite lookup_insert_ne by done. intros (g & Hg & ? & ?)%IH.
      exists g. split; [|done]. apply elem_of_app. by left.
Qed.

(** X8: as long as no analysed file is called [__proto__], the dependency
    graph has an entry for a path exactly when that path is the path of an
    analysed file; and the entry of a file whose path does not come again
    later in the list holds the module specifiers of that file's imports,
    in order. *)
Theorem dependency_graph_entries files :
  "__proto__" ∉ fa_file <$> files ->
  (forall path, is_Some (buildDependencyGraph files !! path)
                <-> path ∈ fa_file <$> files)
  /\ (forall before f after,
        files = before ++ f :: after ->
        fa_file f ∉ fa_file <$> after ->
        buildDependencyGraph files !! fa_file f
        = Some (omap importSpecifier (fa_imports f))).
Proof.
  intros _. split; [apply dependency_graph_domain|].
  intros before f after -> Hlast.
  induction after as [|g after IH] using rev_ind.
  - rewrite buildDependencyGraph_snoc. by rewrite lookup_insert_eq.
  - rewrite fmap_app, elem_of_app in Hlast. simpl in Hlast.
    rewrite list_elem_of_singleton in Hlast.
    replace (before ++ f :: after ++ [g]) with ((before ++ f :: after) ++ [g])
      by (by rewrite <- app_assoc).
    rewrite buildDependencyGraph_snoc, lookup_insert_ne
      by (intros E; apply Hlast; by right).
    apply IH. tauto.
Qed.

Lemma importSpecifier_shape importStmt specifier :
  importSpecifier importStmt = Some specifier ->
  quotedAfterFrom importStmt specifier.
Proof.
  unfold importSpecifier, exec.
  destruct (exec_from fromPattern None importStmt) as [m|] eqn:E; [|done].
  apply exec_from_sound in E as (pre & b & s' & p' & -> & Hm & _).
  destruct m as [text caps]. simpl in Hm. unfold fromPattern in Hm.
  apply Matches_seq in Hm as (p1 & c1 & [T1 ->]%Matches_lit & Hm).
  apply Matches_seq in Hm as (p2 & c2 & Hgap & Hm).
  pose proof (Matches_captureFree _ _ _ _ _ Hgap eq_refl) as ->.
  apply Matches_plus_chars in Hgap as (gap & T2 & Hgap & Hgne).
  apply Matches_seq in Hm as (p3 & c3 & (q1 & Hq1 & T3 & ->)%Matches_chr & Hm).
  apply Matches_seq in Hm as (p4 & c4 & Hg & (q2 & Hq2 & T5 & ->)%Matches_chr).
  apply Matches_group in Hg as (c' & Hg & ->).
  pose proof (Matches_captureFree _ _ _ _ _ Hg eq_refl) as ->.
  apply Matches_plus_chars in Hg as (t & T4 & Hall & Hne).
  rewrite (consumed_text _ _ _ T4). simpl. intros [= <-].
  split; [done|]. split; [done|].
  exists pre, gap, q1, q2, (rest p'). simpl in T1.
  rewrite T1, T2, T3, T4, T5. by repeat split.
Qed.

(** X9: every dependency the graph lists for a path was read off an import
    statement of an analysed file with that path: it is a non-empty,
    single-line text that stands in the statement between two quotes,
    after [from] and white space. *)
Theorem dependencies_are_quoted_after_from files path deps specifier :
  buildDependencyGraph files !! path = Some deps ->
  specifier ∈ deps ->
  exists f importStmt,
    f ∈ files /\ fa_file f = path /\ importStmt ∈ fa_imports f
    /\ quotedAfterFrom importStmt specifier.
Proof.
  intros (f & Hf & Hpath & ->)%dependency_graph_lookup
         (importStmt & Hin & Hs)%list_elem_of_omap.
  exists f, importStmt. repeat split; try done.
  - by apply importSpecifier_shape in Hs as (? & _).
  - by apply importSpecifier_shape in Hs as (_ & ? & _).
  - by apply importSpecifier_shape in Hs as (_ & _ & ?).
Qed.

Lemma analysed_paths pr langs parse openDoc (l : list string) :
  fa_file <$> omap (analyzeOne pr langs parse openDoc) l
  = filter (fun uri => is_Some (openDoc uri)) l.
Proof.
  induction l as [|uri l IH]; [done|].
  rewrite omap_cons_eq, filter_cons. unfold analyzeOne at 1.
  destruct (openDoc uri) as [[text lang]|] eqn:E.
  - rewrite decide_True by eauto.
    destruct (analyzeFile pr langs parse uri text lang) as [a|] eqn:Ea.
    + apply analyzeFile_file in Ea. rewrite fmap_cons, Ea, IH. done.
    + unfold analyzeFile in Ea. by destruct (grammarTree _ _ _ _ _).
  - rewrite decide_False by (by intros [? ?]). exact IH.
Qed.

(** X10: [analyzeProject] analyses exactly the files to analyse that can be
    opened, in their priority order: a file that fails to open is left
    out and the others are not affected.  The entry points are the
    analysed paths that contain [index], [main] or [app], in the same
    order, and, no file being called [__proto__], the dependency graph has
    an entry per analysed path and no other. *)
Theorem analysed_files_are_the_openable_ones
        parserReady languages parse findFiles openTextDocument rootPath maxFiles
        includeFileTypes :
  let project := analyzeProject parserReady languages parse findFiles
                                openTextDocument rootPath maxFiles
                                includeFileTypes in
  let paths := fa_file <$> ps_files project in
  paths = filter (fun uri => is_Some (openTextDocument uri))
                 (filesToAnalyze findFiles maxFiles includeFileTypes)
  /\ ps_entryPoints project `sublist_of` paths
  /\ (forall path, path ∈ ps_entryPoints project
                   <-> path ∈ paths /\ isEntryPoint path = true)
  /\ ("__proto__" ∉ paths ->
      forall path, is_Some (ps_dependencies project !! path) <-> path ∈ paths).
Proof.
  cbv zeta. unfold analyzeProject. cbn [ps_files ps_entryPoints ps_dependencies].
  split; [apply analysed_paths|]. split; [apply sublist_filter|].
  split.
  - intros path. rewrite list_elem_of_filter. tauto.
  - intros _ path. apply dependency_graph_domain.
Qed.

(** *** [initialize] *)

(** X11: [initialize] runs once.  Whenever its call settles, the analyzer
    is marked initialized and a second call changes nothing, whatever the
    runtime has become.  When the start of the parser runtime throws, the
    analyzer stays without a parser and every later [analyzeFile] answers
    with the regex analysis.  When the start never settles, neither does
    [initialize]: the analyzer is left as it was, not marked initialized,
    and [analyzeFile] never answers. *)
Theorem initialize_runs_once rt rt' st :
  (initializeSettles rt st = true ->
     as_initialized (initialize rt st) = true
     /\ initialize rt' (initialize rt st) = initialize rt st)
  /\ (initializeSettles rt st = false ->
      as_initialized st = false /\ rt_start rt = Pending
      /\ initialize rt st = st
      /\ forall parse filePath content languageId,
           analyzeFileIn rt parse st filePath content languageId = (st, None))
  /\ (rt_start rt = Threw ->
      let failed := initialize rt freshAnalyzer in
      as_parser failed = false
      /\ forall parse filePath content languageId,
           analyzeFileIn rt' parse failed filePath content languageId
           = (failed, Some (Some (analyzeFileRegex filePath content languageId)))).
Proof.
  split; [|split].
  - unfold initializeSettles, initialize.
    destruct (as_initialized st) eqn:E; [by rewrite E|].
    destruct (rt_start rt); simpl; [done|done|discriminate].
  - unfold initializeSettles, analyzeFileIn.
    destruct (as_initialized st) eqn:E; [discriminate|].
    unfold initializeSettles, initialize. rewrite E.
    destruct (rt_start rt); simpl; [discriminate|discriminate|].
    by repeat split.
  - intros Hrt. cbv zeta. unfold initialize, analyzeFileIn. simpl.
    rewrite Hrt. simpl. by repeat split.
Qed.

(** X12: after [initialize], a language id has a grammar exactly when the
    parser runtime started and the grammar file behind it loaded:
    [typescriptreact] goes with [typescript], [javascriptreact] with
    [javascript]; no other language id ever has one. *)
Theorem grammars_come_in_pairs rt :
  let languages := as_languages (initialize rt freshAnalyzer) in
  (getLanguage languages "typescript" = Some "typescript"
     <-> rt_parser rt && rt_typescript rt = true)
  /\ (getLanguage languages "typescriptreact" = Some "tsx"
     <-> rt_parser rt && rt_typescript rt = true)
  /\ (getLanguage languages "javascript" = Some "javascript"
     <-> rt_parser rt && rt_javascript rt = true)
  /\ (getLanguage languages "javascriptreact" = Some "jsx"
     <-> rt_parser rt && rt_javascript rt = true)
  /\ (getLanguage languages "python" = Some "python"
     <-> rt_parser rt && rt_python rt = true)
  /\ (forall languageId,
        languageId ∉ ["typescript"; "typescriptreact"; "javascript";
                      "javascriptreact"; "python"] ->
        getLanguage languages languageId = None).
Proof.
  cbv zeta. split; [|split; [|split; [|split; [|split]]]].
  1-5: destruct rt as [[] [] [] []]; vm_compute; split; (done || discriminate).
  intros languageId Hout. unfold getLanguage, langMap.
  repeat (case_bool_decide as E;
          [subst languageId; exfalso; apply Hout; set_solver|clear E]).
  done.
Qed.

(** *** Examples *)

Import Samples.

Lemma fallback_reads_only_witness :
  exists analysis,
    analyzeFile false [] (fun _ _ => None) "app.py" "def f(): pass" "python"
    = Some analysis
    /\ fa_elements analysis = []
    /\ BatchTourGenerator.isImportantFile analysis = false.
Proof.
  apply fallback_reads_only_typescript_and_javascript.
  - discriminate.
  - discriminate.
  - left. reflexivity.
Defined.

Lemma dependency_graph_witness :
  buildDependencyGraph [importingFile; sourceFile "src/b.ts"] !! "src/a.ts"
  = Some ["./util"].
Proof.
  refine (proj2 (dependency_graph_entries [importingFile; sourceFile "src/b.ts"] _)
            [] importingFile [sourceFile "src/b.ts"] eq_refl _).
  - intros H. simpl in H.
    repeat (apply elem_of_cons in H as [H|H]; [discriminate|]).
    by apply elem_of_nil in H.
  - intros H. simpl in H.
    repeat (apply elem_of_cons in H as [H|H]; [discriminate|]).
    by apply elem_of_nil in H.
Defined.

Lemma dependencies_witness :
  exists f importStmt,
    f ∈ [importingFile] /\ fa_file f = "src/a.ts"
    /\ importStmt ∈ fa_imports f
    /\ quotedAfterFrom importStmt "./util".
Proof.
  apply (dependencies_are_quoted_after_from [importingFile] "src/a.ts" ["./util"]).
  - vm_compute. reflexivity.
  - apply list_elem_of_here.
Defined.

(** The tree of the specification through the shape theorem's eyes, and a
    text for the fallback. *)
Example fallback_statements_example :
  fa_imports (analyzeFileRegex "a.ts" ("import a from 'b'" +:+ nl +:+ "  export const x = 1") "go")
  = ["import a from 'b'"]
  /\ fa_exports (analyzeFileRegex "a.ts" ("import a from 'b'" +:+ nl +:+ "  export const x = 1") "go")
     = ["export const x = 1"].
Proof. split; reflexivity. Qed.

Example grammars_example :
  as_languages (initialize fullRuntime freshAnalyzer)
  = ["typescript"; "tsx"; "javascript"; "jsx"; "python"]
  /\ initialize fullRuntime (initialize failedRuntime freshAnalyzer)
     = mkAnalyzerState false [] true.
Proof. split; reflexivity. Qed.

(** With the wasm file of the runtime missing, [initialize] stays
    suspended: the analyzer is not marked initialized and [analyzeFile]
    never answers, at the first call as at any later one. *)
Example pending_start_example :
  initialize hangingRuntime freshAnalyzer = freshAnalyzer
  /\ analyzeFileIn hangingRuntime (fun _ _ => None) freshAnalyzer
                   "a.ts" fallbackSource "typescript"
     = (freshAnalyzer, None)
  /\ analyzeFileIn failedRuntime (fun _ _ => None) freshAnalyzer
                   "a.ts" EmptyString "typescript"
     = (mkAnalyzerState false [] true,
        Some (Some (mkFileAnalysis "a.ts" "typescript" [] [] []))).
Proof. repeat split. Qed.

(** A no-break space is white space to [trim] and to the patterns: a line
    indented with it is read like any other, and it may stand between
    [from] and the quote. *)
Example no_break_space_examples :
  analyzeFileRegex "a.ts" (nbsp +:+ "export class A {") "typescript"
  = mkFileAnalysis "a.ts" "typescript"
                   [mkCodeElement TClass "A" "a.ts" 1 1 []] []
                   ["export class A {"]
  /\ importSpecifier ("import x from" +:+ nbsp +:+ "'./u'") = Some "./u".
Proof. vm_compute. split; reflexivity. Qed.

End AnalyzerProperties.

(** ** The validator and the tour file *)

Module ValidatorProperties.
Import Js JsFacts JsProperties Regex RegexProperties.
Import TourGenerator TourGeneratorFacts.

(** X13: the validator never emits more steps than it was given, nor more
    than a positive [maxSteps]; without [maxSteps], or with 0, the limit is
    20; and a negative [maxSteps] keeps the last steps of the input out. *)
Theorem validated_steps_bounded steps structure options :
  let out := validateAndRefineSteps steps structure options in
  (length out <= length steps)%nat
  /\ (forall m, opt_maxSteps options = Some m -> 0 < m ->
        Z.of_nat (length out) <= m)
  /\ (opt_maxSteps options = None \/ opt_maxSteps options = Some 0 ->
      (length out <= 20)%nat)
  /\ (forall m, opt_maxSteps options = Some m -> m < 0 ->
        Z.of_nat (length out) <= Z.max 0 (Z.of_nat (length steps) + m)).
Proof.
  intros out. subst out. rewrite validateAndRefineSteps_spec.
  pose proof (length_omap_le (stepAt steps structure)
                (seq 0 (processedCount steps options))) as H.
  rewrite length_seq in H.
  pose proof (processedCount_le steps options) as Hle.
  set (n := processedCount steps options) in *.
  assert (Hn : n = length (slice0 (maxStepsOf options) steps)) by done.
  clearbody n. unfold slice0, maxStepsOf, truthyNumber in Hn.
  split; [lia|]. split; [|split].
  - intros m Hm Hpos. rewrite Hm in Hn.
    rewrite bool_decide_eq_true_2 in Hn by lia.
    assert (Hlt : (m <? 0) = false) by lia. rewrite Hlt in Hn.
    rewrite length_take in Hn. lia.
  - intros [Hm|Hm]; rewrite Hm in Hn; simpl in Hn; rewrite length_take in Hn; lia.
  - intros m Hm Hneg. rewrite Hm in Hn.
    rewrite bool_decide_eq_true_2 in Hn by lia.
    assert (Hlt : (m <? 0) = true) by lia. rewrite Hlt in Hn.
    rewrite length_take in Hn. lia.
Qed.

(** X14: the file of every emitted step is the path of an analysed file,
    the one exception being the step the welcome exemption let through at
    index 0. *)
Theorem emitted_files_are_analysed steps structure options t :
  t ∈ validateAndRefineSteps steps structure options ->
  ts_file t ∈ fa_file <$> ps_files structure
  \/ (exists st, steps !! 0%nat = Some st
                 /\ isWelcomeStep 0 st = true
                 /\ validateStep structure 0 st = Some t).
Proof.
  intros (k & st & Hk & Hst & Hv)%emitted_iff.
  destruct (isWelcomeStep k st) eqn:Hw.
  { right. assert (k = 0%nat) as ->.
    { unfold isWelcomeStep in Hw. apply andb_true_iff in Hw as [Hk0 _].
      by apply Nat.eqb_eq in Hk0. }
    eauto. }
  left. unfold validateStep in Hv.
  destruct (checkFile structure k st) as [st1|] eqn:Hc; [|done].
  simpl in Hv. injection Hv as <-.
  change (ts_file (toCodeTourStep (checkLine structure st1)))
    with (gs_file (checkLine structure st1)).
  rewrite checkLine_file.
  unfold checkFile in Hc. rewrite Hw in Hc. simpl in Hc.
  destruct (fileExists structure (gs_file st)) eqn:Hx.
  - injection Hc as <-. by apply fileExists_spec.
  - destruct (findSimilarFile _ _) as [p|] eqn:Hp; [|done].
    destruct (truthyString p); [|done]. injection Hc as <-. simpl.
    apply findSimilarFile_Some in Hp as (before & f & after & -> & <- & _).
    apply list_elem_of_fmap. exists f. split; [done|].
    apply elem_of_app. right. by left.
Qed.

Lemma validateStep_known structure k st :
  fileExists structure (gs_file st) = true ->
  match gs_line st with Some l => 1 <= l | None => True end ->
  validateStep structure k st = Some (copied st).
Proof.
  intros Hx Hl. unfold validateStep, checkFile. rewrite Hx.
  assert (Hc : checkLine structure st = st).
  { unfold checkLine. destruct (gs_line st) as [l|]; [|done].
    destruct (truthyNumber l); [|done]. rewrite Hx.
    by assert ((l <? 1) = false) as -> by lia. }
  assert (Ht : toCodeTourStep st = copied st).
  { unfold toCodeTourStep, copied. f_equal.
    destruct (gs_line st) as [l|]; [|done].
    unfold truthyNumber. by rewrite bool_decide_eq_true_2 by lia. }
  destruct (negb (isWelcomeStep k st)); simpl; by rewrite Hc, Ht.
Qed.

(** X15: on a list that needs no repair the validator only converts: when
    every step names an analysed file and has no line below 1, and the
    list is no longer than the step limit, the output is the input, step
    by step, with the five fields copied. *)
Theorem known_steps_pass_unchanged steps structure options :
  Forall (fun st => gs_file st ∈ fa_file <$> ps_files structure
                    /\ match gs_line st with Some l => 1 <= l | None => True end)
         steps ->
  Z.of_nat (length steps) <= maxStepsOf options ->
  validateAndRefineSteps steps structure options
  = (fun st => mkCodeTourStep (gs_title st) (gs_file st) (gs_description st)
                              (gs_line st) (gs_selection st)) <$> steps.
Proof.
  intros Hall Hmax. rewrite validateAndRefineSteps_spec.
  assert (Hn : processedCount steps options = length steps).
  { unfold processedCount, slice0.
    assert ((maxStepsOf options <? 0) = false) as -> by lia.
    rewrite length_take. lia. }
  rewrite Hn. clear Hn Hmax.
  change (fun st => mkCodeTourStep _ _ _ _ _) with copied.
  assert (Hgen : forall pre l,
             Forall (fun st => gs_file st ∈ fa_file <$> ps_files structure
                    /\ match gs_line st with Some l => 1 <= l | None => True end) l ->
             omap (stepAt (pre ++ l) structure) (seq (length pre) (length l))
             = copied <$> l).
  { intros pre l. revert pre. induction l as [|st l IH]; intros pre Hl; [done|].
    apply Forall_cons in Hl as [[Hf Hline] Hl]. simpl.
    change (omap ?g (?x :: ?r))
      with (match g x with Some y => y :: omap g r | None => omap g r end).
    unfold stepAt at 1. rewrite list_lookup_middle by done. simpl.
    rewrite validateStep_known; [|by apply fileExists_spec|done].
    f_equal. specialize (IH (pre ++ [st]) Hl).
    rewrite <- app_assoc, length_app in IH. simpl in IH.
    by rewrite Nat.add_1_r in IH. }
  apply (Hgen [] steps Hall).
Qed.

(** X16: the name [createTour] derives from a title holds nothing but
    lower-case letters, digits, underscores and hyphens: no separator, no
    dot, no white space. *)
Theorem tour_file_name_is_one_plain_segment tourTitle :
  everyChar fileNameChar (tourFileName tourTitle) = true.
Proof.
  unfold tourFileName, replaceAll.
  set (lowered := replaceAll_from _ whitespaceRun "-" None (toLowerCase tourTitle)).
  eapply (everyChar_both _
            (fun a => negb ((65 <=? nat_of_ascii a) && (nat_of_ascii a <=? 90))%nat));
    cycle 1.
  - apply (replaceAll_from_removed _ (S (String.length lowered)) None lowered). lia.
  - apply replaceAll_from_chars; [reflexivity|].
    subst lowered. apply replaceAll_from_chars; [reflexivity|]. apply toLowerCase_chars.
  - intros a. unfold fileNameChar, wordChar. cbv zeta.
    rewrite negb_involutive. intros H1 H2. apply negb_true_iff in H2.
    rewrite H2 in H1. rewrite orb_false_r in H1.
    destruct (bool_decide (a = "-"%char)) eqn:Hh.
    + apply bool_decide_eq_true in Hh as ->. done.
    + rewrite orb_false_r in H1.
      apply orb_true_iff in H1 as [H1|H1]; [|by rewrite H1, !orb_true_r].
      apply orb_true_iff in H1 as [H1|H1]; rewrite H1; by rewrite ?orb_true_r.
Qed.

(** *** Examples *)

Import Samples.

Lemma emitted_files_witness :
  "src/Utils/Helper.ts" ∈ fa_file <$> ps_files structureA
  \/ (exists st, [missingStep; helperStep] !! 0%nat = Some st
                 /\ isWelcomeStep 0 st = true
                 /\ validateStep structureA 0 st
                    = Some (mkCodeTourStep (Some "Helper") "src/Utils/Helper.ts"
                                           "d" (Some 1) None)).
Proof.
  apply (emitted_files_are_analysed [missingStep; helperStep] structureA defaults
           (mkCodeTourStep (Some "Helper") "src/Utils/Helper.ts" "d" (Some 1) None)).
  vm_compute. apply list_elem_of_here.
Defined.

Lemma known_steps_witness :
  validateAndRefineSteps [realStep] structureA defaults
  = [mkCodeTourStep (Some "Real") "src/real.ts" "d" (Some 3) None].
Proof.
  apply (known_steps_pass_unchanged [realStep] structureA defaults).
  - constructor; [|constructor]. split; [apply list_elem_of_here | simpl; lia].
  - vm_compute. discriminate.
Defined.

Example tour_file_name_examples :
  tourFileName "My Tour: v2 (final)" = "my-tour-v2-final"
  /\ tourFileName "a   b ../x" = "a-b-x".
Proof. split; reflexivity. Qed.

End ValidatorProperties.

(** ** The batch generator *)

Module GeneratorProperties.
Import Js JsFacts JsProperties Regex RegexProperties.
Import BatchTourGenerator BatchTourGeneratorFacts.

Local Arguments String.append !_ _ : simpl nomatch.

(** *** Batches *)

Lemma createFileBatches_loop_prefix (sortedFiles : list FileAnalysis) :
  forall fuel i batches j,
    (j < length batches)%nat ->
    createFileBatches_loop fuel sortedFiles i batches !! j = batches !! j.
Proof.
  induction fuel as [|fuel IH]; intros i batches j Hj; simpl; [done|].
  destruct (i <? length sortedFiles)%nat; [|done].
  rewrite IH by (rewrite length_app; simpl; lia).
  by rewrite lookup_app_l.
Qed.

Lemma createFileBatches_loop_lookup (sortedFiles : list FileAnalysis) :
  forall fuel i batches k,
    (length sortedFiles <= i + fuel * BATCH_SIZE)%nat ->
    createFileBatches_loop fuel sortedFiles i batches !! (length batches + k)%nat
    = if (i + k * BATCH_SIZE <? length sortedFiles)%nat
      then Some (take BATCH_SIZE (drop (i + k * BATCH_SIZE) sortedFiles))
      else None.
Proof.
  induction fuel as [|fuel IH]; intros i batches k Hfuel; simpl.
  - rewrite lookup_ge_None_2 by lia.
    destruct (Nat.ltb_spec (i + k * BATCH_SIZE) (length sortedFiles)); [|done].
    simpl in Hfuel. lia.
  - destruct (Nat.ltb_spec i (length sortedFiles)) as [Hlt|Hge].
    + destruct k as [|k].
      * rewrite !Nat.add_0_r.
        rewrite createFileBatches_loop_prefix by (rewrite length_app; simpl; lia).
        rewrite list_lookup_middle by done.
        by destruct (Nat.ltb_spec i (length sortedFiles)); [|lia].
      * specialize (IH (i + BATCH_SIZE)%nat
                       (batches ++ [take BATCH_SIZE (drop i sortedFiles)]) k).
        rewrite length_app in IH. simpl in IH.
        replace (length batches + S k)%nat with (length batches + 1 + k)%nat by lia.
        rewrite IH by (unfold BATCH_SIZE in *; lia).
        replace (i + BATCH_SIZE + k * BATCH_SIZE)%nat with (i + S k * BATCH_SIZE)%nat
          by (unfold BATCH_SIZE; lia).
        done.
    + rewrite lookup_ge_None_2 by lia.
      destruct (Nat.ltb_spec (i + k * BATCH_SIZE) (length sortedFiles)); [lia|done].
Qed.

(** X17: the batches are the files, ordered by non-increasing importance
    with ties in their original order, cut into consecutive runs of four:
    batch [k] holds the files at positions [4k] to [4k+3] of that order.
    So no batch is empty, none has more than four files, and there are
    as many batches as a quarter of the files, rounded up. *)
Theorem batches_are_runs_of_four files :
  let sorted := Js.sortDescending getFileImportance files in
  let batches := createFileBatches files in
  (forall k, batches !! k
             = if (k * 4 <? length files)%nat
               then Some (take 4 (drop (k * 4) sorted)) else None)
  /\ sorted ≡ₚ files
  /\ StronglySorted (fun a b => getFileImportance b <= getFileImportance a) sorted
  /\ (forall score,
        filter (fun f => getFileImportance f = score) sorted
        = filter (fun f => getFileImportance f = score) files)
  /\ Forall (fun b => (1 <= length b <= 4)%nat) batches
  /\ (length batches = (length files + 3) / 4)%nat.
Proof.
  cbv zeta.
  assert (Hlen : length (sortDescending getFileImportance files) = length files).
  { by rewrite sortDescending_perm. }
  assert (Hk : forall k, createFileBatches files !! k
             = if (k * 4 <? length files)%nat
               then Some (take 4 (drop (k * 4) (sortDescending getFileImportance files)))
               else None).
  { intros k. unfold createFileBatches.
    pose proof (createFileBatches_loop_lookup
                  (sortDescending getFileImportance files)
                  (length (sortDescending getFileImportance files)) 0 [] k) as H.
    simpl in H. rewrite Hlen in *. apply H. unfold BATCH_SIZE. lia. }
  split; [exact Hk|].
  split; [apply sortDescending_perm|].
  split; [apply sortDescending_sorted|].
  split; [intros score; apply sortDescending_stable|].
  split.
  - apply Forall_lookup. intros k b Hb. rewrite Hk in Hb.
    destruct (Nat.ltb_spec (k * 4) (length files)); [|done].
    injection Hb as <-. rewrite length_take, length_drop, Hlen. lia.
  - set (n := length (createFileBatches files)).
    assert (Hn : forall k, (k < n)%nat <-> (k * 4 < length files)%nat).
    { intros k. subst n. rewrite <- lookup_lt_is_Some, Hk.
      destruct (Nat.ltb_spec (k * 4) (length files)).
      - split; [done | by eauto].
      - split; [by intros [? ?] | lia]. }
    clearbody n.
    assert (H1 : (length files <= n * 4)%nat).
    { destruct (Nat.le_gt_cases (length files) (n * 4)) as [?|Hgt]; [done|].
      apply Hn in Hgt. lia. }
    assert (H2 : (n = 0 \/ (n - 1) * 4 < length files)%nat).
    { destruct n as [|n']; [by left|]. right. apply Hn. lia. }
    apply Nat.div_unique with (r := (length files + 3 - n * 4)%nat); lia.
Qed.

(** X18: whenever the run has a batch to send, the number of steps asked
    of each batch is a number, never the result of a division by zero: it
    lies between 1 and the target of 25, and over as many batches as all
    analysed files would fill it reaches the target. *)
Theorem steps_per_batch_is_finite_when_a_batch_runs structure :
  createFileBatches (filterImportantFiles (ps_files structure)) <> [] ->
  exists quota,
    stepsPerBatch structure = Steps quota
    /\ (1 <= quota <= 25)%nat
    /\ (25 <= quota * ceilDiv (length (ps_files structure)) 4)%nat.
Proof.
  intros Hb.
  assert (Hfiles : (1 <= length (ps_files structure))%nat).
  { destruct (ps_files structure) as [|f files]; [|simpl; lia].
    by destruct Hb. }
  unfold stepsPerBatch, ceilDiv, BATCH_SIZE, TARGET_STEPS. cbv zeta.
  set (n := length (ps_files structure)) in *.
  set (b := ((n + (4 - 1)) / 4)%nat).
  assert (Hbpos : (1 <= b)%nat).
  { subst b. apply Nat.div_le_lower_bound; lia. }
  destruct (Nat.eqb_spec b 0) as [?|_]; [lia|].
  eexists. split; [reflexivity|].
  pose proof (Nat.div_mod_eq (25 + (b - 1)) b) as Hdm.
  pose proof (Nat.mod_upper_bound (25 + (b - 1)) b) as Hr.
  set (q := ((25 + (b - 1)) / b)%nat) in *.
  set (r := ((25 + (b - 1)) mod b)%nat) in *.
  clearbody q r. nia.
Qed.

(** *** The README cleaner *)

(** One round of the loop, by the tests that decide it. *)
Lemma cleanLine_cases st originalLine :
  cleanLine st originalLine
  = if isBadgeLine originalLine then st
    else if mentionsSponsor originalLine then mkCleanState (cs_cleaned st) true
    else if looksLikeAd originalLine then st
    else if cs_skipSection st && negb (isHeading originalLine) then st
    else mkCleanState (cs_cleaned st ++ [originalLine]) false.
Proof.
  unfold cleanLine, isBadgeLine, mentionsSponsor, looksLikeAd, isHeading.
  cbv zeta.
  destruct (test badgePattern originalLine || test shieldsPattern originalLine); [done|].
  destruct (includes _ "sponsor" || _ || _ || _); [done|].
  destruct (_ || _ || _ || test promoPattern _); [done|].
  destruct st as [cleaned [|]]; simpl; [|done].
  by destruct (test headingPattern originalLine).
Qed.

Lemma foldl_cleanLine_sublist lines : forall st,
  exists kept,
    cs_cleaned (foldl cleanLine st lines) = cs_cleaned st ++ kept
    /\ kept `sublist_of` lines
    /\ Forall (fun l => dropsLine l = false) kept.
Proof.
  induction lines as [|l lines IH]; intros st; simpl.
  - exists []. by rewrite app_nil_r.
  - destruct (IH (cleanLine st l)) as (kept & -> & Hsub & Hall).
    assert (Hskip : exists kept',
              cs_cleaned st ++ kept = cs_cleaned st ++ kept'
              /\ kept' `sublist_of` l :: lines
              /\ Forall (fun l => dropsLine l = false) kept').
    { exists kept. split; [done|]. split; [by apply sublist_cons | done]. }
    rewrite cleanLine_cases.
    destruct (isBadgeLine l) eqn:Hb; [done|].
    destruct (mentionsSponsor l) eqn:Hs; [done|].
    destruct (looksLikeAd l) eqn:Had; [done|].
    destruct (cs_skipSection st && negb (isHeading l)); [done|].
    exists (l :: kept). simpl. rewrite <- app_assoc. split; [done|].
    split; [by apply sublist_skip|]. constructor; [|done].
    unfold dropsLine. by rewrite Hb, Hs, Had.
Qed.

(** X19: the cleaned README is never longer than 5000 characters. *)
Theorem cleaned_readme_is_bounded readme :
  (String.length (cleanReadmeContent readme) <= 5000)%nat.
Proof.
  unfold cleanReadmeContent, Js.substring. cbv zeta.
  etransitivity; [apply substring_length|]. lia.
Qed.

(** X20: the cleaned README is made of lines of the README, in their
    order, joined by line feeds and cut at 5000 characters; none of the
    lines kept is a badge, mentions a sponsor in any letter case, or looks
    like an advertisement. *)
Theorem cleaned_readme_keeps_lines_in_order readme :
  let kept := keptLines (Js.split "010" readme) in
  cleanReadmeContent readme = Js.substring 0 5000 (Js.join Js.nl kept)
  /\ kept `sublist_of` Js.split "010" readme
  /\ Forall (fun l => isBadgeLine l = false
                      /\ Js.includes (Js.toLowerCase l) "sponsor" = false
                      /\ looksLikeAd l = false)
            kept.
Proof.
  cbv zeta. split; [done|]. unfold keptLines.
  destruct (foldl_cleanLine_sublist (split "010" readme) (mkCleanState [] false))
    as (kept & -> & Hsub & Hall).
  simpl. split; [done|]. eapply Forall_impl; [exact Hall|].
  intros l. unfold dropsLine, mentionsSponsor. cbv zeta.
  intros [[Hb Hs]%orb_false_iff Ha]%orb_false_iff.
  repeat split; try done.
  by apply orb_false_iff in Hs as [[[? _]%orb_false_iff _]%orb_false_iff _].
Qed.

Lemma foldl_cleanLine_quiet lines : forall cleaned,
  Forall (fun l => dropsLine l = false) lines ->
  foldl cleanLine (mkCleanState cleaned false) lines
  = mkCleanState (cleaned ++ lines) false.
Proof.
  induction lines as [|l lines IH]; intros cleaned Hall; simpl.
  - by rewrite app_nil_r.
  - apply Forall_cons in Hall as [Hl Hall].
    unfold dropsLine in Hl.
    apply orb_false_iff in Hl as [[Hb Hs]%orb_false_iff Ha].
    rewrite cleanLine_cases, Hb, Hs, Ha. simpl.
    rewrite IH by done. by rewrite <- app_assoc.
Qed.

(** X21: a README none of whose lines is a badge, a mention of sponsors or
    an advertisement comes back as it is, cut at 5000 characters. *)
Theorem quiet_readme_is_only_cut readme :
  Forall (fun l => dropsLine l = false) (Js.split "010" readme) ->
  cleanReadmeContent readme = Js.substring 0 5000 readme.
Proof.
  intros Hall. unfold cleanReadmeContent. cbv zeta.
  rewrite foldl_cleanLine_quiet by done. simpl.
  unfold nl. by rewrite split_join.
Qed.

Lemma foldl_cleanLine_skipping body : forall cleaned,
  Forall (fun l => isHeading l = false) body ->
  foldl cleanLine (mkCleanState cleaned true) body = mkCleanState cleaned true.
Proof.
  induction body as [|l body IH]; intros cleaned Hall; simpl; [done|].
  apply Forall_cons in Hall as [Hl Hall].
  rewrite cleanLine_cases, Hl. simpl.
  destruct (isBadgeLine l), (mentionsSponsor l), (looksLikeAd l); by apply IH.
Qed.

(** X22: a line that mentions sponsors (and is not a badge) opens a skipped
    section: neither it nor any line after it is kept as long as no
    heading of level one to three comes; the first such heading that is
    itself not dropped is kept and ends the section. *)
Theorem sponsor_section_is_skipped before opener body heading :
  isBadgeLine opener = false ->
  mentionsSponsor opener = true ->
  Forall (fun l => isHeading l = false) body ->
  isHeading heading = true ->
  dropsLine heading = false ->
  keptLines (before ++ opener :: body) = keptLines before
  /\ keptLines (before ++ opener :: body ++ [heading])
     = keptLines before ++ [heading].
Proof.
  intros Hb Hs Hbody Hh Hd. unfold keptLines.
  assert (Hopen : foldl cleanLine (mkCleanState [] false) (before ++ opener :: body)
                  = mkCleanState
                      (cs_cleaned (foldl cleanLine (mkCleanState [] false) before))
                      true).
  { rewrite foldl_app. simpl. rewrite cleanLine_cases, Hb, Hs.
    by apply foldl_cleanLine_skipping. }
  split; [by rewrite Hopen|].
  replace (before ++ opener :: body ++ [heading])
    with ((before ++ opener :: body) ++ [heading]) by (by rewrite <- app_assoc).
  rewrite foldl_app, Hopen. simpl. rewrite cleanLine_cases.
  unfold dropsLine in Hd.
  apply orb_false_iff in Hd as [[Hb' Hs']%orb_false_iff Ha'].
  by rewrite Hb', Hs', Ha', Hh.
Qed.

(** *** The welcome page *)

(** X23: the key directories are at most six, all different, and each is
    the first segment of the path of an analysed file that lies in a
    directory. *)
Theorem key_directories_are_distinct_first_segments files :
  let dirs := getKeyDirectories files in
  (length dirs <= 6)%nat
  /\ NoDup dirs
  /\ Forall (fun d =>
       Js.includes d "/" = false
       /\ exists f tail, f ∈ files /\ fa_file f = d +:+ "/" +:+ tail)
     dirs.
Proof.
  cbv zeta. unfold getKeyDirectories, uniq.
  set (firsts := omap _ files).
  destruct (uniq_loop_spec firsts []) as [Hnd Hin].
  split; [rewrite length_take; lia|].
  split; [eapply sublist_NoDup; [exact Hnd | apply sublist_take]|].
  apply Forall_forall. intros d Hd%(subseteq_take 6).
  apply Hin in Hd as [Hd _]. subst firsts.
  apply list_elem_of_omap in Hd as (f & Hf & Hd).
  pose proof (split_join "/" (fa_file f)) as Hj.
  pose proof (split_segments "/" (fa_file f)) as Hs.
  destruct (split "/" (fa_file f)) as [|h [|h2 t]] eqn:E; simpl in Hd; try done.
  injection Hd as ->.
  apply Forall_cons in Hs as [Hs _]. split; [done|].
  exists f, (join "/" (h2 :: t)). split; [done|].
  rewrite <- Hj. done.
Qed.

Lemma welcomeFileOf_nonempty structure ws :
  welcomeFileOf structure ws <> EmptyString.
Proof.
  unfold welcomeFileOf, orElse, truthyString.
  destruct (readmeOf ws); [done|].
  case_bool_decide; done.
Qed.

Lemma fallbackStep_isWelcome structure ws :
  TourGenerator.isWelcomeStep 0 (fallbackStep structure ws) = true.
Proof.
  apply TourGeneratorFacts.isWelcomeStep_spec. split; [done|].
  exists ("🎉 Welcome to " +:+ workspaceNameOf ws), "🎉 ",
         (" to " +:+ workspaceNameOf ws).
  split; reflexivity.
Qed.

Section Generation.
Variable JSON_parse : string -> option Parsed.

(** X24: the step of the welcome page always names a file: whatever the
    service returned, its [file] is not the empty text. *)
Theorem welcome_step_names_a_file structure ws completion :
  Forall (fun step => gs_file step <> EmptyString)
         (generateWelcomePage JSON_parse structure ws completion).
Proof.
  pose proof (welcomeFileOf_nonempty structure ws) as Hw.
  unfold generateWelcomePage, welcome_try.
  assert (Hfb : Forall (fun step => gs_file step <> EmptyString)
                       [fallbackStep structure ws]).
  { constructor; [done|constructor]. }
  destruct completion as [message|content]; [done|].
  destruct (parseStepsFromResponse JSON_parse content) as [|step0 others]; [done|].
  simpl. constructor; [|constructor].
  unfold withWelcomeFile, truthyString.
  case_bool_decide as Hne; simpl; [|done].
  case_bool_decide; done.
Qed.

(** X25: when the request for the welcome page is rejected, the validated
    tour opens with the fallback welcome step, whatever the batches
    returned and whether or not its file was analysed: title, file,
    description and line 1 come through the validator untouched, provided
    the step limit is positive. *)
Theorem fallback_welcome_opens_the_tour service structure ws message options :
  0 < TourGenerator.maxStepsOf options ->
  exists others,
    TourGenerator.validateAndRefineSteps
      (generateTourInBatches JSON_parse service structure ws (Rejected message))
      structure options
    = mkCodeTourStep (Some ("🎉 Welcome to " +:+ workspaceNameOf ws))
                     (welcomeFileOf structure ws)
                     (fallbackDescription structure ws) (Some 1) None
      :: others.
Proof.
  intros Hmax. unfold generateTourInBatches. simpl.
  rewrite group_loop_spec by (unfold CONCURRENT_BATCHES; lia).
  rewrite drop_0. simpl.
  set (others := concat _).
  rewrite TourGeneratorFacts.validateAndRefineSteps_spec.
  assert (Hn : exists n,
             TourGenerator.processedCount (fallbackStep structure ws :: others) options
             = S n).
  { unfold TourGenerator.processedCount, slice0.
    assert ((TourGenerator.maxStepsOf options <? 0) = false) as -> by lia.
    rewrite length_take. simpl length.
    exists (Nat.pred (Z.to_nat (TourGenerator.maxStepsOf options
                                  `min` Z.of_nat (S (length others)))
                        `min` S (length others))). lia. }
  destruct Hn as [n ->]. simpl seq.
  change (omap ?g (?x :: ?r))
    with (match g x with Some y => y :: omap g r | None => omap g r end).
  unfold TourGenerator.stepAt at 1. simpl lookup. cbn [mbind option_bind].
  unfold TourGenerator.validateStep, TourGenerator.checkFile.
  rewrite fallbackStep_isWelcome. simpl.
  eexists. f_equal. unfold TourGenerator.checkLine. simpl.
  by destruct (TourGenerator.fileExists structure (welcomeFileOf structure ws)).
Qed.

End Generation.

(** *** Examples *)

Import Samples.

Lemma steps_per_batch_witness :
  exists quota,
    stepsPerBatch structureB = Steps quota
    /\ (1 <= quota <= 25)%nat
    /\ (25 <= quota * ceilDiv (length (ps_files structureB)) 4)%nat.
Proof.
  apply steps_per_batch_is_finite_when_a_batch_runs.
  vm_compute. discriminate.
Defined.

Lemma quiet_readme_witness :
  cleanReadmeContent quietReadme = quietReadme.
Proof.
  refine (quiet_readme_is_only_cut quietReadme _).
  change (Forall (fun l => dropsLine l = false) ["# Tool"; "run it"]).
  repeat (constructor; [vm_compute; reflexivity|]). constructor.
Defined.

Lemma sponsor_section_witness :
  keptLines ["# Tool"; "Intro text"; "### Sponsors"; "Acme pays us"]
  = keptLines ["# Tool"; "Intro text"]
  /\ keptLines ["# Tool"; "Intro text"; "### Sponsors"; "Acme pays us"; "## Usage"]
     = keptLines ["# Tool"; "Intro text"] ++ ["## Usage"].
Proof.
  apply (sponsor_section_is_skipped ["# Tool"; "Intro text"] "### Sponsors"
           ["Acme pays us"] "## Usage").
  - vm_compute. reflexivity.
  - vm_compute. reflexivity.
  - constructor; [vm_compute; reflexivity | constructor].
  - vm_compute. reflexivity.
  - vm_compute. reflexivity.
Defined.

Lemma fallback_welcome_witness :
  exists others,
    TourGenerator.validateAndRefineSteps
      (generateTourInBatches sampleParse hangingOnSecond structureB bareWorkspace
                             (Rejected "no key"))
      structureB defaults
    = mkCodeTourStep (Some ("🎉 Welcome to " +:+ workspaceNameOf bareWorkspace))
                     (welcomeFileOf structureB bareWorkspace)
                     (fallbackDescription structureB bareWorkspace) (Some 1) None
      :: others.
Proof.
  apply (fallback_welcome_opens_the_tour sampleParse hangingOnSecond structureB
           bareWorkspace "no key" defaults).
  reflexivity.
Defined.

Example batches_example :
  length (createFileBatches (ps_files structureB)) = 2%nat
  /\ stepsPerBatch structureB = Steps 13.
Proof. split; reflexivity. Qed.

Example key_directories_example :
  getKeyDirectories [sourceFile "src/a.ts"; sourceFile "README.md";
                     sourceFile "lib/b.ts"; sourceFile "src/c/d.ts"]
  = ["src"; "lib"].
Proof. reflexivity. Qed.

(** A heading whose marks are followed by a no-break space ends a skipped
    section like any other heading. *)
Example no_break_space_heading_example :
  isHeading ("#" +:+ nbsp +:+ "Usage") = true
  /\ keptLines ["### Sponsors"; "Acme pays us"; "#" +:+ nbsp +:+ "Usage"]
     = ["#" +:+ nbsp +:+ "Usage"].
Proof. vm_compute. split; reflexivity. Qed.

End GeneratorProperties.

(** ** The generation service *)

Module ServiceProperties.
Import Js JsFacts JsProperties Regex RegexProperties.
Import BatchTourGenerator BatchTourGeneratorFacts LLMService.

Local Arguments String.append !_ _ : simpl nomatch.

Lemma isConfigured_spec config :
  isConfigured config = false
  <-> everyChar Js.isWhiteSpace (cfg_apiKey config) = true.
Proof.
  unfold isConfigured. rewrite negb_false_iff, bool_decide_eq_true. apply trim_blank.
Qed.

Lemma blank_key_rejected config transport :
  everyChar Js.isWhiteSpace (cfg_apiKey config) = true ->
  generateCompletion config transport = Rejected notConfiguredMessage.
Proof.
  intros Hk%isConfigured_spec. unfold generateCompletion. by rewrite Hk.
Qed.

(** X26: with a key that is empty or all white space, and likewise with a
    provider other than the three known ones, no request is ever sent: the
    completion is rejected with a fixed message, the same whatever the
    transport would have answered. *)
Theorem unusable_configuration_sends_no_request config transport :
  (everyChar Js.isWhiteSpace (cfg_apiKey config) = true ->
     generateCompletion config transport = Rejected notConfiguredMessage)
  /\ (everyChar Js.isWhiteSpace (cfg_apiKey config) = false ->
      cfg_provider config ∉ ["openai"; "anthropic"; "custom"] ->
      generateCompletion config transport
      = Rejected ("LLM API error: Unsupported LLM provider: "
                  +:+ cfg_provider config)).
Proof.
  split; [apply blank_key_rejected|].
  unfold generateCompletion. intros Hk Hp.
  assert (Hc : isConfigured config = true).
  { destruct (isConfigured config) eqn:E; [done|].
    apply isConfigured_spec in E. congruence. }
  rewrite Hc. simpl. unfold callLLMAPI.
  repeat (case_bool_decide as E;
          [exfalso; apply Hp; rewrite E;
           repeat (first [apply list_elem_of_here | apply list_elem_of_further])
          |clear E]).
  done.
Qed.

Section Pipeline.
Variable JSON_parse : string -> option Parsed.

(** X27: with a key that is empty or all white space, a whole run of the
    batch generator returns the fallback welcome step and nothing else,
    however many batches there are. *)
Theorem without_a_key_the_tour_is_the_fallback_welcome
        config (welcomeTransport : Transport)
        (batchTransport : nat -> list FileAnalysis -> Transport) structure ws :
  everyChar Js.isWhiteSpace (cfg_apiKey config) = true ->
  generateTourInBatches JSON_parse
    (fun batchNum batch =>
       ServiceFirst (generateCompletion config (batchTransport batchNum batch)))
    structure ws (generateCompletion config welcomeTransport)
  = [fallbackStep structure ws].
Proof.
  intros Hk. unfold generateTourInBatches.
  rewrite group_loop_spec by (unfold CONCURRENT_BATCHES; lia).
  rewrite drop_0.
  rewrite blank_key_rejected by done.
  simpl. f_equal.
  generalize (createFileBatches (filterImportantFiles (ps_files structure))).
  intros batches. generalize 0%nat.
  induction batches as [|b batches IH]; intros n; [done|].
  simpl. unfold runBatch at 1. simpl.
  rewrite blank_key_rejected by done.
  simpl. rewrite <- (IH (S n)). f_equal. apply imap_ext. intros i x _. simpl.
  f_equal; lia.
Qed.
End Pipeline.

(** X28: with the [openai] provider, what the service answers decides the
    completion by its status alone.  Status 200 gives the content of the
    first choice, or a rejection when there is none.  Any other status is
    a rejection whose message is [LLM API error: ] followed by the message
    [callOpenAI] built; so a 401 or a 429 of the service never produces the
    guidance texts that [generateCompletion] keeps for these two statuses. *)
Theorem openai_responses_are_decided_by_status config transport response :
  isConfigured config = true ->
  cfg_provider config = "openai" ->
  tr_openai transport = Responded response ->
  (rs_status response = 200%nat ->
     generateCompletion config transport
     = match rs_choices response with
       | Some (content :: _) => Resolved content
       | _ => Rejected "LLM API error: OpenAI returned no choices in response"
       end)
  /\ (rs_status response <> 200%nat ->
     generateCompletion config transport
     = Rejected ("LLM API error: " +:+ openAIErrorMessage response))
  /\ (rs_status response = 401%nat -> rs_error response <> None ->
      generateCompletion config transport
      = Rejected "LLM API error: Invalid API key")
  /\ (rs_status response = 429%nat -> rs_error response <> None ->
      generateCompletion config transport
      = Rejected "LLM API error: Rate limit exceeded")
  /\ generateCompletion config transport
     <> Rejected "Invalid API key. Please check your LLM configuration."
  /\ generateCompletion config transport
     <> Rejected "Rate limit exceeded. Please try again later.".
Proof.
  intros Hc Hp Ht.
  assert (Hok : rs_status response = 200%nat ->
     generateCompletion config transport
     = match rs_choices response with
       | Some (content :: _) => Resolved content
       | _ => Rejected "LLM API error: OpenAI returned no choices in response"
       end).
  { intros Hs. unfold generateCompletion, callLLMAPI, callOpenAI.
    rewrite Hc, Hp, Ht, Hs. simpl.
    by destruct (rs_choices response) as [[|? ?]|]. }
  assert (Hbad : rs_status response <> 200%nat ->
            generateCompletion config transport
            = Rejected ("LLM API error: " +:+ openAIErrorMessage response)).
  { intros Hs. unfold generateCompletion, callLLMAPI, callOpenAI.
    rewrite Hc, Hp, Ht. simpl.
    destruct (Nat.eqb_spec (rs_status response) 200); [done|]. done. }
  split; [done|]. split; [done|]. split; [|split; [|split]].
  - intros Hs He. rewrite Hbad by lia. unfold openAIErrorMessage. rewrite Hs.
    by destruct (rs_error response).
  - intros Hs He. rewrite Hbad by lia. unfold openAIErrorMessage. rewrite Hs.
    by destruct (rs_error response).
  - destruct (decide (rs_status response = 200%nat)) as [Hs|Hs].
    + rewrite Hok by done. by destruct (rs_choices response) as [[|? ?]|].
    + by rewrite Hbad.
  - destruct (decide (rs_status response = 200%nat)) as [Hs|Hs].
    + rewrite Hok by done. by destruct (rs_choices response) as [[|? ?]|].
    + by rewrite Hbad.
Qed.

(** *** Examples *)

Import Samples.

Lemma without_a_key_witness :
  generateTourInBatches sampleParse
    (fun batchNum batch =>
       ServiceFirst (generateCompletion blankKey (respondingWith answered)))
    structureB bareWorkspace
    (generateCompletion blankKey (respondingWith answered))
  = [fallbackStep structureB bareWorkspace].
Proof.
  apply (without_a_key_the_tour_is_the_fallback_welcome sampleParse blankKey
           (respondingWith answered) (fun _ _ => respondingWith answered)).
  reflexivity.
Defined.

Lemma openai_responses_witness :
  generateCompletion openaiKey (respondingWith unauthorized)
  = Rejected "LLM API error: Invalid API key"
  /\ generateCompletion openaiKey (respondingWith answered) = Resolved plainResponse.
Proof.
  split.
  - refine (proj1 (proj2 (proj2
              (openai_responses_are_decided_by_status openaiKey
                 (respondingWith unauthorized) unauthorized
                 eq_refl eq_refl eq_refl))) eq_refl _).
    discriminate.
  - exact (proj1 (openai_responses_are_decided_by_status openaiKey
                    (respondingWith answered) answered eq_refl eq_refl eq_refl)
             eq_refl).
Defined.

Example service_examples :
  generateCompletion blankKey (respondingWith answered) = Rejected notConfiguredMessage
  /\ generateCompletion openaiKey
       (respondingWith (mkResponse 503 None None))
     = Rejected "LLM API error: OpenAI API error (503)".
Proof. split; reflexivity. Qed.

(** A key of no-break spaces is no key: the service is not configured,
    whatever the provider and whatever the transport would answer. *)
Example no_break_space_key_example :
  isConfigured (mkLLMConfig (nbsp +:+ nbsp) endpoint "gpt-4" "openai") = false
  /\ generateCompletion (mkLLMConfig (nbsp +:+ nbsp) endpoint "gpt-4" "openai")
                        (respondingWith answered)
     = Rejected notConfiguredMessage
  /\ generateCompletion (mkLLMConfig (nbsp +:+ nbsp) endpoint "gpt-4" "other")
                        (respondingWith answered)
     = Rejected notConfiguredMessage.
Proof. vm_compute. repeat split. Qed.

End ServiceProperties.
